(** * hybrid_extract.ts: the deterministic stages of the hybrid extractor

    Sentence segmentation, pattern-based candidate detection, the
    rules-only mapping and the dedupe/merge step of [hybrid_extract.ts],
    as Rocq functions, with the properties of the specification stated
    and settled against them.

    JavaScript strings are sequences of UTF-16 code units; they are
    modelled as [list N].  The regular expressions of the source are
    kept as syntax trees and run by a backtracking matcher that follows
    the ECMAScript pattern semantics (continuation-passing matchers,
    RepeatMatcher with its empty-check, RegExpBuiltinExec, the global
    @@match loop and @@split). *)

From Stdlib Require Import Ascii String DecimalString.
From Stdlib Require Import List NArith ZArith QArith Bool Arith Lia.
From Stdlib Require Import Permutation Sorted.
Import ListNotations.

Local Open Scope list_scope.
Local Open Scope nat_scope.

Set Implicit Arguments.

(* ================================================================== *)
(** ** JavaScript strings *)
(* ================================================================== *)

Module JS.

Definition jsstring := list N.

Definition ch (a : ascii) : N := N_of_ascii a.

Fixpoint str (s : string) : jsstring :=
  match s with
  | EmptyString => []
  | String a s' => ch a :: str s'
  end.

Fixpoint string_eqb (a b : jsstring) : bool :=
  match a, b with
  | [], [] => true
  | x :: a', y :: b' => N.eqb x y && string_eqb a' b'
  | _, _ => false
  end.

Definition between (lo hi u : N) : bool := N.leb lo u && N.leb u hi.

(** WhiteSpace and LineTerminator code points: what [\s] matches and what
    [String.prototype.trim] strips. *)
Definition isWhiteSpace (u : N) : bool :=
  (between 9 13 u || N.eqb u 32 || N.eqb u 160 || N.eqb u 5760
   || between 8192 8202 u || N.eqb u 8232 || N.eqb u 8233
   || N.eqb u 8239 || N.eqb u 8287 || N.eqb u 12288 || N.eqb u 65279)%bool.

Definition isDigit (u : N) : bool := between 48 57 u.

(** [\w]: A-Z, a-z, 0-9 and underscore. *)
Definition isWordChar (u : N) : bool :=
  (between 65 90 u || between 97 122 u || isDigit u || N.eqb u 95)%bool.

Fixpoint trimStart (s : jsstring) : jsstring :=
  match s with
  | [] => []
  | u :: t => if isWhiteSpace u then trimStart t else s
  end.

Definition trimEnd (s : jsstring) : jsstring := rev (trimStart (rev s)).

Definition trim (s : jsstring) : jsstring := trimEnd (trimStart s).

(** Truthiness of a string: [Boolean(s)], [s || t]. *)
Definition truthy (s : jsstring) : bool :=
  match s with [] => false | _ => true end.

(** Lower-casing restricted to the ASCII letters.  It is the instance of
    the host's [toLowerCase] used when the pipeline is evaluated on
    concrete ASCII text. *)
Definition asciiLower (u : N) : N :=
  if between 65 90 u then (u + 32)%N else u.

Definition asciiToLowerCase (s : jsstring) : jsstring := map asciiLower s.

(** [Array.from(new Set(xs))]: the first occurrence of every value, in
    insertion order. *)
Section SetToArray.
Variable A : Type.
Variable eqb : A -> A -> bool.

Definition mem (x : A) (l : list A) : bool := existsb (eqb x) l.

Definition setAdd (acc : list A) (x : A) : list A :=
  if mem x acc then acc else acc ++ [x].

Definition arrayFromSet (xs : list A) : list A := fold_left setAdd xs [].
End SetToArray.

(** [xs.sort((a, b) => a - b)] on integers: ascending order. *)
Fixpoint insertAsc (x : Z) (l : list Z) : list Z :=
  match l with
  | [] => [x]
  | y :: t => if Z.leb x y then x :: l else y :: insertAsc x t
  end.

Definition sortAsc (l : list Z) : list Z := fold_right insertAsc [] l.

(** [Map<string, V>]: entries in insertion order; [set] on a present key
    replaces the value in place. *)
Section StringMap.
Variable V : Type.

Definition Map := list (jsstring * V).

Fixpoint Map_get (k : jsstring) (m : Map) : option V :=
  match m with
  | [] => None
  | (k', v) :: m' => if string_eqb k k' then Some v else Map_get k m'
  end.

Definition Map_has (k : jsstring) (m : Map) : bool :=
  match Map_get k m with Some _ => true | None => false end.

Fixpoint Map_set (k : jsstring) (v : V) (m : Map) : Map :=
  match m with
  | [] => [(k, v)]
  | (k', v') :: m' =>
      if string_eqb k k' then (k', v) :: m' else (k', v') :: Map_set k v m'
  end.

Definition Map_values (m : Map) : list V := map snd m.
End StringMap.

End JS.

Import JS.

(* ================================================================== *)
(** ** Regular expressions *)
(* ================================================================== *)

Module RegExp.

(** Members of a character class. *)
Inductive ClassAtom :=
| One (c : N)               (* a literal character *)
| Range (lo hi : N)         (* lo-hi *)
| Digit                     (* \d *)
| Space                     (* \s *)
| NotSpace.                 (* \S *)

Record CharClass := { negated : bool; atoms : list ClassAtom }.

Inductive regex :=
| Empty
| Class (cc : CharClass)
| Seq (r1 r2 : regex)
| Alt (r1 r2 : regex)
| Quant (r : regex) (min : nat) (max : option nat) (greedy : bool)
| WordBoundary                      (* \b *)
| LookAhead (r : regex)             (* (?=r) *)
| LookBehindClass (cc : CharClass). (* (?<=[...]) *)

(** Canonicalize of the non-unicode ignoreCase mode, on the characters
    that can be equal to an ASCII pattern character: a character outside
    ASCII never canonicalizes to an ASCII one, so it is left alone. *)
Definition canonicalize (ic : bool) (u : N) : N :=
  if ic then (if between 97 122 u then (u - 32)%N else u) else u.

Definition lower (u : N) : N := if between 65 90 u then (u + 32)%N else u.

Definition atomMatches (ic : bool) (a : ClassAtom) (u : N) : bool :=
  match a with
  | One c => N.eqb (canonicalize ic c) (canonicalize ic u)
  | Range lo hi =>
      (between lo hi u
       || (ic && (between lo hi (canonicalize ic u) || between lo hi (lower u))))%bool
  | Digit => isDigit u
  | Space => isWhiteSpace u
  | NotSpace => negb (isWhiteSpace u)
  end.

Definition classMatches (ic : bool) (cc : CharClass) (u : N) : bool :=
  xorb (negated cc) (existsb (fun a => atomMatches ic a u) (atoms cc)).

(** A position in the input: the code units before it (nearest first)
    and the code units from it on. *)
Record pos := { prev : jsstring; rest : jsstring }.

Definition endIndex (x : pos) : nat := length (prev x).

Definition start (s : jsstring) : pos := {| prev := []; rest := s |}.

Definition cont := pos -> option pos.
Definition matcher := pos -> cont -> option pos.

Definition orElse (a : option pos) (b : unit -> option pos) : option pos :=
  match a with Some z => Some z | None => b tt end.

(** RepeatMatcher.  An iteration that matches the empty string once
    [min] is exhausted is rejected, so every further iteration consumes
    input and [min + length rest + 1] steps of fuel are never used up. *)
Fixpoint RepeatMatcher (fuel : nat) (m : matcher) (min : nat)
    (max : option nat) (greedy : bool) (x : pos) (c : cont) : option pos :=
  match fuel with
  | O => None
  | S fuel' =>
      match max with
      | Some O => c x
      | _ =>
          let d : cont := fun y =>
            if (Nat.eqb min 0 && Nat.eqb (endIndex y) (endIndex x))%bool
            then None
            else RepeatMatcher fuel' m (Nat.pred min) (option_map Nat.pred max)
                               greedy y c in
          if negb (Nat.eqb min 0) then m x d
          else if negb greedy then orElse (c x) (fun _ => m x d)
          else orElse (m x d) (fun _ => c x)
      end
  end.

Definition isWordAt (o : option N) : bool :=
  match o with Some u => isWordChar u | None => false end.

Fixpoint compile (ic : bool) (r : regex) : matcher :=
  match r with
  | Empty => fun x c => c x
  | Class cc => fun x c =>
      match rest x with
      | u :: t =>
          if classMatches ic cc u
          then c {| prev := u :: prev x; rest := t |}
          else None
      | [] => None
      end
  | Seq r1 r2 => fun x c => compile ic r1 x (fun y => compile ic r2 y c)
  | Alt r1 r2 => fun x c =>
      orElse (compile ic r1 x c) (fun _ => compile ic r2 x c)
  | Quant r1 min max greedy => fun x c =>
      RepeatMatcher (min + length (rest x) + 1) (compile ic r1)
                    min max greedy x c
  | WordBoundary => fun x c =>
      if xorb (isWordAt (hd_error (prev x))) (isWordAt (hd_error (rest x)))
      then c x else None
  | LookAhead r1 => fun x c =>
      match compile ic r1 x Some with
      | Some _ => c x
      | None => None
      end
  | LookBehindClass cc => fun x c =>
      match prev x with
      | u :: _ => if classMatches ic cc u then c x else None
      | [] => None
      end
  end.

(** A regular expression object: pattern and ignoreCase flag.  All the
    patterns of the source are global; the split pattern is used by
    [split] only. *)
Record RegExp := { source : regex; ignoreCase : bool }.

Definition matchAt (rx : RegExp) (x : pos) : option pos :=
  compile (ignoreCase rx) (source rx) x Some.

(** RegExpBuiltinExec without the sticky flag: the first position from
    [x] on at which the pattern matches, with the end of the match. *)
Fixpoint execFrom (rx : RegExp) (p s : jsstring) : option (pos * pos) :=
  let x := {| prev := p; rest := s |} in
  match matchAt rx x with
  | Some y => Some (x, y)
  | None =>
      match s with
      | [] => None
      | u :: s' => execFrom rx (u :: p) s'
      end
  end.

Definition matched (x y : pos) : jsstring :=
  firstn (endIndex y - endIndex x) (rest x).

(** [s.match(rx) || []] for a global [rx]: lastIndex starts at 0, every
    match string is collected, and an empty match advances lastIndex by
    one. *)
Fixpoint matchLoop (fuel : nat) (rx : RegExp) (x : pos) : list jsstring :=
  match fuel with
  | O => []
  | S fuel' =>
      match execFrom rx (prev x) (rest x) with
      | None => []
      | Some (a, e) =>
          let m := matched a e in
          m :: match m with
               | _ :: _ => matchLoop fuel' rx e
               | [] =>
                   match rest e with
                   | [] => []
                   | u :: t => matchLoop fuel' rx {| prev := u :: prev e; rest := t |}
                   end
               end
      end
  end.

Definition matchAll (rx : RegExp) (s : jsstring) : list jsstring :=
  matchLoop (S (length s)) rx (start s).

(** [s.split(rx)] (no limit, no capture groups): the loop of
    RegExp.prototype[@@split], which tries the pattern at [q] only.
    [chunk] holds the code units from [p] to [q], nearest first. *)
Fixpoint splitLoop (fuel : nat) (rx : RegExp) (p : nat) (chunk : jsstring)
    (x : pos) : list jsstring :=
  match fuel with
  | O => []
  | S fuel' =>
      match rest x with
      | [] => [rev chunk]
      | u :: t =>
          let next := {| prev := u :: prev x; rest := t |} in
          match matchAt rx x with
          | None => splitLoop fuel' rx p (u :: chunk) next
          | Some e =>
              if Nat.eqb (endIndex e) p
              then splitLoop fuel' rx p (u :: chunk) next
              else rev chunk :: splitLoop fuel' rx (endIndex e) [] e
          end
      end
  end.

Definition split (rx : RegExp) (s : jsstring) : list jsstring :=
  match s with
  | [] => match matchAt rx (start s) with Some _ => [] | None => [s] end
  | _ => splitLoop (2 * length s + 2) rx 0 [] (start s)
  end.

(** Pattern syntax helpers. *)
Definition cls (l : list ClassAtom) : regex :=
  Class {| negated := false; atoms := l |}.
Definition ncls (l : list ClassAtom) : regex :=
  Class {| negated := true; atoms := l |}.
Definition chr (a : ascii) : regex := cls [One (ch a)].
Fixpoint lit (s : string) : regex :=
  match s with
  | EmptyString => Empty
  | String a EmptyString => chr a
  | String a s' => Seq (chr a) (lit s')
  end.
Fixpoint seq (l : list regex) : regex :=
  match l with
  | [] => Empty
  | [r] => r
  | r :: l' => Seq r (seq l')
  end.
Definition star (r : regex) : regex := Quant r 0 None true.
Definition plus (r : regex) : regex := Quant r 1 None true.
Definition lazyPlus (r : regex) : regex := Quant r 1 None false.
Definition opt (r : regex) : regex := Quant r 0 (Some 1) true.
Definition times (n m : nat) (r : regex) : regex := Quant r n (Some m) true.
Definition rng (a b : ascii) : ClassAtom := Range (ch a) (ch b).
Definition one (a : ascii) : ClassAtom := One (ch a).
Definition d : regex := cls [Digit].
Definition s : regex := cls [Space].
Definition notS : regex := cls [NotSpace].

End RegExp.

Import RegExp.

(* ================================================================== *)
(** ** Data model *)
(* ================================================================== *)

Inductive RefType :=
| Circular | MasterCircular | Regulation | ActSection | Schedule | Chapter
| Clause | StockExchangeCircular | DepositoryCircular | URL | Other.

Definition typeName (t : RefType) : jsstring :=
  str match t with
      | Circular => "Circular"
      | MasterCircular => "Master Circular"
      | Regulation => "Regulation"
      | ActSection => "Act Section"
      | Schedule => "Schedule"
      | Chapter => "Chapter"
      | Clause => "Clause"
      | StockExchangeCircular => "Stock Exchange Circular"
      | DepositoryCircular => "Depository Circular"
      | URL => "URL"
      | Other => "Other"
      end.

(** ReferenceItem.  [confidence] is a finite double in [0,1]; only
    comparison and [Math.max] are applied to it, so it is kept as the
    rational number the double denotes. *)
Record ReferenceItem := {
  r_type : RefType;
  r_title : option jsstring;
  r_identifier : option jsstring;
  r_url : option jsstring;
  r_anchorPageHint : option Z;
  r_pages : list Z;
  r_snippets : list jsstring;
  r_confidence : Q
}.

Inductive CandidateKind :=
| circularCode | masterCircular | regulationSet | regulation | actSection
| schedule | chapter | clause | url.

Definition kindName (k : CandidateKind) : jsstring :=
  str match k with
      | circularCode => "circularCode"
      | masterCircular => "masterCircular"
      | regulationSet => "regulationSet"
      | regulation => "regulation"
      | actSection => "actSection"
      | schedule => "schedule"
      | chapter => "chapter"
      | clause => "clause"
      | url => "url"
      end.

Definition kind_eqb (a b : CandidateKind) : bool :=
  string_eqb (kindName a) (kindName b).

Record Candidate := {
  c_page : Z;
  c_sentence : jsstring;
  c_match : jsstring;
  c_kind : CandidateKind;
  c_url : option jsstring
}.

Record PageRecord := {
  p_page : Z;
  p_text : jsstring;
  p_urls : list jsstring
}.

(* ================================================================== *)
(** ** Regex patterns *)
(* ================================================================== *)

Arguments rng (a b)%_char.
Arguments one a%_char.
Arguments chr a%_char.
Arguments lit s%_string.

Definition rx (ic : bool) (l : list regex) : RegExp :=
  {| source := seq l; ignoreCase := ic |}.

Definition PATTERNS (k : CandidateKind) : RegExp :=
  match k with
  | circularCode =>
      (* /SEBI\/HO\/[A-Z0-9/-]+\/P?\/CIR\/\d{4}\/\d+/g *)
      rx false [lit "SEBI/HO/";
                plus (cls [rng "A" "Z"; rng "0" "9"; one "/"; one "-"]);
                chr "/"; opt (chr "P"); lit "/CIR/"; times 4 4 d; chr "/";
                plus d]
  | masterCircular =>
      (* /\bMaster Circular (?:for|on)\s+[^.,;\n]+?
           (?:dated\s+[A-Z][a-z]+\s+\d{1,2},\s*\d{4})?/gi *)
      rx true [WordBoundary; lit "Master Circular ";
               Alt (lit "for") (lit "on"); plus s;
               lazyPlus (ncls [one "."; one ","; one ";"; One 10]);
               opt (seq [lit "dated"; plus s; cls [rng "A" "Z"];
                         plus (cls [rng "a" "z"]); plus s; times 1 2 d;
                         chr ","; star s; times 4 4 d])]
  | regulationSet =>
      (* /SEBI\s*\([^)]+\)\s*Regulations,\s*\d{4}/gi *)
      rx true [lit "SEBI"; star s; chr "("; plus (ncls [one ")"]); chr ")";
               star s; lit "Regulations,"; star s; times 4 4 d]
  | regulation =>
      (* /\bRegulation(?:s)?\s+\d+(?:\([0-9A-Za-z]+\))*/g *)
      rx false [WordBoundary; lit "Regulation"; opt (chr "s"); plus s; plus d;
                star (seq [chr "(";
                           plus (cls [rng "0" "9"; rng "A" "Z"; rng "a" "z"]);
                           chr ")"])]
  | actSection =>
      (* /\bSection\s+\d+(?:\(\d+\))*\s+of the\s+[^.,\n]+?Act,\s*\d{4}/gi *)
      rx true [WordBoundary; lit "Section"; plus s; plus d;
               star (seq [chr "("; plus d; chr ")"]); plus s; lit "of the";
               plus s; lazyPlus (ncls [one "."; one ","; One 10]);
               lit "Act,"; star s; times 4 4 d]
  | schedule =>
      (* /\bSchedule\s+[IVXLC]+\b/g *)
      rx false [WordBoundary; lit "Schedule"; plus s;
                plus (cls [one "I"; one "V"; one "X"; one "L"; one "C"]);
                WordBoundary]
  | chapter =>
      (* /\bChapter\s+\d+\b/g *)
      rx false [WordBoundary; lit "Chapter"; plus s; plus d; WordBoundary]
  | clause =>
      (* /\bClause\s+\d+(?:\.\d+)*\b/g *)
      rx false [WordBoundary; lit "Clause"; plus s; plus d;
                star (seq [chr "."; plus d]); WordBoundary]
  | url =>
      (* /\bhttps?:\/\/\S+/gi *)
      rx true [WordBoundary; lit "http"; opt (chr "s"); lit "://"; plus notS]
  end.

(** [Object.entries(PATTERNS)]: the kinds in the order of the literal. *)
Definition kinds : list CandidateKind :=
  [circularCode; masterCircular; regulationSet; regulation; actSection;
   schedule; chapter; clause; url].

(** The terminators, and the characters that may open the next sentence:
    [A-Z], the opening parenthesis, U+201C, the double and the single
    quote. *)
Definition terminators : CharClass :=
  {| negated := false; atoms := [one "."; one "?"; one "!"; one ";"] |}.

Definition openers : CharClass :=
  {| negated := false;
     atoms := [rng "A" "Z"; one "("; One 8220; One 34; one "'"] |}.

(** The pattern of [splitSentences]: a lookbehind for a terminator,
    [\s+], and a lookahead for an opener. *)
Definition SENTENCE_BREAK : RegExp :=
  rx false [LookBehindClass terminators; plus s; LookAhead (Class openers)].

(* ================================================================== *)
(** ** Helpers *)
(* ================================================================== *)

Definition splitSentences (text : jsstring) : list jsstring :=
  let chunks := filter truthy (map trim (split SENTENCE_BREAK text)) in
  match chunks with
  | [] => [trim text]
  | _ => chunks
  end.

(* ================================================================== *)
(** ** Candidate finder *)
(* ================================================================== *)

(** Number::toString of an integer, all digits written out.  The host
    prints an integer this way as long as its magnitude is below 10^21
    (from there on it uses exponent notation); the page numbers of a
    document are far below that. *)
Definition numberToString (n : Z) : jsstring :=
  str (NilZero.string_of_int (Z.to_int n)).

Definition bar : jsstring := str "|".

Definition candidateKey (c : Candidate) : jsstring :=
  numberToString (c_page c) ++ bar ++ kindName (c_kind c) ++ bar
  ++ c_match c ++ bar ++ c_sentence c.

(** The candidates pushed for one sentence of page [p]. *)
Definition sentenceCandidates (p : Z) (sn : jsstring) : list Candidate :=
  let urlInSentence := hd_error (matchAll (PATTERNS url) sn) in
  flat_map
    (fun kind =>
       map (fun m => {| c_page := p; c_sentence := trim sn; c_match := trim m;
                        c_kind := kind; c_url := urlInSentence |})
           (matchAll (PATTERNS kind) sn))
    kinds.

(** Page-level link annotations as URL candidates. *)
Definition linkCandidates (p : PageRecord) : list Candidate :=
  map (fun u => {| c_page := p_page p; c_sentence := []; c_match := u;
                   c_kind := url; c_url := Some u |})
      (p_urls p).

Definition pageCandidates (p : PageRecord) : list Candidate :=
  flat_map (sentenceCandidates (p_page p)) (splitSentences (p_text p))
  ++ linkCandidates p.

Definition uniqStep (uniq : Map Candidate) (c : Candidate) : Map Candidate :=
  let k := candidateKey c in
  if Map_has k uniq then uniq else Map_set k c uniq.

Definition findCandidates (pages : list PageRecord) : list Candidate :=
  let results := flat_map pageCandidates pages in
  Map_values (fold_left uniqStep results []).

(* ================================================================== *)
(** ** Rules-only mapping, dedupe and main *)
(* ================================================================== *)

(** The double written [0.4]. *)
Definition conf04 : Q := 3602879701896397 # 9007199254740992.

Definition Math_max (a b : Q) : Q := if Qle_bool a b then b else a.

Definition orEmpty (o : option jsstring) : jsstring :=
  match o with Some v => v | None => [] end.

Definition truthyString (o : option jsstring) : bool :=
  match o with Some v => truthy v | None => false end.

Definition truthyNumber (o : option Z) : bool :=
  match o with Some n => negb (Z.eqb n 0) | None => false end.

(** Rules-only: cast a candidate to a minimal item with low confidence.
    The closing [Other] branch of the source is not reachable: a kind is
    one of the nine. *)
Definition toItem (c : Candidate) : ReferenceItem :=
  {| r_type :=
       match c_kind c with
       | masterCircular => MasterCircular
       | circularCode => Circular
       | regulation | regulationSet => Regulation
       | actSection => ActSection
       | schedule => Schedule
       | chapter => Chapter
       | clause => Clause
       | url => URL
       end;
     r_title := None;
     r_identifier :=
       match c_kind c with
       | circularCode | regulation => Some (c_match c)
       | _ => None
       end;
     r_url := match c_kind c with url => Some (c_match c) | _ => c_url c end;
     r_anchorPageHint := None;
     r_pages := [c_page c];
     r_snippets := [if truthy (c_sentence c) then c_sentence c else c_match c];
     r_confidence := conf04 |}.

Section Pipeline.

(** [String.prototype.toLowerCase] of the host (the Unicode case
    mapping). *)
Variable toLowerCase : jsstring -> jsstring.

(** The language-model normalizer with the run's batch size; [None]
    when it throws. *)
Variable normalizeWithLLM : list Candidate -> option (list ReferenceItem).

Definition key (r : ReferenceItem) : jsstring :=
  typeName (r_type r) ++ bar ++ toLowerCase (orEmpty (r_identifier r))
  ++ bar ++ toLowerCase (orEmpty (r_title r)).

(** First record under a key: pages sorted on insert. *)
Definition inserted (r : ReferenceItem) : ReferenceItem :=
  {| r_type := r_type r; r_title := r_title r;
     r_identifier := r_identifier r; r_url := r_url r;
     r_anchorPageHint := r_anchorPageHint r;
     r_pages := sortAsc (arrayFromSet Z.eqb (r_pages r));
     r_snippets := arrayFromSet string_eqb (r_snippets r);
     r_confidence := r_confidence r |}.

(** A later record [r] under the key of the stored record [found]. *)
Definition merge (found r : ReferenceItem) : ReferenceItem :=
  {| r_type := r_type found; r_title := r_title found;
     r_identifier := r_identifier found;
     r_url :=
       if (negb (truthyString (r_url found)) && truthyString (r_url r))%bool
       then r_url r else r_url found;
     r_anchorPageHint :=
       if (negb (truthyNumber (r_anchorPageHint found))
           && truthyNumber (r_anchorPageHint r))%bool
       then r_anchorPageHint r else r_anchorPageHint found;
     r_pages := sortAsc (arrayFromSet Z.eqb (r_pages found ++ r_pages r));
     r_snippets := arrayFromSet string_eqb (r_snippets found ++ r_snippets r);
     r_confidence := Math_max (r_confidence found) (r_confidence r) |}.

Definition dedupeStep (map : Map ReferenceItem) (r : ReferenceItem)
  : Map ReferenceItem :=
  let k := key r in
  match Map_get k map with
  | None => Map_set k (inserted r) map
  | Some found => Map_set k (merge found r) map
  end.

Definition dedupe (items : list ReferenceItem) : list ReferenceItem :=
  Map_values (fold_left dedupeStep items []).

(** What a run leaves behind: the exit code and the reference list
    written to the JSON output, if one was written. *)
Record Outcome := { exitCode : Z; outJson : option (list ReferenceItem) }.

Definition fatal : Outcome := {| exitCode := 1; outJson := None |}.

(** Steps 2 to 5 of main, from the extracted pages on; [None] for the
    pages when extraction throws. *)
Definition main (noLlm : bool) (extracted : option (list PageRecord))
  : Outcome :=
  match extracted with
  | None => fatal
  | Some pages =>
      let candidates := findCandidates pages in
      match candidates with
      | [] => {| exitCode := 0; outJson := Some [] |}
      | _ =>
          let normalized :=
            if noLlm then Some (map toItem candidates)
            else normalizeWithLLM candidates in
          match normalized with
          | None => fatal
          | Some items => {| exitCode := 0; outJson := Some (dedupe items) |}
          end
      end
  end.

End Pipeline.

(** The rules-only run on concrete ASCII text. *)
Definition rulesOnly (pages : list PageRecord) : list ReferenceItem :=
  dedupe asciiToLowerCase (map toItem (findCandidates pages)).

Definition onePage (text : string) : list PageRecord :=
  [{| p_page := 1; p_text := str text; p_urls := [] |}].

(* ================================================================== *)
(** ** What a pattern can match *)
(* ================================================================== *)

(** [iter n R x y]: [y] is reached from [x] by [n] steps of [R]. *)
Fixpoint iter (n : nat) (R : pos -> pos -> Prop) (x y : pos) : Prop :=
  match n with
  | O => y = x
  | S n' => exists m, R x m /\ iter n' R m y
  end.

(** [den ic r x y]: the pattern [r] can match from position [x] to
    position [y].  It is the declarative reading of the pattern, against
    which the matcher is sound. *)
Fixpoint den (ic : bool) (r : regex) (x y : pos) : Prop :=
  match r with
  | Empty => y = x
  | Class cc =>
      exists u, rest x = u :: rest y /\ prev y = u :: prev x
                /\ classMatches ic cc u = true
  | Seq r1 r2 => exists m, den ic r1 x m /\ den ic r2 m y
  | Alt r1 r2 => den ic r1 x y \/ den ic r2 x y
  | Quant r1 min _ _ => exists n, min <= n /\ iter n (den ic r1) x y
  | WordBoundary =>
      y = x /\
      xorb (isWordAt (hd_error (prev x))) (isWordAt (hd_error (rest x))) = true
  | LookAhead r1 => y = x /\ exists e, den ic r1 x e
  | LookBehindClass cc =>
      y = x /\ exists u t, prev x = u :: t /\ classMatches ic cc u = true
  end.

(** A quantifier {min,max} of a pattern literal has min <= max. *)
Definition boundsOk (min : nat) (max : option nat) : Prop :=
  match max with Some k => min <= k | None => True end.

Fixpoint wellFormed (r : regex) : Prop :=
  match r with
  | Seq r1 r2 | Alt r1 r2 => wellFormed r1 /\ wellFormed r2
  | Quant r1 min max _ => boundsOk min max /\ wellFormed r1
  | LookAhead r1 => wellFormed r1
  | _ => True
  end.

(** [guarded P ic r]: every character the pattern [r] can read
    satisfies [P]. *)
Fixpoint guarded (P : N -> Prop) (ic : bool) (r : regex) : Prop :=
  match r with
  | Class cc => forall u, classMatches ic cc u = true -> P u
  | Seq r1 r2 | Alt r1 r2 => guarded P ic r1 /\ guarded P ic r2
  | Quant r1 _ _ _ => guarded P ic r1
  | _ => True
  end.

(** [consumes x w y]: moving from [x] to [y] reads exactly [w]. *)
Definition consumes (x : pos) (w : jsstring) (y : pos) : Prop :=
  rest x = w ++ rest y /\ prev y = rev w ++ prev x.

(** [forward x y]: [y] lies at or after [x] in the same input. *)
Definition forward (x y : pos) : Prop := exists w, consumes x w y.

(** A matcher that calls its continuation at positions forward of its
    own only. *)
Definition forwardExt (m : matcher) : Prop :=
  forall x c c', (forall y, forward x y -> c y = c' y) -> m x c = m x c'.

(* ================================================================== *)
(** ** Split points, as the specification words them *)
(* ================================================================== *)

(** Period, question mark, exclamation mark or semicolon. *)
Definition isTerminator (u : N) : bool :=
  (N.eqb u 46 || N.eqb u 63 || N.eqb u 33 || N.eqb u 59)%bool.

(** Uppercase letter, opening parenthesis, or quotation mark (U+201C,
    the double quote, the single quote). *)
Definition isOpener (u : N) : bool :=
  (between 65 90 u || N.eqb u 40 || N.eqb u 8220 || N.eqb u 34
   || N.eqb u 39)%bool.

(** After a first whitespace: more whitespace, then an opener. *)
Fixpoint opensAfterSpaces (t : jsstring) : bool :=
  match t with
  | [] => false
  | v :: t' => if isWhiteSpace v then opensAfterSpaces t' else isOpener v
  end.

(** A sentence terminator followed by whitespace followed by an opener. *)
Definition splitPointAt (u : N) (t : jsstring) : bool :=
  (isTerminator u &&
   match t with
   | w :: t' => isWhiteSpace w && opensAfterSpaces t'
   | [] => false
   end)%bool.

Fixpoint hasSplitPoint (text : jsstring) : bool :=
  match text with
  | [] => false
  | u :: t => (splitPointAt u t || hasSplitPoint t)%bool
  end.

(** The identity of a candidate: (page, kind, match, sentence). *)
Definition quadruple (c : Candidate) : Z * CandidateKind * jsstring * jsstring :=
  (c_page c, c_kind c, c_match c, c_sentence c).

(** Invariant of the [uniq] map of [findCandidates]: keys are distinct
    and every entry sits under the key of its candidate. *)
Definition keyed (m : Map Candidate) : Prop :=
  NoDup (map fst m) /\ Forall (fun kv => fst kv = candidateKey (snd kv)) m.

(** The part of a merge key before its first bar. *)
Fixpoint untilBar (k : jsstring) : jsstring :=
  match k with
  | [] => []
  | u :: t => if N.eqb u 124 then [] else u :: untilBar t
  end.

(** Sample records. *)
Definition sample (t : RefType) (u : option jsstring) (a : option Z)
    (pages : list Z) (snippet : string) (conf : Q) : ReferenceItem :=
  {| r_type := t; r_title := None;
     r_identifier := Some (str "SEBI/HO/X/P/CIR/2023/1");
     r_url := u; r_anchorPageHint := a; r_pages := pages;
     r_snippets := [str snippet]; r_confidence := conf |}.

Definition recCircular : ReferenceItem :=
  sample Circular None None [2%Z] "first" conf04.
Definition recOther : ReferenceItem :=
  sample Other None None [1%Z] "second" (1 # 2).
Definition recCircularAgain : ReferenceItem :=
  sample Circular (Some (str "http://a/#page=7")) (Some 7%Z) [3%Z; 1%Z]
         "again" (1 # 2).
Definition recEmptyUrl : ReferenceItem :=
  sample Circular (Some []) (Some 0%Z) [2%Z] "stored" conf04.

(** The sentences of the end-to-end scenarios. *)
Definition referSentence : string :=
  "Refer to SEBI/HO/MRD/DSA/CIR/2023/45 dated Jan 1, 2023 and Regulation 9(1).".

Definition referSentenceWithP : string :=
  "Refer to SEBI/HO/MRD/DSA/P/CIR/2023/45 dated Jan 1, 2023 and Regulation 9(1).".

Definition seeSentence : string :=
  "See Regulation 12(3) and 12(3A) of the Regulations.".

(** A sentence of 221 code units that cites a regulation. *)
Definition longSentence : jsstring :=
  str "Regulation 9 applies to " ++ repeat (ch "x") 196 ++ str ".".

Definition longPage : list PageRecord :=
  [{| p_page := 1; p_text := longSentence; p_urls := [] |}].

(** The match strings of the candidates of one kind. *)
Definition matchesOfKind (k : CandidateKind) (cs : list Candidate)
  : list jsstring :=
  map c_match (filter (fun c => kind_eqb (c_kind c) k) cs).

(** The snippet the rules-only mapping gives a candidate. *)
Definition snippetOf (c : Candidate) : jsstring :=
  if truthy (c_sentence c) then c_sentence c else c_match c.

(** A regulation candidate with a short sentence. *)
Definition shortCandidate : Candidate :=
  {| c_page := 1; c_sentence := str "See Regulation 9.";
     c_match := str "Regulation 9"; c_kind := regulation; c_url := None |}.

(** A sentence with two URL tokens. *)
Definition twoUrlSentence : jsstring :=
  str "See http://a.in/x and HTTPS://b.in/y#page=4 for details.".

(** The records of [items] filed under the key [k], in order. *)
Definition group (lc : jsstring -> jsstring) (k : jsstring)
    (items : list ReferenceItem) : list ReferenceItem :=
  filter (fun r => string_eqb (key lc r) k) items.

(** Three records for the dedupe examples: two under one key, one under
    another. *)
Definition sampleItems : list ReferenceItem :=
  [recCircular; recOther; recCircularAgain].

(** [infix a b]: [a] occurs in [b] as a contiguous substring. *)
Definition infix (a b : jsstring) : Prop := exists pre post, b = pre ++ a ++ post.

(** All code units of [w] are whitespace. *)
Definition blank (w : jsstring) : Prop :=
  Forall (fun u => isWhiteSpace u = true) w.

(** The code units of [w] that are not whitespace, in order. *)
Definition inkOf (w : jsstring) : jsstring :=
  filter (fun u => negb (isWhiteSpace u)) w.

(** The candidates pushed before deduplication. *)
Definition rawCandidates (pages : list PageRecord) : list Candidate :=
  flat_map pageCandidates pages.

(** A page that cites two different URLs in one sentence. *)
Definition twoUrlPage : list PageRecord :=
  [{| p_page := 3; p_text := twoUrlSentence; p_urls := [] |}].

(* ================================================================== *)
(** ** Page extraction and layout repair *)
(* ================================================================== *)

(** [s.replace(rx, repl)] for a global [rx] and a replacement string
    without dollar patterns.  The subject is scanned from lastIndex for
    the next match, as RegExpBuiltinExec does; what is skipped is
    copied, the match is replaced, and the scan resumes at its end.
    After an empty match lastIndex moves on by one and the code unit
    stepped over is copied. *)
Fixpoint replaceLoop (fuel : nat) (rx : RegExp) (repl : jsstring) (x : pos)
  : jsstring :=
  match fuel with
  | O => []
  | S fuel' =>
      let copy :=
        match rest x with
        | [] => []
        | u :: t =>
            u :: replaceLoop fuel' rx repl {| prev := u :: prev x; rest := t |}
        end in
      match matchAt rx x with
      | Some e =>
          if Nat.eqb (endIndex e) (endIndex x)
          then repl ++ copy
          else repl ++ replaceLoop fuel' rx repl e
      | None => copy
      end
  end.

Definition replace (rx : RegExp) (repl : jsstring) (sn : jsstring) : jsstring :=
  replaceLoop (S (length sn)) rx repl (start sn).

(** /-\s*\n\s*/g *)
Definition HYPHEN_BREAK : RegExp :=
  rx false [chr "-"; star s; cls [One 10]; star s].

(** /\r/g *)
Definition CARRIAGE_RETURN : RegExp := rx false [cls [One 13]].

(** /\n+/g *)
Definition NEWLINES : RegExp := rx false [plus (cls [One 10])].

(** /\s{2,}/g *)
Definition SPACES : RegExp := rx false [Quant s 2 None true].

Definition space : jsstring := str " ".

Definition dehyphenate (input : jsstring) : jsstring :=
  (* Join hyphenated line breaks *)
  let s1 := replace HYPHEN_BREAK [] input in
  (* Normalize newlines to spaces, collapsing multiple spaces *)
  replace SPACES space (replace NEWLINES space (replace CARRIAGE_RETURN [] s1)).

(** [xs.join(sep)] on strings. *)
Fixpoint join (sep : jsstring) (xs : list jsstring) : jsstring :=
  match xs with
  | [] => []
  | [a] => a
  | a :: t => a ++ sep ++ join sep t
  end.

(** What pdf.js hands over for a page: the text items, each with its
    [str] when it has one, and the annotations with subtype and url. *)
Record Annotation := { a_subtype : jsstring; a_url : option jsstring }.

Record RawPage := {
  textItems : list (option jsstring);
  annotations : list Annotation
}.

Definition pageUrls (annots : list Annotation) : list jsstring :=
  map (fun a => orEmpty (a_url a))
      (filter (fun a => (string_eqb (a_subtype a) (str "Link")
                         && truthyString (a_url a))%bool)
              annots).

(** The loop of [extractPages] from page number [i] on. *)
Fixpoint extractFrom (i : Z) (doc : list RawPage) : list PageRecord :=
  match doc with
  | [] => []
  | page :: doc' =>
      {| p_page := i;
         p_text := dehyphenate (join space (map orEmpty (textItems page)));
         p_urls := pageUrls (annotations page) |}
      :: extractFrom (i + 1) doc'
  end.

Definition extractPages (doc : list RawPage) : list PageRecord :=
  extractFrom 1 doc.

(** No two adjacent code units are both whitespace. *)
Fixpoint singleSpaced (w : jsstring) : bool :=
  match w with
  | a :: (b :: _) as t =>
      (negb (isWhiteSpace a && isWhiteSpace b) && singleSpaced t)%bool
  | _ => true
  end.

(** Neither a line feed nor a carriage return. *)
Definition notLineBreak (u : N) : bool :=
  (negb (N.eqb u 10) && negb (N.eqb u 13))%bool.

(** Whitespace or hyphen: all that [dehyphenate] ever removes. *)
Definition spaceOrHyphen (u : N) : bool :=
  (isWhiteSpace u || N.eqb u 45)%bool.

(** The code units that are neither whitespace nor hyphens, in order. *)
Definition lettersOf (w : jsstring) : jsstring :=
  filter (fun u => negb (spaceOrHyphen u)) w.

(** A two-page document as pdf.js would hand it over. *)
Definition sampleDoc : list RawPage :=
  [{| textItems := [Some (str "Refer to Regula-"); Some [10%N];
                    Some (str "tion 9(1)."); None];
      annotations := [{| a_subtype := str "Link";
                         a_url := Some (str "https://sebi.gov.in/a.pdf") |};
                      {| a_subtype := str "Text"; a_url := None |}] |};
   {| textItems := [Some (str "See Chapter 4")]; annotations := [] |}].

(* ================================================================== *)
(** ** Command line and batched normalization *)
(* ================================================================== *)

(** [argv.indexOf(flag)]: the first index at which [flag] stands, or -1. *)
Fixpoint indexOf (argv : list jsstring) (flag : jsstring) : Z :=
  match argv with
  | [] => -1
  | a :: t =>
      if string_eqb a flag then 0
      else let i := indexOf t flag in if (i <? 0)%Z then -1 else (i + 1)%Z
  end.

(** [argv[i]]: undefined outside the array. *)
Definition elementAt (argv : list jsstring) (i : Z) : option jsstring :=
  if (i <? 0)%Z then None else nth_error argv (Z.to_nat i).

Definition getFlagValue (argv : list jsstring) (flag : jsstring)
  : option jsstring :=
  let i := indexOf argv flag in
  if (0 <=? i)%Z then elementAt argv (i + 1) else None.

(** [getFlagValue(args, "--out") || "refs.hybrid.json"] *)
Definition outJsonPath (args : list jsstring) : jsstring :=
  match getFlagValue args (str "--out") with
  | Some v => if truthy v then v else str "refs.hybrid.json"
  | None => str "refs.hybrid.json"
  end.

(** A number that is an integer or NaN ([None]). *)
Definition number := option Z.

Definition plus_ (a b : number) : number :=
  match a, b with
  | Some x, Some y => Some (x + y)%Z
  | _, _ => None
  end.

(** ToIntegerOrInfinity: NaN becomes 0. *)
Definition toInteger (a : number) : Z :=
  match a with Some x => x | None => 0%Z end.

(** The index clamping of [Array.prototype.slice]. *)
Definition clampIndex (len i : Z) : Z :=
  if (i <? 0)%Z then Z.max (len + i) 0 else Z.min i len.

(** [xs.slice(start, end)] *)
Definition slice (A : Type) (xs : list A) (first final : Z) : list A :=
  let len := Z.of_nat (length xs) in
  let k := clampIndex len first in
  firstn (Z.to_nat (clampIndex len final - k)) (skipn (Z.to_nat k) xs).

(** How the batch loop stands: it returned, it threw, or it is still
    running when the fuel is used up. *)
Inductive LoopResult :=
| Returned (out : list ReferenceItem)
| Threw
| Running.

Section Normalize.

(** The model behind the API: request number and batch in, the parsed
    and validated references out, [None] when the call, JSON.parse or
    the schema validation throws. *)
Variable respond : nat -> list Candidate -> option (list ReferenceItem).

(** The loop [for (let i = 0; i < allCandidates.length; i += batch)],
    with the batches sent so far and the references collected so far. *)
Fixpoint batchLoop (fuel : nat) (allCandidates : list Candidate)
    (batch i : number) (sent : list (list Candidate))
    (out : list ReferenceItem) : list (list Candidate) * LoopResult :=
  match fuel with
  | O => (sent, Running)
  | S fuel' =>
      match i with
      | Some i0 =>
          if (i0 <? Z.of_nat (length allCandidates))%Z
          then
            let sl := slice allCandidates i0 (toInteger (plus_ i batch)) in
            match respond (length sent) sl with
            | None => (sent ++ [sl], Threw)
            | Some refs =>
                batchLoop fuel' allCandidates batch (plus_ i batch)
                          (sent ++ [sl]) (out ++ refs)
            end
          else (sent, Returned out)
      | None => (sent, Returned out)
      end
  end.

(** [normalizeWithLLM]: the batches sent to the model, and the result.
    [apiKey] tells whether OPENAI_API_KEY is set. *)
Definition normalizeWithLLM (apiKey : bool) (fuel : nat)
    (allCandidates : list Candidate) (batch : number)
  : list (list Candidate) * LoopResult :=
  if negb apiKey then ([], Threw)
  else batchLoop fuel allCandidates batch (Some 0%Z) [] [].

(** The references answered to the batches [sent], the first of them
    being request number [k]. *)
Fixpoint answersFrom (k : nat) (sent : list (list Candidate))
  : list ReferenceItem :=
  match sent with
  | [] => []
  | sl :: t =>
      match respond k sl with Some refs => refs | None => [] end
      ++ answersFrom (S k) t
  end.

End Normalize.

(** Five candidates and a model that answers every candidate by its
    rules-only record. *)
Definition fiveCandidates : list Candidate :=
  map (fun p => {| c_page := p; c_sentence := str "See Chapter 4";
                   c_match := str "Chapter 4"; c_kind := chapter;
                   c_url := None |})
      [1%Z; 2%Z; 3%Z; 4%Z; 5%Z].

Definition echo (k : nat) (sl : list Candidate) : option (list ReferenceItem) :=
  Some (map toItem sl).

(* ================================================================== *)
(** ** Tabular output *)
(* ================================================================== *)

(** The pattern of [esc] that tells whether a value needs quoting: a
    double quote, a comma or a line feed. *)
Definition NEEDS_QUOTING : RegExp := rx false [cls [One 34; One 44; One 10]].

(** The pattern of [esc] for the double quotes to double. *)
Definition DOUBLE_QUOTE : RegExp := rx false [cls [One 34]].

(** [rx.test(s)] for a pattern without the global flag. *)
Definition test (rx : RegExp) (sn : jsstring) : bool :=
  match execFrom rx [] sn with Some _ => true | None => false end.

Definition quote : jsstring := [34%N].

(** [esc], on the string that [String(s)] gives (the empty string for
    null and undefined). *)
Definition esc (v : jsstring) : jsstring :=
  if test NEEDS_QUOTING v
  then quote ++ replace DOUBLE_QUOTE (quote ++ quote) v ++ quote
  else v.

(** [Math.min(...pages)] as [esc] prints it: Infinity for no page. *)
Definition firstPage (pages : list Z) : jsstring :=
  match pages with
  | [] => str "Infinity"
  | p :: t => numberToString (fold_left Z.min t p)
  end.

Definition header : list jsstring :=
  map str ["type"; "title"; "identifier"; "url"; "anchorPageHint"; "pages";
           "first_page"; "snippets"; "confidence"]%string.

Section Csv.

(** Number::toString of the host on a confidence value. *)
Variable showNumber : Q -> jsstring.

(** The nine values of a row, before escaping. *)
Definition rowValues (r : ReferenceItem) : list jsstring :=
  [typeName (r_type r);
   orEmpty (r_title r);
   orEmpty (r_identifier r);
   orEmpty (r_url r);
   match r_anchorPageHint r with Some n => numberToString n | None => [] end;
   join (str "|") (map numberToString (r_pages r));
   firstPage (r_pages r);
   join (str " | ") (r_snippets r);
   showNumber (r_confidence r)].

Definition toCsv (rows : list ReferenceItem) : jsstring :=
  let lines :=
    join (str ",") header
    :: map (fun r => join (str ",") (map esc (rowValues r))) rows in
  join [10%N] lines.

End Csv.

(** The value with every double quote doubled. *)
Definition doubled (v : jsstring) : jsstring :=
  flat_map (fun u => if N.eqb u 34 then [34%N; 34%N] else [u]) v.

(** A double quote, a comma or a line feed. *)
Definition needsQuoting (u : N) : bool :=
  (N.eqb u 34 || N.eqb u 44 || N.eqb u 10)%bool.

(** A reader for the text that [toCsv] writes, in which records end at
    a line feed alone: a field that opens with a double quote runs to
    the closing one, a doubled quote inside standing for one; any other
    field runs to the next comma or line feed.  A carriage return is
    ordinary content of a field: [esc] does not quote it, and a reader
    that ends records at carriage returns reads such a value
    differently. *)
Fixpoint readQuoted (sn : jsstring) : option (jsstring * jsstring) :=
  match sn with
  | [] => None
  | u :: t =>
      if N.eqb u 34
      then match t with
           | v :: t' =>
               if N.eqb v 34
               then match readQuoted t' with
                    | Some (f, r) => Some (34%N :: f, r)
                    | None => None
                    end
               else Some ([], t)
           | [] => Some ([], [])
           end
      else match readQuoted t with
           | Some (f, r) => Some (u :: f, r)
           | None => None
           end
  end.

Fixpoint readBare (sn : jsstring) : jsstring * jsstring :=
  match sn with
  | [] => ([], [])
  | u :: t =>
      if (N.eqb u 44 || N.eqb u 10)%bool then ([], sn)
      else let (f, r) := readBare t in (u :: f, r)
  end.

Definition readField (sn : jsstring) : option (jsstring * jsstring) :=
  match sn with
  | u :: t => if N.eqb u 34 then readQuoted t else Some (readBare sn)
  | [] => Some ([], [])
  end.

(** The records of a text: [row] holds the fields of the current record
    and [rows] the finished records, both latest first. *)
Fixpoint readCsv (fuel : nat) (sn : jsstring) (row : list jsstring)
    (rows : list (list jsstring)) : option (list (list jsstring)) :=
  match fuel with
  | O => None
  | S fuel' =>
      match readField sn with
      | None => None
      | Some (f, r) =>
          match r with
          | [] => Some (rev (rev (f :: row) :: rows))
          | u :: r' =>
              if N.eqb u 44 then readCsv fuel' r' (f :: row) rows
              else if N.eqb u 10
                   then readCsv fuel' r' [] (rev (f :: row) :: rows)
                   else None
          end
      end
  end.

Definition parseCsv (sn : jsstring) : option (list (list jsstring)) :=
  readCsv (S (length sn)) sn [] [].

(** A confidence printer for the examples. *)
Definition showSample (q : Q) : jsstring := str "0.4".

(** A record whose snippet holds a comma, a quote and a line feed. *)
Definition awkwardRecord : ReferenceItem :=
  {| r_type := Regulation; r_title := None;
     r_identifier := Some (str "Regulation 9(1)"); r_url := None;
     r_anchorPageHint := Some 7%Z; r_pages := [3%Z; 1%Z];
     r_snippets := [str "He said, " ++ [34%N] ++ str "see" ++ [34%N; 10%N]
                    ++ str "Regulation 9(1)"; str "plain"];
     r_confidence := conf04 |}.

(** A one-page document whose only text item is a URL that ends in a
    bar, with one Link annotation whose URL holds two bars in a row. *)
Definition collisionDoc : list RawPage :=
  [{| textItems := [Some (str "http://x/a|")];
      annotations := [{| a_subtype := str "Link";
                         a_url := Some (str "http://x/a||http://x/a") |}] |}].

(** The page that [extractPages] makes of [collisionDoc]. *)
Definition collisionPage : list PageRecord :=
  [{| p_page := 1; p_text := str "http://x/a|";
      p_urls := [str "http://x/a||http://x/a"] |}].

(** The candidate of the sentence of [collisionPage]. *)
Definition collisionText : Candidate :=
  {| c_page := 1; c_sentence := str "http://x/a|";
     c_match := str "http://x/a|"; c_kind := url;
     c_url := Some (str "http://x/a|") |}.

(** The candidate of the link annotation of [collisionPage]. *)
Definition collisionLink : Candidate :=
  {| c_page := 1; c_sentence := [];
     c_match := str "http://x/a||http://x/a"; c_kind := url;
     c_url := Some (str "http://x/a||http://x/a") |}.

(** A model that answers every request but the second. *)
Definition failSecond (k : nat) (sl : list Candidate)
  : option (list ReferenceItem) :=
  if Nat.eqb k 1 then None else Some (map toItem sl).

(* ================================================================== *)
(** * Properties *)
(* ================================================================== *)

(** ** Strings, sets, sorting and maps *)

Lemma string_eqb_eq (a b : jsstring) : string_eqb a b = true <-> a = b.
Proof.
  revert b; induction a as [|x a IH]; intros [|y b]; simpl;
    try (split; congruence).
  rewrite andb_true_iff, N.eqb_eq, IH. split.
  - intros [-> ->]; reflexivity.
  - intros E; inversion E; auto.
Qed.

Lemma string_eqb_refl (a : jsstring) : string_eqb a a = true.
Proof. apply string_eqb_eq; reflexivity. Qed.

Lemma string_eqb_neq (a b : jsstring) : string_eqb a b = false <-> a <> b.
Proof.
  rewrite <- string_eqb_eq. destruct (string_eqb a b); split; congruence.
Qed.

Section ArrayFromSetFacts.
Variable A : Type.
Variable eqb : A -> A -> bool.
Hypothesis eqb_eq : forall x y, eqb x y = true <-> x = y.

Lemma mem_In (x : A) (l : list A) : mem eqb x l = true <-> In x l.
Proof.
  unfold mem. rewrite existsb_exists. split.
  - intros [y [Hy E]]. apply eqb_eq in E. subst; assumption.
  - intros H. exists x. split; [assumption | apply eqb_eq; reflexivity].
Qed.

Lemma setAdd_fold_In (xs acc : list A) (x : A) :
  In x (fold_left (setAdd eqb) xs acc) <-> In x acc \/ In x xs.
Proof.
  revert acc; induction xs as [|y xs IH]; intros acc; simpl.
  - tauto.
  - rewrite IH. unfold setAdd. destruct (mem eqb y acc) eqn:E.
    + apply mem_In in E. intuition (subst; auto).
    + rewrite in_app_iff; simpl. tauto.
Qed.

Lemma setAdd_fold_NoDup (xs acc : list A) :
  NoDup acc -> NoDup (fold_left (setAdd eqb) xs acc).
Proof.
  revert acc; induction xs as [|y xs IH]; intros acc Hacc; simpl.
  - assumption.
  - apply IH. unfold setAdd. destruct (mem eqb y acc) eqn:E.
    + assumption.
    + apply NoDup_app; [assumption | repeat constructor; intros [] | ].
      intros a Ha [<- | []].
      apply mem_In in Ha. congruence.
Qed.

Lemma arrayFromSet_In (xs : list A) (x : A) : In x (arrayFromSet eqb xs) <-> In x xs.
Proof. unfold arrayFromSet. rewrite setAdd_fold_In. simpl. tauto. Qed.

Lemma arrayFromSet_NoDup (xs : list A) : NoDup (arrayFromSet eqb xs).
Proof. apply setAdd_fold_NoDup. constructor. Qed.
End ArrayFromSetFacts.

Lemma insertAsc_In (x y : Z) (l : list Z) :
  In y (insertAsc x l) <-> y = x \/ In y l.
Proof.
  induction l as [|z l IH]; simpl.
  - intuition.
  - destruct (Z.leb x z); simpl; rewrite ?IH; intuition.
Qed.

Lemma sortAsc_In (l : list Z) (y : Z) : In y (sortAsc l) <-> In y l.
Proof.
  induction l as [|x l IH]; simpl; [tauto|].
  rewrite insertAsc_In, IH. intuition.
Qed.

Lemma insertAsc_sorted (x : Z) (l : list Z) :
  StronglySorted Z.lt l -> ~ In x l -> StronglySorted Z.lt (insertAsc x l).
Proof.
  induction l as [|z l IH]; intros Hs Hn; simpl.
  - repeat constructor.
  - inversion Hs as [|? ? Hl Hz]; subst.
    destruct (Z.leb_spec x z) as [Hle|Hgt].
    + assert (x < z)%Z by (simpl in Hn; lia).
      constructor; [assumption|]. constructor; [assumption|].
      eapply Forall_impl; [|exact Hz]. simpl; intros; lia.
    + constructor.
      * apply IH; [assumption | simpl in Hn; tauto].
      * apply Forall_forall. intros y Hy. apply insertAsc_In in Hy.
        destruct Hy as [-> | Hy]; [assumption|].
        rewrite Forall_forall in Hz; auto.
Qed.

Lemma sortAsc_sorted (l : list Z) :
  NoDup l -> StronglySorted Z.lt (sortAsc l).
Proof.
  induction 1 as [|x l Hx Hl IH]; simpl.
  - constructor.
  - apply insertAsc_sorted; [assumption|]. rewrite sortAsc_In. assumption.
Qed.

(** Two strictly ascending lists with the same members are equal. *)
Lemma ascending_unique (l1 l2 : list Z) :
  StronglySorted Z.lt l1 -> StronglySorted Z.lt l2 ->
  (forall x, In x l1 <-> In x l2) -> l1 = l2.
Proof.
  intros H1; revert l2.
  induction H1 as [|a l1 Hs1 IH Ha]; intros l2 H2 Hmem.
  - destruct l2 as [|b l2]; [reflexivity|].
    exfalso. apply (Hmem b). left; reflexivity.
  - destruct H2 as [|b l2 Hs2 Hb].
    + exfalso. apply (Hmem a). left; reflexivity.
    + rewrite Forall_forall in Ha, Hb.
      assert (a = b).
      { destruct (proj1 (Hmem a) (or_introl eq_refl)) as [E | Hin];
          [auto|].
        destruct (proj2 (Hmem b) (or_introl eq_refl)) as [E | Hin'];
          [auto|].
        specialize (Ha _ Hin'). specialize (Hb _ Hin). lia. }
      subst b. f_equal. apply IH; [assumption|].
      intros x; split; intros Hx.
      * destruct (proj1 (Hmem x) (or_intror Hx)) as [E | Hin]; [|assumption].
        subst x. specialize (Ha _ Hx). lia.
      * destruct (proj2 (Hmem x) (or_intror Hx)) as [E | Hin]; [|assumption].
        subst x. specialize (Hb _ Hx). lia.
Qed.

Lemma sortAsc_arrayFromSet_ext (l1 l2 : list Z) :
  (forall x, In x l1 <-> In x l2) ->
  sortAsc (arrayFromSet Z.eqb l1) = sortAsc (arrayFromSet Z.eqb l2).
Proof.
  intros H. apply ascending_unique.
  - apply sortAsc_sorted, arrayFromSet_NoDup, Z.eqb_eq.
  - apply sortAsc_sorted, arrayFromSet_NoDup, Z.eqb_eq.
  - intros x. rewrite !sortAsc_In, !(@arrayFromSet_In _ Z.eqb Z.eqb_eq). apply H.
Qed.

Section MapFacts.
Variable V : Type.
Implicit Types (m : Map V) (k : jsstring) (v : V).

Lemma Map_get_In k m v : Map_get k m = Some v -> In (k, v) m.
Proof.
  induction m as [|[k' v'] m IH]; simpl; [discriminate|].
  destruct (string_eqb k k') eqn:E.
  - apply string_eqb_eq in E. intros [= ->]. subst. auto.
  - auto.
Qed.

Lemma Map_get_None k m : Map_get k m = None <-> ~ In k (map fst m).
Proof.
  induction m as [|[k' v'] m IH]; simpl; [tauto|].
  destruct (string_eqb k k') eqn:E.
  - apply string_eqb_eq in E. subst. split; [discriminate | tauto].
  - apply string_eqb_neq in E. rewrite IH. intuition.
Qed.

Lemma Map_set_fresh k v m :
  Map_get k m = None -> Map_set k v m = m ++ [(k, v)].
Proof.
  induction m as [|[k' v'] m IH]; simpl; [reflexivity|].
  destruct (string_eqb k k'); [discriminate|].
  intros H. rewrite IH by assumption. reflexivity.
Qed.

Lemma Map_get_set k v m : Map_get k (Map_set k v m) = Some v.
Proof.
  induction m as [|[k' v'] m IH]; simpl.
  - rewrite string_eqb_refl. reflexivity.
  - destruct (string_eqb k k') eqn:E; simpl; rewrite E; auto.
Qed.

Lemma Map_set_keys k v m :
  Map_get k m <> None -> map fst (Map_set k v m) = map fst m.
Proof.
  induction m as [|[k' v'] m IH]; simpl; [congruence|].
  destruct (string_eqb k k') eqn:E; simpl; [reflexivity|].
  intros H. rewrite IH by assumption. reflexivity.
Qed.
End MapFacts.

(** ** Candidate detection *)

Lemma uniqStep_keyed (m : Map Candidate) (c : Candidate) :
  keyed m -> keyed (uniqStep m c).
Proof.
  intros [Hnd Hk]. unfold uniqStep, Map_has.
  destruct (Map_get (candidateKey c) m) eqn:E; [split; assumption|].
  rewrite Map_set_fresh by assumption. split.
  - rewrite map_app; simpl. apply NoDup_app; [assumption | | ].
    + repeat constructor. intros [].
    + intros k Hin [<- | []]. apply Map_get_None in E. contradiction.
  - apply Forall_app. split; [assumption | repeat constructor].
Qed.

Lemma uniq_fold_keyed (cs : list Candidate) (m : Map Candidate) :
  keyed m -> keyed (fold_left uniqStep cs m).
Proof.
  revert m; induction cs as [|c cs IH]; intros m H; simpl; [assumption|].
  apply IH, uniqStep_keyed, H.
Qed.

Lemma keyed_values (m : Map Candidate) :
  keyed m -> NoDup (map candidateKey (Map_values m)).
Proof.
  intros [Hnd Hk]. unfold Map_values. rewrite map_map.
  erewrite map_ext_in; [exact Hnd|].
  intros kv Hin. rewrite Forall_forall in Hk. symmetry. apply Hk, Hin.
Qed.

(** The output of [findCandidates] holds no two candidates with the
    same (page, kind, match, sentence), whatever the pages are. *)
Lemma findCandidates_no_duplicate_quadruple (pages : list PageRecord) :
  NoDup (map quadruple (findCandidates pages)).
Proof.
  pose (keyOf := fun q : Z * CandidateKind * jsstring * jsstring =>
    let '(p, k, m, sn) := q in
    numberToString p ++ bar ++ kindName k ++ bar ++ m ++ bar ++ sn).
  apply (NoDup_map_inv keyOf). rewrite map_map.
  unfold findCandidates.
  assert (H : keyed (fold_left uniqStep (flat_map pageCandidates pages) [])).
  { apply uniq_fold_keyed. split; constructor. }
  apply keyed_values in H. exact H.
Qed.

(** The same sentence twice on one page: its match is reported once. *)
Example repeated_sentence_counted_once :
  map quadruple
      (findCandidates (onePage "See Regulation 9. See Regulation 9."))
  = [(1%Z, regulation, str "Regulation 9", str "See Regulation 9.")].
Proof. vm_compute. reflexivity. Qed.

(** C9. Deduplication by (page, kind, match, sentence) fails where two
    different quadruples are spelled as the same key string.  For a
    one-page document whose text is a URL ending in a bar and whose link
    annotation holds two bars in a row, two candidates are pushed; they
    differ in match and sentence and have one key, so [findCandidates]
    reports the first only and the quadruple of the link is not in its
    output. *)
Theorem findCandidates_key_collision :
  extractPages collisionDoc = collisionPage
  /\ rawCandidates collisionPage = [collisionText; collisionLink]
  /\ quadruple collisionText <> quadruple collisionLink
  /\ candidateKey collisionText = candidateKey collisionLink
  /\ findCandidates collisionPage = [collisionText]
  /\ ~ In (quadruple collisionLink)
          (map quadruple (findCandidates collisionPage)).
Proof.
  assert (R : rawCandidates collisionPage = [collisionText; collisionLink])
    by (vm_compute; reflexivity).
  assert (F : findCandidates collisionPage = [collisionText])
    by (vm_compute; reflexivity).
  split; [vm_compute; reflexivity|].
  split; [exact R|]. split; [discriminate|].
  split; [vm_compute; reflexivity|]. split; [exact F|].
  rewrite F. intros [H | []]. discriminate H.
Qed.

(** ** The run *)

(** C8. When detection finds no candidate the run ends with exit code 0
    and writes the empty reference list, with or without the
    normalizer. *)
Theorem main_no_candidates_exits_cleanly
    (toLowerCase : jsstring -> jsstring)
    (normalizeWithLLM : list Candidate -> option (list ReferenceItem))
    (noLlm : bool) (pages : list PageRecord) :
  findCandidates pages = [] ->
  main toLowerCase normalizeWithLLM noLlm (Some pages)
  = {| exitCode := 0; outJson := Some [] |}.
Proof.
  intros H. unfold main. rewrite H. reflexivity.
Qed.

Lemma main_no_candidates_exits_cleanly_witness :
  findCandidates (onePage "Nothing is cited on this page.") = []
  /\ main asciiToLowerCase (fun _ => None) false
          (Some (onePage "Nothing is cited on this page."))
     = {| exitCode := 0; outJson := Some [] |}.
Proof.
  split.
  - vm_compute. reflexivity.
  - apply main_no_candidates_exits_cleanly. vm_compute. reflexivity.
Defined.

(** ** Dedupe and merge *)

Section DedupeFacts.
Variable lc : jsstring -> jsstring.

Lemma untilBar_key (r : ReferenceItem) : untilBar (key lc r) = typeName (r_type r).
Proof. unfold key. destruct (r_type r); reflexivity. Qed.

Lemma typeName_inj (t1 t2 : RefType) : typeName t1 = typeName t2 -> t1 = t2.
Proof. destruct t1, t2; intros H; try reflexivity; discriminate H. Qed.

(** Records with the same (type, lower-cased identifier or empty,
    lower-cased title or empty) have the same key. *)
Lemma key_of_triple (r1 r2 : ReferenceItem) :
  r_type r1 = r_type r2 ->
  lc (orEmpty (r_identifier r1)) = lc (orEmpty (r_identifier r2)) ->
  lc (orEmpty (r_title r1)) = lc (orEmpty (r_title r2)) ->
  key lc r1 = key lc r2.
Proof. unfold key. intros -> -> ->. reflexivity. Qed.

(** The type is part of the key. *)
Lemma key_type (r1 r2 : ReferenceItem) :
  key lc r1 = key lc r2 -> r_type r1 = r_type r2.
Proof.
  intros H. apply typeName_inj. rewrite <- !untilBar_key, H. reflexivity.
Qed.

Lemma dedupe_fold_shared (k : jsstring) (items : list ReferenceItem) :
  (forall r, In r items -> key lc r = k) ->
  forall m, fold_left (dedupeStep lc) items [(k, m)]
            = [(k, fold_left merge items m)].
Proof.
  induction items as [|r items IH]; intros Hk m; simpl; [reflexivity|].
  unfold dedupeStep at 2. rewrite (Hk r (or_introl eq_refl)). simpl.
  rewrite string_eqb_refl. apply IH. intros r' Hr'. apply Hk. right; exact Hr'.
Qed.

Lemma dedupe_shared (k : jsstring) (r : ReferenceItem)
    (items : list ReferenceItem) :
  (forall r', In r' (r :: items) -> key lc r' = k) ->
  dedupe lc (r :: items) = [fold_left merge items (inserted r)].
Proof.
  intros Hk. unfold dedupe. simpl. unfold dedupeStep at 2. simpl.
  rewrite (Hk r (or_introl eq_refl)).
  rewrite dedupe_fold_shared; [reflexivity|].
  intros r' Hr'. apply Hk. right; exact Hr'.
Qed.

Lemma dedupe_apart (r1 r2 : ReferenceItem) :
  key lc r1 <> key lc r2 -> dedupe lc [r1; r2] = [inserted r1; inserted r2].
Proof.
  intros H. unfold dedupe. simpl. unfold dedupeStep. simpl.
  destruct (string_eqb _ _) eqn:E.
  - apply string_eqb_eq in E. congruence.
  - reflexivity.
Qed.

End DedupeFacts.

(** C3, as the code has it.  The type is part of the merge key: a
    Circular record and an Other record are never merged, whatever their
    identifiers and titles, and both are kept in order of appearance.
    Two records that do share a key are merged into one record that
    keeps the first-seen type (which is then the type of both). *)
Theorem dedupe_first_seen_type
    (toLowerCase : jsstring -> jsstring) (r1 r2 : ReferenceItem) :
  (r_type r1 = Circular -> r_type r2 = Other ->
   dedupe toLowerCase [r1; r2] = [inserted r1; inserted r2]
   /\ map r_type (dedupe toLowerCase [r1; r2]) = [Circular; Other])
  /\ (key toLowerCase r1 = key toLowerCase r2 ->
      exists m, dedupe toLowerCase [r1; r2] = [m]
                /\ r_type m = r_type r1 /\ r_type r2 = r_type r1).
Proof.
  split.
  - intros H1 H2.
    assert (E : dedupe toLowerCase [r1; r2] = [inserted r1; inserted r2]).
    { apply dedupe_apart. intros K. apply key_type in K. congruence. }
    split; [exact E|]. rewrite E. simpl. rewrite H1, H2. reflexivity.
  - intros K. exists (merge (inserted r1) r2). split; [|split].
    + rewrite (dedupe_shared toLowerCase (k := key toLowerCase r1)); [reflexivity|].
      intros r' [<- | [<- | []]]; congruence.
    + reflexivity.
    + symmetry. apply (key_type _ _ _ K).
Qed.

(** C3 as stated fails: the Circular and the Other record share
    identifier and title, and they are not merged into a single
    record. *)
Lemma circular_and_other_not_merged :
  r_type recCircular = Circular /\ r_type recOther = Other
  /\ r_identifier recCircular = r_identifier recOther
  /\ r_title recCircular = r_title recOther
  /\ ~ (exists m, dedupe asciiToLowerCase [recCircular; recOther] = [m]
                  /\ r_type m = Circular).
Proof.
  repeat split; intros [m [H _]]. vm_compute in H. discriminate H.
Qed.

Lemma dedupe_first_seen_type_witness :
  (r_type recCircular = Circular /\ r_type recOther = Other
   /\ map r_type (dedupe asciiToLowerCase [recCircular; recOther])
      = [Circular; Other])
  /\ (key asciiToLowerCase recCircular = key asciiToLowerCase recCircularAgain
      /\ exists m, dedupe asciiToLowerCase [recCircular; recCircularAgain] = [m]
                   /\ r_type m = Circular).
Proof.
  split.
  - split; [reflexivity|]. split; [reflexivity|].
    apply (dedupe_first_seen_type asciiToLowerCase recCircular recOther);
      reflexivity.
  - split; [reflexivity|].
    destruct (proj2 (dedupe_first_seen_type asciiToLowerCase recCircular
                       recCircularAgain) eq_refl) as [m [H1 [H2 _]]].
    exists m. split; assumption.
Defined.

(** C5, as the code has it.  A merge step leaves type, title and
    identifier of the stored record alone.  Its url changes only when
    the stored url is null or the empty string and the incoming url is a
    non-empty string, which is then adopted; its anchorPageHint changes
    only when the stored one is null or 0 and the incoming one is a
    non-zero number.  A non-empty stored url and a non-zero stored
    anchorPageHint are never replaced. *)
Theorem merge_step_frame
    (toLowerCase : jsstring -> jsstring) (map : Map ReferenceItem)
    (r found : ReferenceItem) :
  Map_get (key toLowerCase r) map = Some found ->
  exists m,
    Map_get (key toLowerCase r) (dedupeStep toLowerCase map r) = Some m
    /\ r_type m = r_type found /\ r_title m = r_title found
    /\ r_identifier m = r_identifier found
    /\ (r_url m <> r_url found ->
        (r_url found = None \/ r_url found = Some [])
        /\ exists u, u <> [] /\ r_url r = Some u /\ r_url m = Some u)
    /\ (r_anchorPageHint m <> r_anchorPageHint found ->
        (r_anchorPageHint found = None \/ r_anchorPageHint found = Some 0%Z)
        /\ exists n, n <> 0%Z /\ r_anchorPageHint r = Some n
                     /\ r_anchorPageHint m = Some n)
    /\ (forall u, r_url found = Some u -> u <> [] -> r_url m = Some u)
    /\ (forall n, r_anchorPageHint found = Some n -> n <> 0%Z ->
                  r_anchorPageHint m = Some n).
Proof.
  intros G. exists (merge found r). unfold dedupeStep. rewrite G.
  split; [apply Map_get_set|].
  repeat (split; [reflexivity|]). simpl.
  split; [|split; [|split]].
  - destruct (truthyString (r_url found)) eqn:Ef,
             (truthyString (r_url r)) eqn:Er; simpl; intros H;
      try congruence.
    split.
    + destruct (r_url found) as [[|a u]|]; simpl in Ef; auto; discriminate.
    + destruct (r_url r) as [[|b v]|]; simpl in Er; try discriminate.
      exists (b :: v). repeat split. discriminate.
  - destruct (truthyNumber (r_anchorPageHint found)) eqn:Ef,
             (truthyNumber (r_anchorPageHint r)) eqn:Er; simpl; intros H;
      try congruence.
    split.
    + destruct (r_anchorPageHint found) as [[|n|n]|]; simpl in Ef; auto;
        discriminate.
    + destruct (r_anchorPageHint r) as [n|]; simpl in Er; try discriminate.
      exists n. repeat split. intros ->. discriminate.
  - intros u Hu Hne. rewrite Hu. destruct u; [congruence|]. reflexivity.
  - intros n Hn Hne. rewrite Hn. destruct n; [congruence| |]; reflexivity.
Qed.

Lemma merge_step_frame_witness :
  Map_get (key asciiToLowerCase recCircularAgain)
          [(key asciiToLowerCase recCircular, inserted recCircular)]
  = Some (inserted recCircular)
  /\ exists m,
       Map_get (key asciiToLowerCase recCircularAgain)
               (dedupeStep asciiToLowerCase
                  [(key asciiToLowerCase recCircular, inserted recCircular)]
                  recCircularAgain) = Some m
       /\ r_type m = Circular /\ r_title m = None.
Proof.
  split; [reflexivity|].
  destruct (merge_step_frame asciiToLowerCase
              [(key asciiToLowerCase recCircular, inserted recCircular)]
              recCircularAgain (found := inserted recCircular) eq_refl)
    as [m [H1 [H2 [H3 _]]]].
  exists m. repeat split; assumption.
Defined.

(** C5 as stated fails: a stored empty-string url and a stored
    anchorPageHint 0 are both replaced by the incoming values. *)
Lemma empty_url_and_zero_hint_replaced :
  r_url recEmptyUrl = Some [] /\ r_anchorPageHint recEmptyUrl = Some 0%Z
  /\ key asciiToLowerCase recEmptyUrl = key asciiToLowerCase recCircularAgain
  /\ map r_url (dedupe asciiToLowerCase [recEmptyUrl; recCircularAgain])
     = [Some (str "http://a/#page=7")]
  /\ map r_anchorPageHint
         (dedupe asciiToLowerCase [recEmptyUrl; recCircularAgain])
     = [Some 7%Z]
  /\ map r_url (dedupe asciiToLowerCase [recEmptyUrl; recCircularAgain])
     <> [r_url recEmptyUrl]
  /\ map r_anchorPageHint
         (dedupe asciiToLowerCase [recEmptyUrl; recCircularAgain])
     <> [r_anchorPageHint recEmptyUrl].
Proof. repeat split; vm_compute; discriminate. Qed.

(** *** Records under one key *)

Lemma Math_max_cases (a b : Q) : Math_max a b = a \/ Math_max a b = b.
Proof. unfold Math_max. destruct (Qle_bool a b); auto. Qed.

Lemma Math_max_upper (a b : Q) : (a <= Math_max a b)%Q /\ (b <= Math_max a b)%Q.
Proof.
  unfold Math_max. destruct (Qle_bool a b) eqn:E.
  - apply Qle_bool_iff in E. split; [assumption | apply Qle_refl].
  - split; [apply Qle_refl|]. apply Qlt_le_weak, Qnot_le_lt.
    intros H. apply Qle_bool_iff in H. congruence.
Qed.

Lemma merge_fold_pages_In (items : list ReferenceItem) (m : ReferenceItem) (x : Z) :
  In x (r_pages (fold_left merge items m))
  <-> In x (r_pages m) \/ In x (flat_map r_pages items).
Proof.
  revert m; induction items as [|r items IH]; intros m; simpl; [tauto|].
  rewrite IH. simpl.
  rewrite sortAsc_In, (@arrayFromSet_In _ Z.eqb Z.eqb_eq), !in_app_iff. tauto.
Qed.

Lemma merge_fold_pages_sorted (items : list ReferenceItem) (m : ReferenceItem) :
  StronglySorted Z.lt (r_pages m) ->
  StronglySorted Z.lt (r_pages (fold_left merge items m)).
Proof.
  revert m; induction items as [|r items IH]; intros m H; simpl; [assumption|].
  apply IH. simpl. apply sortAsc_sorted, arrayFromSet_NoDup, Z.eqb_eq.
Qed.

Lemma merge_fold_snippets_In (items : list ReferenceItem) (m : ReferenceItem)
    (sn : jsstring) :
  In sn (r_snippets (fold_left merge items m))
  <-> In sn (r_snippets m) \/ In sn (flat_map r_snippets items).
Proof.
  revert m; induction items as [|r items IH]; intros m; simpl; [tauto|].
  rewrite IH. simpl.
  rewrite (@arrayFromSet_In _ string_eqb string_eqb_eq), !in_app_iff. tauto.
Qed.

Lemma merge_fold_snippets_NoDup (items : list ReferenceItem) (m : ReferenceItem) :
  NoDup (r_snippets m) -> NoDup (r_snippets (fold_left merge items m)).
Proof.
  revert m; induction items as [|r items IH]; intros m H; simpl; [assumption|].
  apply IH. simpl. apply arrayFromSet_NoDup, string_eqb_eq.
Qed.

Lemma merge_fold_confidence_In (items : list ReferenceItem) (m : ReferenceItem) :
  In (r_confidence (fold_left merge items m))
     (r_confidence m :: map r_confidence items).
Proof.
  revert m; induction items as [|r items IH]; intros m; simpl; [auto|].
  destruct (IH (merge m r)) as [E | H]; [|auto].
  rewrite <- E. simpl.
  destruct (Math_max_cases (r_confidence m) (r_confidence r)) as [-> | ->]; auto.
Qed.

Lemma merge_fold_confidence_upper (items : list ReferenceItem) (m : ReferenceItem) :
  (r_confidence m <= r_confidence (fold_left merge items m))%Q
  /\ forall r, In r items ->
               (r_confidence r <= r_confidence (fold_left merge items m))%Q.
Proof.
  revert m; induction items as [|r items IH]; intros m; simpl.
  - split; [apply Qle_refl | intros r []].
  - destruct (IH (merge m r)) as [H1 H2]. simpl in H1.
    destruct (Math_max_upper (r_confidence m) (r_confidence r)) as [Ha Hb].
    split; [eapply Qle_trans; eassumption|].
    intros r' [<- | Hr']; [eapply Qle_trans; eassumption | auto].
Qed.

(** The single record left by [dedupe] on records that share a key. *)
Lemma dedupe_shared_summary (lc : jsstring -> jsstring) (k : jsstring)
    (items : list ReferenceItem) :
  items <> [] ->
  (forall r, In r items -> key lc r = k) ->
  exists m,
    dedupe lc items = [m]
    /\ r_pages m = sortAsc (arrayFromSet Z.eqb (flat_map r_pages items))
    /\ (forall sn, In sn (r_snippets m) <-> In sn (flat_map r_snippets items))
    /\ NoDup (r_snippets m)
    /\ In (r_confidence m) (map r_confidence items)
    /\ (forall r, In r items -> (r_confidence r <= r_confidence m)%Q).
Proof.
  destruct items as [|r items]; [congruence|]. intros _ Hk.
  exists (fold_left merge items (inserted r)).
  split; [apply (dedupe_shared lc Hk)|].
  split; [|split; [|split; [|split]]].
  - apply ascending_unique.
    + apply merge_fold_pages_sorted. simpl.
      apply sortAsc_sorted, arrayFromSet_NoDup, Z.eqb_eq.
    + apply sortAsc_sorted, arrayFromSet_NoDup, Z.eqb_eq.
    + intros x. rewrite merge_fold_pages_In. simpl.
      rewrite !sortAsc_In, !(@arrayFromSet_In _ Z.eqb Z.eqb_eq), in_app_iff. tauto.
  - intros sn. rewrite merge_fold_snippets_In. simpl.
    rewrite (@arrayFromSet_In _ string_eqb string_eqb_eq), in_app_iff. tauto.
  - apply merge_fold_snippets_NoDup. simpl. apply arrayFromSet_NoDup, string_eqb_eq.
  - apply (merge_fold_confidence_In items (inserted r)).
  - intros r' [<- | Hr'].
    + apply (proj1 (merge_fold_confidence_upper items (inserted r))).
    + apply (proj2 (merge_fold_confidence_upper items (inserted r))), Hr'.
Qed.

(** C4. Records that share one merge key are merged into one record
    whose pages are the sorted union of all their pages, whose snippets
    are the union of all their snippets and whose confidence is the
    greatest of theirs; processing the records in another order gives
    the same pages, the same set of snippets and the same confidence. *)
Theorem dedupe_shared_key_order_independent
    (toLowerCase : jsstring -> jsstring) (k : jsstring)
    (items items' : list ReferenceItem) :
  items <> [] ->
  (forall r, In r items -> key toLowerCase r = k) ->
  Permutation items items' ->
  exists m m',
    dedupe toLowerCase items = [m] /\ dedupe toLowerCase items' = [m']
    /\ r_pages m = sortAsc (arrayFromSet Z.eqb (flat_map r_pages items))
    /\ (forall p, In p (r_pages m) <-> exists r, In r items /\ In p (r_pages r))
    /\ (forall sn, In sn (r_snippets m)
                   <-> exists r, In r items /\ In sn (r_snippets r))
    /\ NoDup (r_snippets m)
    /\ In (r_confidence m) (map r_confidence items)
    /\ (forall r, In r items -> (r_confidence r <= r_confidence m)%Q)
    /\ r_pages m' = r_pages m
    /\ (forall sn, In sn (r_snippets m') <-> In sn (r_snippets m))
    /\ (r_confidence m' == r_confidence m)%Q.
Proof.
  intros Hne Hk Hp.
  assert (Hne' : items' <> []).
  { intros ->. apply Permutation_sym, Permutation_nil in Hp. contradiction. }
  assert (Hk' : forall r, In r items' -> key toLowerCase r = k).
  { intros r Hr. apply Hk. eapply Permutation_in; [apply Permutation_sym|];
      eassumption. }
  destruct (dedupe_shared_summary toLowerCase Hne Hk)
    as [m [D [P [S [N [C U]]]]]].
  destruct (dedupe_shared_summary toLowerCase Hne' Hk')
    as [m' [D' [P' [S' [N' [C' U']]]]]].
  assert (Hmem : forall (A : Type) (f : ReferenceItem -> list A) (x : A),
             In x (flat_map f items') <-> In x (flat_map f items)).
  { intros A f x. rewrite !in_flat_map.
    split; intros [r [Hr Hx]]; exists r; split; try assumption.
    - eapply Permutation_in; [apply Permutation_sym|]; eassumption.
    - eapply Permutation_in; eassumption. }
  exists m, m'. repeat (split; [assumption|]).
  split; [|split; [|split; [|split; [|split; [|split; [|split]]]]]].
  - intros p. rewrite P, sortAsc_In, (@arrayFromSet_In _ Z.eqb Z.eqb_eq).
    apply in_flat_map.
  - intros sn. rewrite S. apply in_flat_map.
  - assumption.
  - assumption.
  - assumption.
  - rewrite P, P'. apply sortAsc_arrayFromSet_ext. intros x. apply Hmem.
  - intros sn. rewrite S, S'. apply Hmem.
  - apply in_map_iff in C. destruct C as [r [Er Hr]].
    apply in_map_iff in C'. destruct C' as [r' [Er' Hr']].
    apply Qle_antisym.
    + rewrite <- Er'. apply U. eapply Permutation_in;
        [apply Permutation_sym|]; eassumption.
    + rewrite <- Er. apply U'. eapply Permutation_in; eassumption.
Qed.

Lemma dedupe_shared_key_order_independent_witness :
  exists m m',
    dedupe asciiToLowerCase [recCircular; recCircularAgain; recEmptyUrl] = [m]
    /\ dedupe asciiToLowerCase [recEmptyUrl; recCircular; recCircularAgain] = [m']
    /\ r_pages m = [1%Z; 2%Z; 3%Z] /\ r_pages m' = r_pages m
    /\ (r_confidence m' == r_confidence m)%Q.
Proof.
  destruct (@dedupe_shared_key_order_independent asciiToLowerCase
              (key asciiToLowerCase recCircular)
              [recCircular; recCircularAgain; recEmptyUrl]
              [recEmptyUrl; recCircular; recCircularAgain])
    as [m [m' [D [D' [P [_ [_ [_ [_ [_ [P' [_ C]]]]]]]]]]]].
  - discriminate.
  - intros r [<- | [<- | [<- | []]]]; reflexivity.
  - apply Permutation_sym.
    apply (Permutation_cons_app [recCircular; recCircularAgain] []).
    simpl. apply Permutation_refl.
  - exists m, m'. repeat split; assumption.
Defined.

(** ** End-to-end scenarios *)

(** C1, the code at the scenario's input.  The circular pattern does not
    match the code SEBI/HO/MRD/DSA/CIR/2023/45: between the path and CIR
    it asks for a slash, an optional P and another slash, so without the
    P segment only a doubled slash would do.  The rules-only run yields
    the Regulation record alone; with the P segment present it yields
    the two records of the scenario. *)
Theorem rules_only_refer_sentence :
  matchAll (PATTERNS circularCode) (str referSentence) = []
  /\ rulesOnly (onePage referSentence)
     = [{| r_type := Regulation; r_title := None;
           r_identifier := Some (str "Regulation 9(1)");
           r_url := None; r_anchorPageHint := None; r_pages := [1%Z];
           r_snippets := [str referSentence]; r_confidence := conf04 |}]
  /\ rulesOnly (onePage referSentenceWithP)
     = [{| r_type := Circular; r_title := None;
           r_identifier := Some (str "SEBI/HO/MRD/DSA/P/CIR/2023/45");
           r_url := None; r_anchorPageHint := None; r_pages := [1%Z];
           r_snippets := [str referSentenceWithP]; r_confidence := conf04 |};
        {| r_type := Regulation; r_title := None;
           r_identifier := Some (str "Regulation 9(1)");
           r_url := None; r_anchorPageHint := None; r_pages := [1%Z];
           r_snippets := [str referSentenceWithP]; r_confidence := conf04 |}].
Proof. repeat split; vm_compute; reflexivity. Qed.

(** C2 as stated fails: the regulation candidates of the sentence are
    not the two strings "Regulation 12(3)" and "Regulation 12(3A)". *)
Lemma regulation_pattern_not_two_matches :
  matchesOfKind regulation (findCandidates (onePage seeSentence))
  <> [str "Regulation 12(3)"; str "Regulation 12(3A)"].
Proof. vm_compute. discriminate. Qed.

(** C2, as the code has it.  On the sentence "See Regulation 12(3) and
    12(3A) of the Regulations." the regulation pattern yields exactly
    one match string, "Regulation 12(3)", and detection reports exactly
    that one regulation candidate: the bare "12(3A)" is not matched. *)
Theorem regulation_pattern_single_match :
  matchAll (PATTERNS regulation) (str seeSentence) = [str "Regulation 12(3)"]
  /\ matchesOfKind regulation (findCandidates (onePage seeSentence))
     = [str "Regulation 12(3)"].
Proof. split; vm_compute; reflexivity. Qed.

(** ** Snippets *)

Lemma Map_set_In (V : Type) (k : jsstring) (v : V) (m : Map V)
    (kv : jsstring * V) :
  In kv (Map_set k v m) -> snd kv = v \/ In kv m.
Proof.
  induction m as [|[k' v'] m IH]; simpl.
  - intros [<- | []]. left; reflexivity.
  - destruct (string_eqb k k'); simpl.
    + intros [<- | H]; [left; reflexivity | right; right; exact H].
    + intros [<- | H]; [right; left; reflexivity|].
      destruct (IH H); [left | right; right]; assumption.
Qed.

Lemma dedupeStep_snippets (lc : jsstring -> jsstring) (m : Map ReferenceItem)
    (r : ReferenceItem) (kv : jsstring * ReferenceItem) (sn : jsstring) :
  In kv (dedupeStep lc m r) -> In sn (r_snippets (snd kv)) ->
  In sn (r_snippets r)
  \/ exists kv', In kv' m /\ In sn (r_snippets (snd kv')).
Proof.
  unfold dedupeStep. intros Hin Hsn.
  destruct (Map_get (key lc r) m) as [found|] eqn:G;
    apply Map_set_In in Hin; destruct Hin as [E | Hin];
    try (right; exists kv; split; assumption).
  - rewrite E in Hsn. simpl in Hsn.
    rewrite (@arrayFromSet_In _ string_eqb string_eqb_eq), in_app_iff in Hsn.
    destruct Hsn as [Hsn | Hsn]; [right | left; assumption].
    exists (key lc r, found). split; [apply Map_get_In, G | exact Hsn].
  - rewrite E in Hsn. simpl in Hsn.
    rewrite (@arrayFromSet_In _ string_eqb string_eqb_eq) in Hsn. left; assumption.
Qed.

Lemma dedupe_fold_snippets (lc : jsstring -> jsstring)
    (items : list ReferenceItem) :
  forall (m : Map ReferenceItem) (kv : jsstring * ReferenceItem) (sn : jsstring),
    In kv (fold_left (dedupeStep lc) items m) ->
    In sn (r_snippets (snd kv)) ->
    In sn (flat_map r_snippets items)
    \/ exists kv', In kv' m /\ In sn (r_snippets (snd kv')).
Proof.
  induction items as [|r items IH]; intros m kv sn Hin Hsn; simpl in *.
  - right. exists kv. split; assumption.
  - destruct (IH _ _ _ Hin Hsn) as [H | [kv' [Hin' Hsn']]].
    + left. apply in_app_iff. right; assumption.
    + destruct (dedupeStep_snippets _ _ _ _ _ Hin' Hsn') as [H | H].
      * left. apply in_app_iff. left; assumption.
      * right; assumption.
Qed.

(** C6 as stated fails: a sentence of 221 code units that cites a
    regulation becomes a snippet of the final output as it is. *)
Lemma long_sentence_snippet_kept :
  exists r sn, In r (rulesOnly longPage) /\ In sn (r_snippets r)
               /\ 200 < length sn.
Proof.
  exists (inserted (toItem {| c_page := 1; c_sentence := longSentence;
                              c_match := str "Regulation 9";
                              c_kind := regulation; c_url := None |})).
  exists longSentence.
  split; [vm_compute; left; reflexivity|].
  split; [vm_compute; left; reflexivity|].
  vm_compute. repeat constructor.
Qed.

(** C6, as the code has it.  Every snippet of a record of the merged
    output is a snippet of one of the records handed to the merger, so a
    length bound that holds for all of those holds for the output; the
    merger neither shortens nor lengthens a snippet.  In the rules-only
    path the snippet is the whole sentence of a candidate, or its match
    when the sentence is empty, of whatever length. *)
Theorem merged_snippets_come_from_inputs
    (toLowerCase : jsstring -> jsstring) (items : list ReferenceItem)
    (r : ReferenceItem) (sn : jsstring) :
  In r (dedupe toLowerCase items) -> In sn (r_snippets r) ->
  (exists r0, In r0 items /\ In sn (r_snippets r0))
  /\ (forall bound,
        (forall r0 s0, In r0 items -> In s0 (r_snippets r0) ->
                       length s0 <= bound) ->
        length sn <= bound)
  /\ (forall cands, items = map toItem cands ->
                    exists c, In c cands /\ sn = snippetOf c).
Proof.
  intros Hr Hsn.
  assert (H0 : exists r0, In r0 items /\ In sn (r_snippets r0)).
  { unfold dedupe, Map_values in Hr. apply in_map_iff in Hr.
    destruct Hr as [kv [E Hin]]. subst r.
    destruct (dedupe_fold_snippets _ _ _ _ _ Hin Hsn) as [H | [kv' [[] _]]].
    apply in_flat_map in H. exact H. }
  split; [exact H0|]. destruct H0 as [r0 [Hr0 Hs0]]. split.
  - intros bound Hb. apply (Hb r0 sn); assumption.
  - intros cands ->. apply in_map_iff in Hr0. destruct Hr0 as [c [<- Hc]].
    exists c. split; [assumption|]. simpl in Hs0.
    destruct Hs0 as [<- | []]. reflexivity.
Qed.

Lemma merged_snippets_come_from_inputs_witness :
  In (inserted (toItem shortCandidate))
     (dedupe asciiToLowerCase (map toItem [shortCandidate]))
  /\ In (str "See Regulation 9.")
        (r_snippets (inserted (toItem shortCandidate)))
  /\ (exists r0, In r0 (map toItem [shortCandidate])
                 /\ In (str "See Regulation 9.") (r_snippets r0))
  /\ length (str "See Regulation 9.") <= 17
  /\ (exists c, In c [shortCandidate]
                /\ str "See Regulation 9." = snippetOf c).
Proof.
  assert (H1 : In (inserted (toItem shortCandidate))
                  (dedupe asciiToLowerCase (map toItem [shortCandidate])))
    by (left; reflexivity).
  assert (H2 : In (str "See Regulation 9.")
                  (r_snippets (inserted (toItem shortCandidate))))
    by (left; reflexivity).
  destruct (@merged_snippets_come_from_inputs asciiToLowerCase
              (map toItem [shortCandidate]) (inserted (toItem shortCandidate))
              (str "See Regulation 9.") H1 H2) as [E [B C]].
  split; [exact H1|]. split; [exact H2|]. split; [exact E|]. split.
  - apply B. intros r0 s0 [<- | []] [<- | []]. apply Nat.le_refl.
  - apply (C [shortCandidate]). reflexivity.
Defined.

(** ** Soundness of the matcher *)

Lemma orElse_Some (a : option pos) (b : unit -> option pos) (z : pos) :
  orElse a b = Some z -> a = Some z \/ b tt = Some z.
Proof. destruct a; simpl; auto. Qed.

Section RepeatSound.
Variable D : pos -> pos -> Prop.
Variable m : matcher.
Hypothesis m_sound :
  forall x c z, m x c = Some z -> exists y, D x y /\ c y = Some z.

Lemma RepeatMatcher_sound (fuel min : nat) (max : option nat) (greedy : bool)
    (x : pos) (c : cont) (z : pos) :
  boundsOk min max ->
  RepeatMatcher fuel m min max greedy x c = Some z ->
  exists n y, min <= n /\ iter n D x y /\ c y = Some z.
Proof.
  revert min max x z.
  induction fuel as [|fuel IH]; intros min max x z Hb H; simpl in H;
    [discriminate|].
  assert (Once : max <> Some 0 ->
    m x (fun y =>
           if (Nat.eqb min 0 && Nat.eqb (endIndex y) (endIndex x))%bool
           then None
           else RepeatMatcher fuel m (Nat.pred min) (option_map Nat.pred max)
                              greedy y c) = Some z ->
    exists n y, min <= n /\ iter n D x y /\ c y = Some z).
  { intros Hmax Hm. apply m_sound in Hm. destruct Hm as [y1 [Hd Hrec]].
    destruct (Nat.eqb min 0 && Nat.eqb (endIndex y1) (endIndex x))%bool;
      [discriminate|].
    apply IH in Hrec.
    - destruct Hrec as [n [y [Hn [Hi Hc]]]].
      exists (S n), y. split; [lia|]. split; [|exact Hc].
      exists y1. split; assumption.
    - destruct max as [[|k]|]; simpl in *; [congruence | lia | exact I]. }
  assert (Zero : min = 0 -> c x = Some z ->
                 exists n y, min <= n /\ iter n D x y /\ c y = Some z).
  { intros -> Hc. exists 0, x. repeat split; [lia | exact Hc]. }
  destruct max as [[|k]|].
  - apply Zero; [simpl in Hb; lia | exact H].
  - destruct (Nat.eqb_spec min 0) as [E|E]; simpl in H.
    + destruct greedy; simpl in H; apply orElse_Some in H;
        destruct H as [H|H]; auto; apply Once; auto; discriminate.
    + apply Once; [discriminate | exact H].
  - destruct (Nat.eqb_spec min 0) as [E|E]; simpl in H.
    + destruct greedy; simpl in H; apply orElse_Some in H;
        destruct H as [H|H]; auto; apply Once; auto; discriminate.
    + apply Once; [discriminate | exact H].
Qed.
End RepeatSound.

(** Whatever the matcher accepts, the pattern can match. *)
Lemma compile_sound (ic : bool) (r : regex) :
  wellFormed r ->
  forall x c z, compile ic r x c = Some z ->
                exists y, den ic r x y /\ c y = Some z.
Proof.
  induction r as [|cc|r1 IH1 r2 IH2|r1 IH1 r2 IH2|r1 IH1 min max greedy
                  | |r1 IH1|cc]; intros Hwf x c z H; simpl in *.
  - exists x. auto.
  - destruct (rest x) as [|u t] eqn:Er; [discriminate|].
    destruct (classMatches ic cc u) eqn:Ec; [|discriminate].
    exists {| prev := u :: prev x; rest := t |}. split; [|exact H].
    exists u. auto.
  - destruct Hwf as [W1 W2].
    apply (IH1 W1) in H. destruct H as [y1 [D1 H]].
    apply (IH2 W2) in H. destruct H as [y [D2 H]].
    exists y. split; [exists y1; auto | exact H].
  - destruct Hwf as [W1 W2]. apply orElse_Some in H. destruct H as [H|H].
    + apply (IH1 W1) in H. destruct H as [y [D1 H]]. exists y. auto.
    + apply (IH2 W2) in H. destruct H as [y [D2 H]]. exists y. auto.
  - destruct Hwf as [Hb W1].
    apply (@RepeatMatcher_sound (den ic r1) _ (IH1 W1)) in H; [|exact Hb].
    destruct H as [n [y [Hn [Hi Hc]]]]. exists y. split; [|exact Hc].
    exists n. auto.
  - destruct (xorb _ _) eqn:E; [|discriminate]. exists x. auto.
  - destruct (compile ic r1 x Some) as [e|] eqn:E; [|discriminate].
    apply (IH1 Hwf) in E. destruct E as [y [D1 _]].
    exists x. split; [|exact H]. split; [reflexivity | exists y; exact D1].
  - destruct (prev x) as [|u t] eqn:Ep; [discriminate|].
    destruct (classMatches ic cc u) eqn:Ec; [|discriminate].
    exists x. split; [|exact H]. split; [reflexivity|]. exists u, t. auto.
Qed.

Lemma consumes_refl (x : pos) : consumes x [] x.
Proof. split; reflexivity. Qed.

Lemma consumes_trans (x y z : pos) (w1 w2 : jsstring) :
  consumes x w1 y -> consumes y w2 z -> consumes x (w1 ++ w2) z.
Proof.
  intros [R1 P1] [R2 P2]. split.
  - rewrite R1, R2, app_assoc. reflexivity.
  - rewrite P2, P1, rev_app_distr, app_assoc. reflexivity.
Qed.

(** A match reads a word of guarded characters. *)
Lemma den_guarded (P : N -> Prop) (ic : bool) (r : regex) :
  guarded P ic r ->
  forall x y, den ic r x y -> exists w, consumes x w y /\ Forall P w.
Proof.
  induction r as [|cc|r1 IH1 r2 IH2|r1 IH1 r2 IH2|r1 IH1 min max greedy
                  | |r1 IH1|cc]; intros G x y H; simpl in *.
  - subst y. exists []. split; [apply consumes_refl | constructor].
  - destruct H as [u [Hr [Hp Hc]]]. exists [u]. split.
    + split; simpl; assumption.
    + repeat constructor. apply G, Hc.
  - destruct G as [G1 G2]. destruct H as [m [H1 H2]].
    destruct (IH1 G1 _ _ H1) as [w1 [C1 F1]].
    destruct (IH2 G2 _ _ H2) as [w2 [C2 F2]].
    exists (w1 ++ w2). split; [eapply consumes_trans; eassumption|].
    apply Forall_app. auto.
  - destruct G as [G1 G2]. destruct H as [H|H]; [apply (IH1 G1) | apply (IH2 G2)];
      exact H.
  - destruct H as [n [_ H]]. revert x H.
    induction n as [|n IHn]; intros x H; simpl in H.
    + subst y. exists []. split; [apply consumes_refl | constructor].
    + destruct H as [m [H1 H2]].
      destruct (IH1 G _ _ H1) as [w1 [C1 F1]].
      destruct (IHn _ H2) as [w2 [C2 F2]].
      exists (w1 ++ w2). split; [eapply consumes_trans; eassumption|].
      apply Forall_app. auto.
  - destruct H as [-> _]. exists []. split; [apply consumes_refl | constructor].
  - destruct H as [-> _]. exists []. split; [apply consumes_refl | constructor].
  - destruct H as [-> _]. exists []. split; [apply consumes_refl | constructor].
Qed.

Lemma consumes_matched (x y : pos) (w : jsstring) :
  consumes x w y -> matched x y = w.
Proof.
  intros [R P]. unfold matched, endIndex. rewrite P, R, length_app, length_rev.
  replace (length w + length (prev x) - length (prev x)) with (length w) by lia.
  rewrite firstn_app, firstn_all, Nat.sub_diag. simpl. apply app_nil_r.
Qed.

Lemma execFrom_matchAt (rx : RegExp) (s p : jsstring) (a e : pos) :
  execFrom rx p s = Some (a, e) -> matchAt rx a = Some e.
Proof.
  revert p; induction s as [|u s IH]; intros p H; simpl in H.
  - destruct (matchAt rx {| prev := p; rest := [] |}) eqn:E; [|discriminate].
    inversion H; subst. exact E.
  - destruct (matchAt rx {| prev := p; rest := u :: s |}) eqn:E.
    + inversion H; subst. exact E.
    + apply IH in H. exact H.
Qed.

(** Every string reported by the global match loop is a match of the
    pattern at some position. *)
Lemma matchLoop_In (rx : RegExp) (fuel : nat) (x : pos) (m : jsstring) :
  In m (matchLoop fuel rx x) ->
  exists a e, matchAt rx a = Some e /\ m = matched a e.
Proof.
  revert x; induction fuel as [|fuel IH]; intros x H; simpl in H; [contradiction|].
  destruct (execFrom rx (prev x) (rest x)) as [[a e]|] eqn:E; [|contradiction].
  destruct H as [<- | H].
  - exists a, e. split; [eapply execFrom_matchAt; exact E | reflexivity].
  - destruct (matched a e); [|eapply IH; exact H].
    destruct (rest e); [contradiction | eapply IH; exact H].
Qed.

(** ** Characters *)

Ltac ncases :=
  repeat (match goal with
          | H : context [N.leb ?a ?b] |- _ => destruct (N.leb_spec a b)
          | H : context [N.eqb ?a ?b] |- _ => destruct (N.eqb_spec a b)
          | |- context [N.leb ?a ?b] => destruct (N.leb_spec a b)
          | |- context [N.eqb ?a ?b] => destruct (N.eqb_spec a b)
          end; cbn [orb andb negb xorb] in *; try discriminate; try reflexivity;
          try lia).

Lemma notSpace_class (ic : bool) (u : N) :
  classMatches ic {| negated := false; atoms := [NotSpace] |} u = true ->
  isWhiteSpace u = false.
Proof.
  unfold classMatches. simpl. destruct (isWhiteSpace u); simpl; congruence.
Qed.

(** A printable ASCII character of a pattern matches no whitespace, with
    or without ignoreCase. *)
Lemma printable_class (ic : bool) (c u : N) :
  between 33 126 c = true ->
  classMatches ic {| negated := false; atoms := [One c] |} u = true ->
  isWhiteSpace u = false.
Proof.
  unfold classMatches, atomMatches, canonicalize, isWhiteSpace, between.
  cbn -[N.eqb N.leb N.sub]. intros Hc H. destruct ic; ncases.
Qed.

Lemma terminator_class (u : N) :
  classMatches false terminators u = true -> isTerminator u = true.
Proof.
  unfold classMatches, terminators, atomMatches, canonicalize, isTerminator.
  cbn -[N.eqb N.leb]. intros H. ncases.
Qed.

Lemma opener_class (u : N) :
  classMatches false openers u = true ->
  isOpener u = true /\ isWhiteSpace u = false.
Proof.
  unfold classMatches, openers, atomMatches, canonicalize, isOpener,
    isWhiteSpace, between.
  cbn -[N.eqb N.leb]. intros H. split; ncases.
Qed.

Lemma space_class (u : N) :
  classMatches false {| negated := false; atoms := [Space] |} u = true ->
  isWhiteSpace u = true.
Proof.
  unfold classMatches. simpl. destruct (isWhiteSpace u); simpl; congruence.
Qed.

Lemma trimStart_nonspace (w : jsstring) :
  Forall (fun u => isWhiteSpace u = false) w -> trimStart w = w.
Proof. intros [|u t Hu _]; simpl; [reflexivity | rewrite Hu; reflexivity]. Qed.

Lemma trim_nonspace (w : jsstring) :
  Forall (fun u => isWhiteSpace u = false) w -> trim w = w.
Proof.
  intros H. unfold trim, trimEnd. rewrite (trimStart_nonspace H).
  rewrite trimStart_nonspace by (apply Forall_rev, H). apply rev_involutive.
Qed.

(** ** URL candidates *)

Lemma url_pattern_guarded :
  guarded (fun u => isWhiteSpace u = false) true (source (PATTERNS url)).
Proof.
  cbn [PATTERNS source rx seq lit chr cls opt plus notS guarded].
  repeat split; intros u H;
    first [ eapply notSpace_class; exact H
          | eapply printable_class; [| exact H]; reflexivity ].
Qed.

Lemma url_pattern_wellFormed : wellFormed (source (PATTERNS url)).
Proof. simpl. unfold boundsOk. repeat split; lia. Qed.

(** A URL match holds no whitespace, so trimming leaves it as it is. *)
Lemma url_match_trim (sn m : jsstring) :
  In m (matchAll (PATTERNS url) sn) -> trim m = m.
Proof.
  intros H. apply matchLoop_In in H. destruct H as [a [e [H ->]]].
  apply (compile_sound _ _ url_pattern_wellFormed) in H.
  destruct H as [y [Hd Hy]]. inversion Hy; subst y.
  destruct (den_guarded _ _ _ url_pattern_guarded _ _ Hd) as [w [Hc Hw]].
  rewrite (consumes_matched Hc). apply trim_nonspace, Hw.
Qed.

(** C10. In a sentence with URL tokens [first :: others], the url-kind
    candidates are exactly one per token: each has the token that
    triggered it as its match and the first token of the sentence as its
    url, so from the second token on the two fields can differ; the
    rules-only record of such a candidate takes its url from the match,
    not from the url field. *)
Theorem url_candidates_match_and_url
    (p : Z) (sn first : jsstring) (others : list jsstring) :
  matchAll (PATTERNS url) sn = first :: others ->
  (forall c, In c (sentenceCandidates p sn) -> c_kind c = url ->
             In (c_match c) (first :: others)
             /\ c_url c = Some first
             /\ r_url (toItem c) = Some (c_match c))
  /\ (forall m, In m (first :: others) ->
                In {| c_page := p; c_sentence := trim sn; c_match := m;
                      c_kind := url; c_url := Some first |}
                   (sentenceCandidates p sn))
  /\ (forall m, In m others -> m <> first ->
                exists c, In c (sentenceCandidates p sn) /\ c_kind c = url
                          /\ c_match c = m /\ c_url c <> Some (c_match c)).
Proof.
  intros Hm.
  assert (Hall : forall m, In m (first :: others) ->
                In {| c_page := p; c_sentence := trim sn; c_match := m;
                      c_kind := url; c_url := Some first |}
                   (sentenceCandidates p sn)); [|split; [|split]].
  3: exact Hall.
  3: { intros m Hin Hne. eexists. split; [apply (Hall m); right; exact Hin|].
       cbn [c_kind c_match c_url]. repeat split. congruence. }
  2: {
    intros c Hc Hk. unfold sentenceCandidates in Hc.
    apply in_flat_map in Hc. destruct Hc as [k [_ Hc]].
    apply in_map_iff in Hc. destruct Hc as [m [<- Hin]].
    cbn [c_kind] in Hk. subst k.
    assert (T := url_match_trim _ _ Hin). rewrite Hm in Hin.
    cbn [c_match c_url c_kind toItem r_url]. rewrite T, Hm.
    cbn [hd_error]. auto. }
  - intros m Hin. unfold sentenceCandidates.
    apply in_flat_map. exists url. split; [unfold kinds; simpl; tauto|].
    apply in_map_iff. exists m. rewrite <- Hm in Hin.
    split; [|exact Hin].
    rewrite (url_match_trim _ _ Hin), Hm. reflexivity.
Qed.

Lemma url_candidates_match_and_url_witness :
  matchAll (PATTERNS url) twoUrlSentence
  = [str "http://a.in/x"; str "HTTPS://b.in/y#page=4"]
  /\ In {| c_page := 3; c_sentence := twoUrlSentence;
           c_match := str "HTTPS://b.in/y#page=4"; c_kind := url;
           c_url := Some (str "http://a.in/x") |}
        (sentenceCandidates 3 twoUrlSentence)
  /\ r_url (toItem {| c_page := 3; c_sentence := twoUrlSentence;
                      c_match := str "HTTPS://b.in/y#page=4"; c_kind := url;
                      c_url := Some (str "http://a.in/x") |})
     = Some (str "HTTPS://b.in/y#page=4").
Proof.
  assert (Hm : matchAll (PATTERNS url) twoUrlSentence
               = [str "http://a.in/x"; str "HTTPS://b.in/y#page=4"])
    by (vm_compute; reflexivity).
  split; [exact Hm|].
  destruct (@url_candidates_match_and_url 3 twoUrlSentence _ _ Hm)
    as [H1 [H2 _]].
  assert (Hin := H2 (str "HTTPS://b.in/y#page=4") (or_intror (or_introl eq_refl))).
  split.
  - exact Hin.
  - exact (proj2 (proj2 (H1 _ Hin eq_refl))).
Defined.

(** ** Sentence segmentation *)

Lemma iter_class (ic : bool) (cc : CharClass) (n : nat) (x y : pos) :
  iter n (den ic (Class cc)) x y ->
  exists ws, length ws = n
             /\ Forall (fun u => classMatches ic cc u = true) ws
             /\ rest x = ws ++ rest y.
Proof.
  revert x; induction n as [|n IH]; intros x H; simpl in H.
  - subst y. exists []. repeat split. constructor.
  - destruct H as [m [[u [Hr [_ Hc]]] H]].
    destruct (IH _ H) as [ws [Hl [Hf He]]].
    exists (u :: ws). simpl. repeat split.
    + congruence.
    + constructor; assumption.
    + rewrite Hr, He. reflexivity.
Qed.

Lemma opensAfterSpaces_app (ws : jsstring) (v : N) (t : jsstring) :
  Forall (fun u => isWhiteSpace u = true) ws ->
  isWhiteSpace v = false ->
  opensAfterSpaces (ws ++ v :: t) = isOpener v.
Proof.
  intros Hws Hv. induction Hws as [|w ws Hw _ IH]; simpl.
  - rewrite Hv. reflexivity.
  - rewrite Hw. exact IH.
Qed.

(** Where the split pattern matches, the text has a split point. *)
Lemma sentence_break_split_point (x e : pos) :
  matchAt SENTENCE_BREAK x = Some e ->
  exists u t, prev x = u :: t /\ splitPointAt u (rest x) = true.
Proof.
  intros H. unfold matchAt in H.
  apply compile_sound in H; [|simpl; unfold boundsOk; tauto].
  destruct H as [y [H _]].
  cbn [SENTENCE_BREAK source rx seq plus s cls den] in H.
  destruct H as [m1 [[-> [u [t [Hp Ht]]]] [m2 [[n [Hn Hi]] [_ [e' Ho]]]]]].
  apply iter_class in Hi. destruct Hi as [ws [Hl [Hws Hr]]].
  destruct Ho as [v [Hv [_ Hc]]].
  exists u, t. split; [exact Hp|].
  apply terminator_class in Ht. apply opener_class in Hc.
  destruct Hc as [Ho Hnw].
  unfold splitPointAt. rewrite Ht, Hr, Hv.
  destruct ws as [|w ws]; [simpl in Hl; lia|].
  inversion Hws as [|? ? Hw Hws']; subst. simpl.
  rewrite (space_class _ Hw). simpl.
  rewrite opensAfterSpaces_app; [exact Ho | | exact Hnw].
  eapply Forall_impl; [|exact Hws']. intros a Ha. apply space_class, Ha.
Qed.

Lemma splitLoop_no_break (fuel p : nat) (chunk : jsstring) (x : pos) :
  length (rest x) < fuel ->
  hasSplitPoint (firstn 1 (prev x) ++ rest x) = false ->
  splitLoop fuel SENTENCE_BREAK p chunk x = [rev chunk ++ rest x].
Proof.
  revert chunk x; induction fuel as [|fuel IH]; intros chunk x Hf Hn; [lia|].
  simpl. destruct (rest x) as [|u t] eqn:Er.
  - rewrite app_nil_r. reflexivity.
  - assert (Hnext : splitLoop fuel SENTENCE_BREAK p (u :: chunk)
                      {| prev := u :: prev x; rest := t |}
                    = [rev chunk ++ u :: t]).
    { rewrite IH.
      - simpl. rewrite <- app_assoc. reflexivity.
      - simpl in *. lia.
      - simpl. destruct (prev x); simpl in Hn; [exact Hn|].
        apply orb_false_iff in Hn. apply Hn. }
    destruct (matchAt SENTENCE_BREAK x) as [e|] eqn:Em; [|exact Hnext].
    exfalso. apply sentence_break_split_point in Em.
    destruct Em as [b [t' [Hp Hs]]]. rewrite Hp, Er in *. simpl in Hn.
    rewrite Hs in Hn. discriminate.
Qed.

Lemma split_no_break (text : jsstring) :
  hasSplitPoint text = false -> split SENTENCE_BREAK text = [text].
Proof.
  intros H. destruct text as [|u t]; [reflexivity|].
  unfold split. rewrite splitLoop_no_break; [reflexivity | simpl; lia | exact H].
Qed.

Lemma opener_not_space (v : N) : isOpener v = true -> isWhiteSpace v = false.
Proof.
  unfold isOpener, isWhiteSpace, between. intros H. ncases.
Qed.

Lemma opensAfterSpaces_true (t : jsstring) :
  opensAfterSpaces t = true ->
  exists ws v post, t = ws ++ v :: post
                    /\ Forall (fun u => isWhiteSpace u = true) ws
                    /\ isOpener v = true.
Proof.
  induction t as [|a t IH]; simpl; [discriminate|].
  destruct (isWhiteSpace a) eqn:Ea; intros H.
  - destruct (IH H) as [ws [v [post [-> [Hws Hv]]]]].
    exists (a :: ws), v, post. repeat split; [constructor|]; assumption.
  - exists [], a, t. repeat split; [constructor | assumption].
Qed.

(** [hasSplitPoint] says what the specification says: somewhere in the
    text a terminator is followed by one or more whitespace characters
    and then by an opener. *)
Lemma hasSplitPoint_spec (text : jsstring) :
  hasSplitPoint text = true
  <-> exists pre u ws v post,
        text = pre ++ u :: ws ++ v :: post
        /\ isTerminator u = true /\ ws <> []
        /\ Forall (fun w => isWhiteSpace w = true) ws
        /\ isOpener v = true.
Proof.
  split.
  - induction text as [|u t IH]; simpl; [discriminate|].
    intros H. apply orb_true_iff in H. destruct H as [H|H].
    + unfold splitPointAt in H. apply andb_true_iff in H. destruct H as [Hu H].
      destruct t as [|w t']; [discriminate|].
      apply andb_true_iff in H. destruct H as [Hw H].
      apply opensAfterSpaces_true in H.
      destruct H as [ws [v [post [-> [Hws Hv]]]]].
      exists [], u, (w :: ws), v, post.
      repeat split; [assumption | discriminate | constructor; assumption
                    | assumption].
    + destruct (IH H) as [pre [u' [ws [v [post [-> R]]]]]].
      exists (u :: pre), u', ws, v, post. split; [reflexivity | exact R].
  - intros [pre [u [ws [v [post [-> [Hu [Hne [Hws Hv]]]]]]]]].
    induction pre as [|a pre IH]; simpl.
    + destruct ws as [|w ws]; [congruence|].
      inversion Hws as [|? ? Hw Hws']; subst.
      unfold splitPointAt. simpl. rewrite Hu, Hw. simpl.
      rewrite opensAfterSpaces_app; [rewrite Hv; reflexivity | assumption|].
      apply opener_not_space, Hv.
    + rewrite IH. apply orb_true_r.
Qed.

(** The segmenter at work on a text with split points: it splits after
    a terminator only when an opener follows the whitespace. *)
Example splitSentences_splits :
  splitSentences (str " One. Two; (three) e.g. four? 5 six! Seven ")
  = [str "One."; str "Two;"; str "(three) e.g. four? 5 six!"; str "Seven"].
Proof. vm_compute. reflexivity. Qed.

(** C7. The sentence segmenter never returns an empty sequence, and on a
    text with no split point (no terminator followed by whitespace
    followed by an opener) it returns exactly the trimmed text. *)
Theorem splitSentences_single_sentence (text : jsstring) :
  (text <> [] -> splitSentences text <> [])
  /\ (hasSplitPoint text = false -> splitSentences text = [trim text]).
Proof.
  split.
  - intros _. unfold splitSentences.
    destruct (filter truthy (map trim (split SENTENCE_BREAK text)));
      discriminate.
  - intros H. unfold splitSentences. rewrite (split_no_break _ H). simpl.
    destruct (trim text); reflexivity.
Qed.

Lemma splitSentences_single_sentence_witness :
  str "  Refer to Regulation 9(1) of the e.g. rules; see 12.5 below.  " <> []
  /\ hasSplitPoint
       (str "  Refer to Regulation 9(1) of the e.g. rules; see 12.5 below.  ")
     = false
  /\ splitSentences
       (str "  Refer to Regulation 9(1) of the e.g. rules; see 12.5 below.  ")
     = [str "Refer to Regulation 9(1) of the e.g. rules; see 12.5 below."].
Proof.
  split; [discriminate|]. split; [reflexivity|].
  destruct (splitSentences_single_sentence
              (str "  Refer to Regulation 9(1) of the e.g. rules; see 12.5 below.  "))
    as [H1 H2].
  assert (H3 := H1 ltac:(discriminate)).
  rewrite (H2 eq_refl). reflexivity.
Defined.

(** ** The fuel of the matcher is never used up

    The loops of the matcher, of the global match and of split are
    written with fuel.  Each of them gives the same result with any
    larger amount: the fuel it is given is enough. *)

Lemma forward_refl (x : pos) : forward x x.
Proof. exists []. apply consumes_refl. Qed.

Lemma forward_trans (x y z : pos) : forward x y -> forward y z -> forward x z.
Proof.
  intros [w1 H1] [w2 H2]. exists (w1 ++ w2). eapply consumes_trans; eassumption.
Qed.

Lemma consumes_lengths (x y : pos) (w : jsstring) :
  consumes x w y ->
  length (rest x) = length w + length (rest y)
  /\ endIndex y = length w + endIndex x.
Proof.
  intros [R P]. unfold endIndex. rewrite R, P, !length_app, length_rev. lia.
Qed.

Lemma RepeatMatcher_ext (m : matcher) :
  forwardExt m ->
  forall fuel min max greedy x c c',
    (forall y, forward x y -> c y = c' y) ->
    RepeatMatcher fuel m min max greedy x c
    = RepeatMatcher fuel m min max greedy x c'.
Proof.
  intros Hm. induction fuel as [|fuel IH]; intros min max greedy x c c' H;
    [reflexivity|].
  simpl.
  assert (Hc : c x = c' x) by apply H, forward_refl.
  assert (Hd : forall mx,
    m x (fun y =>
           if (Nat.eqb min 0 && Nat.eqb (endIndex y) (endIndex x))%bool
           then None
           else RepeatMatcher fuel m (Nat.pred min) mx greedy y c)
    = m x (fun y =>
           if (Nat.eqb min 0 && Nat.eqb (endIndex y) (endIndex x))%bool
           then None
           else RepeatMatcher fuel m (Nat.pred min) mx greedy y c')).
  { intros mx. apply Hm. intros y Hy. destruct (_ && _)%bool; [reflexivity|].
    apply IH. intros y' Hy'. apply H. eapply forward_trans; eassumption. }
  destruct max as [[|k]|]; [exact Hc | |]; rewrite Hd, Hc; reflexivity.
Qed.

Lemma compile_forwardExt (ic : bool) (r : regex) : forwardExt (compile ic r).
Proof.
  induction r as [|cc|r1 IH1 r2 IH2|r1 IH1 r2 IH2|r1 IH1 min max greedy
                  | |r1 IH1|cc]; intros x c c' H; simpl.
  - apply H, forward_refl.
  - destruct (rest x) as [|u t] eqn:Er; [reflexivity|].
    destruct (classMatches ic cc u); [|reflexivity].
    apply H. exists [u]. split; simpl; [exact Er | reflexivity].
  - apply IH1. intros y Hy. apply IH2. intros y' Hy'. apply H.
    eapply forward_trans; eassumption.
  - rewrite (IH1 x c c' H), (IH2 x c c' H). reflexivity.
  - apply RepeatMatcher_ext; assumption.
  - rewrite (H x (forward_refl x)). reflexivity.
  - rewrite (H x (forward_refl x)). reflexivity.
  - rewrite (H x (forward_refl x)). reflexivity.
Qed.

Lemma RepeatMatcher_fuel (m : matcher) :
  forwardExt m ->
  forall f f' min max greedy x c,
    min + length (rest x) < f -> min + length (rest x) < f' ->
    RepeatMatcher f m min max greedy x c
    = RepeatMatcher f' m min max greedy x c.
Proof.
  intros Hm. induction f as [|f IH]; intros [|f'] min max greedy x c Hf Hf';
    try lia.
  simpl.
  assert (Hd : forall mx,
    m x (fun y =>
           if (Nat.eqb min 0 && Nat.eqb (endIndex y) (endIndex x))%bool
           then None
           else RepeatMatcher f m (Nat.pred min) mx greedy y c)
    = m x (fun y =>
           if (Nat.eqb min 0 && Nat.eqb (endIndex y) (endIndex x))%bool
           then None
           else RepeatMatcher f' m (Nat.pred min) mx greedy y c)).
  { intros mx. apply Hm. intros y [w Hw]. apply consumes_lengths in Hw.
    destruct (Nat.eqb_spec min 0) as [E0|E0];
      destruct (Nat.eqb_spec (endIndex y) (endIndex x)) as [E1|E1];
      simpl; try reflexivity; apply IH; lia. }
  destruct max as [[|k]|]; [reflexivity | |]; rewrite Hd; reflexivity.
Qed.

(** The fuel [compile] gives a quantifier is enough. *)
Lemma RepeatMatcher_fuel_enough (ic : bool) (r : regex) (min extra : nat)
    (max : option nat) (greedy : bool) (x : pos) (c : cont) :
  RepeatMatcher (min + length (rest x) + 1 + extra) (compile ic r)
                min max greedy x c
  = RepeatMatcher (min + length (rest x) + 1) (compile ic r)
                  min max greedy x c.
Proof. apply RepeatMatcher_fuel; [apply compile_forwardExt | lia | lia]. Qed.

Lemma guarded_True (ic : bool) (r : regex) : guarded (fun _ => True) ic r.
Proof. induction r; simpl; auto. Qed.

Lemma matchAt_forward (rx : RegExp) (a e : pos) :
  wellFormed (source rx) -> matchAt rx a = Some e -> forward a e.
Proof.
  intros W H. apply (compile_sound _ _ W) in H. destruct H as [y [Hd Hy]].
  inversion Hy; subst y.
  destruct (den_guarded _ _ _ (guarded_True _ _) _ _ Hd) as [w [Hc _]].
  exists w. exact Hc.
Qed.

Lemma execFrom_forward (rx : RegExp) (s p : jsstring) (a e : pos) :
  execFrom rx p s = Some (a, e) -> forward {| prev := p; rest := s |} a.
Proof.
  revert p; induction s as [|u s IH]; intros p H; simpl in H.
  - destruct (matchAt rx {| prev := p; rest := [] |}); [|discriminate].
    inversion H; subst. apply forward_refl.
  - destruct (matchAt rx {| prev := p; rest := u :: s |}).
    + inversion H; subst. apply forward_refl.
    + apply IH in H. eapply forward_trans; [|exact H].
      exists [u]. split; reflexivity.
Qed.

Lemma matchLoop_fuel (rx : RegExp) :
  wellFormed (source rx) ->
  forall f f' x, length (rest x) < f -> length (rest x) < f' ->
                 matchLoop f rx x = matchLoop f' rx x.
Proof.
  intros W. induction f as [|f IH]; intros [|f'] x Hf Hf'; try lia.
  simpl. destruct (execFrom rx (prev x) (rest x)) as [[a e]|] eqn:E;
    [|reflexivity].
  assert (Ha : forward x a) by (destruct x; apply (execFrom_forward _ _ _ E)).
  apply execFrom_matchAt in E. apply matchAt_forward in E; [|exact W].
  destruct Ha as [w1 H1]. destruct E as [w2 H2].
  rewrite (consumes_matched H2).
  apply consumes_lengths in H1. apply consumes_lengths in H2.
  f_equal. destruct w2 as [|u w2]; simpl in *.
  - destruct (rest e) as [|v t] eqn:Er; [reflexivity|].
    apply IH; simpl in *; lia.
  - apply IH; lia.
Qed.

(** The fuel [matchAll] gives the global match loop is enough. *)
Lemma matchAll_fuel_enough (rx : RegExp) (sn : jsstring) (extra : nat) :
  wellFormed (source rx) ->
  matchLoop (S (length sn) + extra) rx (start sn) = matchAll rx sn.
Proof.
  intros W. apply matchLoop_fuel; [exact W | simpl; lia | simpl; lia].
Qed.

Lemma splitLoop_fuel (rx : RegExp) :
  wellFormed (source rx) ->
  forall f f' p chunk x,
    2 * length (rest x) + (if Nat.eqb (endIndex x) p then 0 else 1) < f ->
    2 * length (rest x) + (if Nat.eqb (endIndex x) p then 0 else 1) < f' ->
    splitLoop f rx p chunk x = splitLoop f' rx p chunk x.
Proof.
  intros W. induction f as [|f IH]; intros [|f'] p chunk x Hf Hf'; try lia.
  simpl. destruct (rest x) as [|u t] eqn:Er; [reflexivity|].
  assert (Hnext : splitLoop f rx p (u :: chunk) {| prev := u :: prev x; rest := t |}
                  = splitLoop f' rx p (u :: chunk)
                              {| prev := u :: prev x; rest := t |}).
  { cbn [length] in Hf, Hf'.
    apply IH; cbn [rest];
      destruct (Nat.eqb (endIndex x) p);
      destruct (Nat.eqb (endIndex {| prev := u :: prev x; rest := t |}) p);
      lia. }
  destruct (matchAt rx x) as [e|] eqn:E; [|exact Hnext].
  destruct (Nat.eqb_spec (endIndex e) p) as [Ep|Ep]; [exact Hnext|].
  f_equal. apply matchAt_forward in E; [|exact W]. destruct E as [w Hw].
  apply consumes_lengths in Hw. rewrite Er in Hw.
  cbn [length] in Hf, Hf', Hw.
  apply IH; rewrite Nat.eqb_refl;
    destruct (Nat.eqb_spec (endIndex x) p); lia.
Qed.

(** The fuel [split] gives its loop is enough. *)
Lemma split_fuel_enough (rx : RegExp) (sn : jsstring) (extra : nat) :
  wellFormed (source rx) -> sn <> [] ->
  splitLoop (2 * length sn + 2 + extra) rx 0 [] (start sn) = split rx sn.
Proof.
  intros W Hne. destruct sn as [|u t]; [congruence|].
  unfold split. apply splitLoop_fuel; [exact W | simpl; lia | simpl; lia].
Qed.

(** Every pattern of the source is well formed. *)
Lemma patterns_wellFormed :
  (forall k, wellFormed (source (PATTERNS k)))
  /\ wellFormed (source SENTENCE_BREAK).
Proof.
  split; [intros []|]; simpl; unfold boundsOk; repeat split; lia.
Qed.

(* ================================================================== *)
(** * Further properties of the code *)
(* ================================================================== *)

(** ** Dedupe on arbitrary lists *)

Lemma Map_get_set_other (V : Type) (k k' : jsstring) (v : V) (m : Map V) :
  k' <> k -> Map_get k' (Map_set k v m) = Map_get k' m.
Proof.
  intros H. apply string_eqb_neq in H.
  induction m as [|[k1 v1] m IH]; simpl.
  - rewrite H. reflexivity.
  - destruct (string_eqb k k1) eqn:E; simpl.
    + apply string_eqb_eq in E. subst k1. rewrite H. reflexivity.
    + destruct (string_eqb k' k1); auto.
Qed.

Lemma Map_get_snoc (V : Type) (k k' : jsstring) (v : V) (m : Map V) :
  Map_get k' (m ++ [(k, v)])
  = match Map_get k' m with
    | Some x => Some x
    | None => if string_eqb k' k then Some v else None
    end.
Proof.
  induction m as [|[k1 v1] m IH]; simpl; [reflexivity|].
  destruct (string_eqb k' k1); auto.
Qed.

Lemma In_Map_get (V : Type) (k : jsstring) (v : V) (m : Map V) :
  NoDup (map fst m) -> In (k, v) m -> Map_get k m = Some v.
Proof.
  induction m as [|[k1 v1] m IH]; simpl; intros Hnd Hin; [contradiction|].
  inversion Hnd as [|? ? Hn Hnd']; subst.
  destruct Hin as [E | Hin].
  - inversion E; subst. rewrite string_eqb_refl. reflexivity.
  - destruct (string_eqb k k1) eqn:E; [|auto].
    apply string_eqb_eq in E. subst k1. exfalso. apply Hn.
    apply (in_map fst) in Hin. exact Hin.
Qed.

Lemma filter_none (A : Type) (f : A -> bool) (l : list A) :
  (forall x, In x l -> f x = false) -> filter f l = [].
Proof.
  induction l as [|a l IH]; simpl; intros H; [reflexivity|].
  rewrite (H a (or_introl eq_refl)). apply IH. intros x Hx. apply H. auto.
Qed.

Lemma arrayFromSet_snoc (A : Type) (eqb : A -> A -> bool) (l : list A) (x : A) :
  arrayFromSet eqb (l ++ [x]) = setAdd eqb (arrayFromSet eqb l) x.
Proof. unfold arrayFromSet. rewrite fold_left_app. reflexivity. Qed.

Section DedupeGeneral.
Variable lc : jsstring -> jsstring.

Lemma key_inserted (r : ReferenceItem) : key lc (inserted r) = key lc r.
Proof. reflexivity. Qed.

Lemma key_merge_fold (g : list ReferenceItem) (m : ReferenceItem) :
  key lc (fold_left merge g m) = key lc m.
Proof.
  revert m; induction g as [|r g IH]; intros m; simpl; [reflexivity|].
  rewrite IH. reflexivity.
Qed.

Lemma group_snoc (k : jsstring) (l : list ReferenceItem) (r : ReferenceItem) :
  group lc k (l ++ [r])
  = group lc k l ++ (if string_eqb (key lc r) k then [r] else []).
Proof. unfold group. rewrite filter_app. reflexivity. Qed.

Lemma group_key (k : jsstring) (l : list ReferenceItem) (r : ReferenceItem) :
  In r (group lc k l) <-> In r l /\ key lc r = k.
Proof. unfold group. rewrite filter_In, string_eqb_eq. tauto. Qed.

(** What the map of [dedupe] holds after [items]: the keys in order of
    first appearance, and under every key the merge of its records. *)
Lemma dedupe_fold_spec (items : list ReferenceItem) :
  map fst (fold_left (dedupeStep lc) items [])
  = arrayFromSet string_eqb (map (key lc) items)
  /\ forall k v,
       Map_get k (fold_left (dedupeStep lc) items []) = Some v ->
       exists r g, group lc k items = r :: g
                   /\ v = fold_left merge g (inserted r).
Proof.
  induction items as [|r seen IH] using rev_ind.
  - split; [reflexivity | discriminate].
  - destruct IH as [Hkeys Hvals].
    rewrite fold_left_app. cbn [fold_left].
    set (m := fold_left (dedupeStep lc) seen []) in *.
    rewrite map_app. cbn [map]. rewrite arrayFromSet_snoc.
    unfold dedupeStep, setAdd.
    destruct (Map_get (key lc r) m) as [found|] eqn:G.
    + assert (Hin : In (key lc r) (map fst m)).
      { apply Map_get_In in G. apply (in_map fst) in G. exact G. }
      split.
      * rewrite Map_set_keys by congruence. rewrite Hkeys.
        rewrite Hkeys in Hin. apply (@mem_In _ string_eqb string_eqb_eq) in Hin.
        rewrite Hin. reflexivity.
      * intros k v Hg. rewrite group_snoc.
        destruct (string_eqb (key lc r) k) eqn:E.
        -- apply string_eqb_eq in E. subst k.
           rewrite Map_get_set in Hg. inversion Hg; subst v.
           destruct (Hvals _ _ G) as [r1 [g [Hgr ->]]].
           exists r1, (g ++ [r]). rewrite Hgr. split; [reflexivity|].
           rewrite fold_left_app. reflexivity.
        -- apply string_eqb_neq in E.
           rewrite Map_get_set_other in Hg by congruence.
           rewrite app_nil_r. apply Hvals, Hg.
    + assert (Hnin : ~ In (key lc r) (map fst m)) by (apply Map_get_None, G).
      rewrite Map_set_fresh by assumption. split.
      * rewrite map_app. simpl. rewrite Hkeys.
        rewrite Hkeys in Hnin.
        destruct (mem string_eqb (key lc r)
                    (arrayFromSet string_eqb (map (key lc) seen))) eqn:E;
          [|reflexivity].
        apply (@mem_In _ string_eqb string_eqb_eq) in E. contradiction.
      * intros k v Hg. rewrite Map_get_snoc in Hg. rewrite group_snoc.
        destruct (Map_get k m) as [v0|] eqn:G0.
        -- inversion Hg; subst v0.
           destruct (string_eqb (key lc r) k) eqn:E.
           ++ apply string_eqb_eq in E. subst k. congruence.
           ++ rewrite app_nil_r. apply Hvals, G0.
        -- destruct (string_eqb k (key lc r)) eqn:E; [|discriminate].
           apply string_eqb_eq in E. subst k. inversion Hg; subst v.
           rewrite string_eqb_refl. exists r, [].
           split; [|reflexivity].
           unfold group. rewrite filter_none; [reflexivity|].
           intros x Hx. apply string_eqb_neq. intros Ex. apply Hnin.
           rewrite Hkeys, (@arrayFromSet_In _ string_eqb string_eqb_eq), <- Ex.
           apply in_map, Hx.
Qed.

Lemma dedupe_fold_keys_NoDup (items : list ReferenceItem) :
  NoDup (map fst (fold_left (dedupeStep lc) items [])).
Proof.
  rewrite (proj1 (dedupe_fold_spec items)).
  apply arrayFromSet_NoDup, string_eqb_eq.
Qed.

(** Every output record is the merge of the input records of its key. *)
Lemma dedupe_entry (items : list ReferenceItem) (v : ReferenceItem) :
  In v (dedupe lc items) ->
  exists r g, group lc (key lc v) items = r :: g
              /\ v = fold_left merge g (inserted r).
Proof.
  unfold dedupe, Map_values. intros H. apply in_map_iff in H.
  destruct H as [[k v'] [E Hin]]. simpl in E. subst v'.
  apply In_Map_get in Hin; [|apply dedupe_fold_keys_NoDup].
  destruct (proj2 (dedupe_fold_spec items) _ _ Hin) as [r [g [Hg Hv]]].
  assert (Hk : key lc v = k).
  { rewrite Hv, key_merge_fold, key_inserted.
    apply (group_key k items r). rewrite Hg. left; reflexivity. }
  rewrite Hk. exists r, g. auto.
Qed.

Lemma dedupe_keys (items : list ReferenceItem) :
  map (key lc) (dedupe lc items)
  = arrayFromSet string_eqb (map (key lc) items).
Proof.
  rewrite <- (proj1 (dedupe_fold_spec items)).
  unfold dedupe, Map_values. rewrite map_map.
  apply map_ext_in. intros [k v] Hin. simpl.
  apply In_Map_get in Hin; [|apply dedupe_fold_keys_NoDup].
  destruct (proj2 (dedupe_fold_spec items) _ _ Hin) as [r [g [Hg Hv]]].
  rewrite Hv, key_merge_fold, key_inserted.
  apply (group_key k items r). rewrite Hg. left; reflexivity.
Qed.

End DedupeGeneral.

Lemma arrayFromSet_length (A : Type) (eqb : A -> A -> bool) (l : list A) :
  length (arrayFromSet eqb l) <= length l.
Proof.
  unfold arrayFromSet.
  assert (H : forall acc, length (fold_left (setAdd eqb) l acc)
                          <= length acc + length l).
  { induction l as [|x l IH]; intros acc; simpl; [lia|].
    specialize (IH (setAdd eqb acc x)). unfold setAdd in *.
    destruct (mem eqb x acc); [lia|]. rewrite length_app in IH. simpl in IH. lia. }
  apply (H []).
Qed.

Lemma arrayFromSet_NoDup_id (A : Type) (eqb : A -> A -> bool) (l : list A) :
  (forall x y, eqb x y = true <-> x = y) ->
  NoDup l -> arrayFromSet eqb l = l.
Proof.
  intros Heq. unfold arrayFromSet.
  assert (H : forall acc, NoDup (acc ++ l) ->
                          fold_left (setAdd eqb) l acc = acc ++ l).
  { induction l as [|x l IH]; intros acc Hnd; simpl.
    - rewrite app_nil_r. reflexivity.
    - unfold setAdd. destruct (mem eqb x acc) eqn:E.
      + apply (mem_In eqb Heq) in E. apply NoDup_remove_2 in Hnd.
        exfalso. apply Hnd. apply in_or_app. left; exact E.
      + rewrite IH; rewrite <- app_assoc; simpl; [reflexivity | exact Hnd]. }
  intros Hnd. apply (H []). exact Hnd.
Qed.

Lemma sortAsc_sorted_id (l : list Z) : StronglySorted Z.lt l -> sortAsc l = l.
Proof.
  induction 1 as [|x l Hs IH Hx]; simpl; [reflexivity|].
  rewrite IH. destruct l as [|y t]; simpl; [reflexivity|].
  inversion Hx as [|? ? Hxy _]; subst.
  destruct (Z.leb_spec x y); [reflexivity | lia].
Qed.

Lemma inserted_id (m : ReferenceItem) :
  StronglySorted Z.lt (r_pages m) -> NoDup (r_snippets m) -> inserted m = m.
Proof.
  intros Hp Hs. destruct m as [t ti i u a p sn c]. unfold inserted. simpl in *.
  rewrite (@arrayFromSet_NoDup_id _ Z.eqb _ Z.eqb_eq).
  - rewrite (sortAsc_sorted_id Hp), (@arrayFromSet_NoDup_id _ string_eqb _ string_eqb_eq Hs).
    reflexivity.
  - clear -Hp. induction Hp as [|x l Hs IH Hx]; constructor; [|exact IH].
    intros Hin. rewrite Forall_forall in Hx. specialize (Hx _ Hin). lia.
Qed.

Section DedupeTheorems.
Variable lc : jsstring -> jsstring.

Lemma fields_merge_fold (g : list ReferenceItem) (m : ReferenceItem) :
  r_type (fold_left merge g m) = r_type m
  /\ r_title (fold_left merge g m) = r_title m
  /\ r_identifier (fold_left merge g m) = r_identifier m.
Proof.
  revert m; induction g as [|r g IH]; intros m; simpl; [auto|].
  destruct (IH (merge m r)) as [H1 [H2 H3]]. rewrite H1, H2, H3. auto.
Qed.

Lemma dedupe_fold_distinct (l : list ReferenceItem) :
  forall m : Map ReferenceItem,
    NoDup (map fst m ++ map (key lc) l) ->
    fold_left (dedupeStep lc) l m
    = m ++ map (fun r => (key lc r, inserted r)) l.
Proof.
  induction l as [|r l IH]; intros m Hnd; simpl.
  - rewrite app_nil_r. reflexivity.
  - assert (G : Map_get (key lc r) m = None).
    { apply Map_get_None. intros Hin. simpl in Hnd.
      apply NoDup_remove_2 in Hnd. apply Hnd, in_or_app. left; exact Hin. }
    unfold dedupeStep at 2. rewrite G, Map_set_fresh by exact G.
    rewrite IH.
    + rewrite <- app_assoc. reflexivity.
    + rewrite map_app, <- app_assoc. simpl. exact Hnd.
Qed.

Lemma dedupe_distinct (l : list ReferenceItem) :
  NoDup (map (key lc) l) -> dedupe lc l = map inserted l.
Proof.
  intros Hnd. unfold dedupe, Map_values.
  rewrite dedupe_fold_distinct by exact Hnd.
  simpl. rewrite map_map. reflexivity.
Qed.

End DedupeTheorems.

(** X1. The keys of the output of [dedupe] are the keys of the input,
    each once, in the order in which they first appear: no key is lost,
    none is invented, none occurs twice, and the output is never longer
    than the input. *)
Theorem dedupe_keys_first_appearance
    (toLowerCase : jsstring -> jsstring) (items : list ReferenceItem) :
  map (key toLowerCase) (dedupe toLowerCase items)
  = arrayFromSet string_eqb (map (key toLowerCase) items)
  /\ NoDup (map (key toLowerCase) (dedupe toLowerCase items))
  /\ (forall k, In k (map (key toLowerCase) (dedupe toLowerCase items))
                <-> In k (map (key toLowerCase) items))
  /\ length (dedupe toLowerCase items) <= length items.
Proof.
  rewrite dedupe_keys. split; [reflexivity|]. split; [|split].
  - apply arrayFromSet_NoDup, string_eqb_eq.
  - intros k. apply arrayFromSet_In, string_eqb_eq.
  - rewrite <- (length_map (key toLowerCase) (dedupe toLowerCase items)).
    rewrite dedupe_keys, <- (length_map (key toLowerCase) items).
    apply arrayFromSet_length.
Qed.

(** X2. Every record of the output is exactly what [dedupe] makes of
    the input records of its own key, whatever else the input holds: it
    has type, title and identifier of the first of them, the sorted
    union of their pages, the union of their snippets and their greatest
    confidence. *)
Theorem dedupe_record_content
    (toLowerCase : jsstring -> jsstring) (items : list ReferenceItem)
    (m : ReferenceItem) :
  In m (dedupe toLowerCase items) ->
  exists first others,
    group toLowerCase (key toLowerCase m) items = first :: others
    /\ dedupe toLowerCase (first :: others) = [m]
    /\ r_type m = r_type first /\ r_title m = r_title first
    /\ r_identifier m = r_identifier first
    /\ r_pages m
       = sortAsc (arrayFromSet Z.eqb (flat_map r_pages (first :: others)))
    /\ (forall sn, In sn (r_snippets m)
                   <-> In sn (flat_map r_snippets (first :: others)))
    /\ In (r_confidence m) (map r_confidence (first :: others))
    /\ (forall r, In r (first :: others) ->
                  (r_confidence r <= r_confidence m)%Q).
Proof.
  intros Hin. destruct (dedupe_entry _ _ _ Hin) as [r [g [Hg Hm]]].
  exists r, g. split; [exact Hg|].
  assert (Hk : forall r', In r' (r :: g) ->
                          key toLowerCase r' = key toLowerCase m).
  { intros r' Hr'. rewrite <- Hg in Hr'. apply group_key in Hr'. apply Hr'. }
  assert (Hd : dedupe toLowerCase (r :: g) = [m]).
  { rewrite (dedupe_shared toLowerCase Hk). rewrite Hm. reflexivity. }
  split; [exact Hd|].
  destruct (fields_merge_fold g (inserted r)) as [F1 [F2 F3]].
  rewrite Hm at 1 2 3. rewrite F1, F2, F3.
  repeat (split; [reflexivity|]).
  destruct (@dedupe_shared_summary toLowerCase (key toLowerCase m) (r :: g))
    as [m' [D [P [S [_ [C U]]]]]]; [discriminate | exact Hk |].
  rewrite Hd in D. inversion D; subst m'. auto.
Qed.

Lemma dedupe_record_content_witness :
  In (merge (inserted recCircular) recCircularAgain)
     (dedupe asciiToLowerCase sampleItems)
  /\ exists first others,
       group asciiToLowerCase
             (key asciiToLowerCase (merge (inserted recCircular) recCircularAgain))
             sampleItems = first :: others
       /\ dedupe asciiToLowerCase (first :: others)
          = [merge (inserted recCircular) recCircularAgain].
Proof.
  assert (H : In (merge (inserted recCircular) recCircularAgain)
                 (dedupe asciiToLowerCase sampleItems))
    by (left; reflexivity).
  split; [exact H|].
  destruct (dedupe_record_content asciiToLowerCase sampleItems _ H)
    as [first [others [Hg [Hd _]]]].
  exists first, others. split; assumption.
Defined.

(** X3. [dedupe] establishes and keeps the invariants of a record: in
    every output record the pages are strictly ascending and the
    snippets pairwise distinct; pages and snippets are non-empty when
    those of every input record are, and the confidence lies in [0,1]
    when that of every input record does. *)
Theorem dedupe_record_invariants
    (toLowerCase : jsstring -> jsstring) (items : list ReferenceItem)
    (m : ReferenceItem) :
  In m (dedupe toLowerCase items) ->
  StronglySorted Z.lt (r_pages m) /\ NoDup (r_snippets m)
  /\ ((forall r, In r items -> r_pages r <> []) -> r_pages m <> [])
  /\ ((forall r, In r items -> r_snippets r <> []) -> r_snippets m <> [])
  /\ ((forall r, In r items -> (0 <= r_confidence r <= 1)%Q) ->
      (0 <= r_confidence m <= 1)%Q).
Proof.
  intros Hin. destruct (dedupe_entry _ _ _ Hin) as [r [g [Hg Hm]]].
  assert (Hsub : forall r', In r' (r :: g) -> In r' items).
  { intros r' Hr'. rewrite <- Hg in Hr'. apply group_key in Hr'. apply Hr'. }
  split; [|split; [|split; [|split]]].
  - rewrite Hm. apply merge_fold_pages_sorted. simpl.
    apply sortAsc_sorted, arrayFromSet_NoDup, Z.eqb_eq.
  - rewrite Hm. apply merge_fold_snippets_NoDup. simpl.
    apply arrayFromSet_NoDup, string_eqb_eq.
  - intros Hne. specialize (Hne r (Hsub r (or_introl eq_refl))).
    destruct (r_pages r) as [|p ps] eqn:Ep; [congruence|].
    assert (Hp : In p (r_pages m)).
    { rewrite Hm, merge_fold_pages_In. left. simpl.
      rewrite sortAsc_In, (@arrayFromSet_In _ Z.eqb Z.eqb_eq), Ep.
      left; reflexivity. }
    intros E. rewrite E in Hp. contradiction.
  - intros Hne. specialize (Hne r (Hsub r (or_introl eq_refl))).
    destruct (r_snippets r) as [|s0 ss] eqn:Es; [congruence|].
    assert (Hp : In s0 (r_snippets m)).
    { rewrite Hm, merge_fold_snippets_In. left. simpl.
      rewrite (@arrayFromSet_In _ string_eqb string_eqb_eq), Es.
      left; reflexivity. }
    intros E. rewrite E in Hp. contradiction.
  - intros Hc.
    assert (Hi := merge_fold_confidence_In g (inserted r)).
    rewrite <- Hm in Hi. change (r_confidence (inserted r)) with (r_confidence r) in Hi.
    change (r_confidence r :: map r_confidence g)
      with (map r_confidence (r :: g)) in Hi.
    apply in_map_iff in Hi. destruct Hi as [r' [<- Hr']].
    apply Hc, Hsub, Hr'.
Qed.

Lemma dedupe_record_invariants_witness :
  In (merge (inserted recCircular) recCircularAgain)
     (dedupe asciiToLowerCase sampleItems)
  /\ r_pages (merge (inserted recCircular) recCircularAgain) = [1%Z; 2%Z; 3%Z]
  /\ r_pages (merge (inserted recCircular) recCircularAgain) <> []
  /\ (0 <= r_confidence (merge (inserted recCircular) recCircularAgain) <= 1)%Q.
Proof.
  assert (H : In (merge (inserted recCircular) recCircularAgain)
                 (dedupe asciiToLowerCase sampleItems))
    by (left; reflexivity).
  destruct (dedupe_record_invariants asciiToLowerCase sampleItems _ H)
    as [_ [_ [Hp [_ Hc]]]].
  split; [exact H|]. split; [reflexivity|]. split.
  - apply Hp. intros r [<- | [<- | [<- | []]]]; discriminate.
  - apply Hc. intros r [<- | [<- | [<- | []]]]; split; discriminate.
Defined.

(** X4. [dedupe] is idempotent: merging an already merged list changes
    nothing. *)
Theorem dedupe_idempotent
    (toLowerCase : jsstring -> jsstring) (items : list ReferenceItem) :
  dedupe toLowerCase (dedupe toLowerCase items) = dedupe toLowerCase items.
Proof.
  rewrite dedupe_distinct.
  - rewrite <- (map_id (dedupe toLowerCase items)) at 2.
    apply map_ext_in. intros m Hin.
    destruct (dedupe_entry _ _ _ Hin) as [r [g [_ Hm]]].
    apply inserted_id; rewrite Hm.
    + apply merge_fold_pages_sorted. simpl.
      apply sortAsc_sorted, arrayFromSet_NoDup, Z.eqb_eq.
    + apply merge_fold_snippets_NoDup. simpl.
      apply arrayFromSet_NoDup, string_eqb_eq.
  - rewrite dedupe_keys. apply arrayFromSet_NoDup, string_eqb_eq.
Qed.

(** ** Trimming *)

Lemma trimStart_app (a b : jsstring) :
  trimStart (a ++ b)
  = match trimStart a with [] => trimStart b | l => l ++ b end.
Proof.
  induction a as [|u a IH]; simpl; [reflexivity|].
  destruct (isWhiteSpace u); [exact IH | reflexivity].
Qed.

(** [trimEnd], read from the left. *)
Lemma trimEnd_cons (u : N) (t : jsstring) :
  trimEnd (u :: t)
  = match trimEnd t with
    | [] => if isWhiteSpace u then [] else [u]
    | l => u :: l
    end.
Proof.
  unfold trimEnd. simpl. rewrite trimStart_app.
  destruct (trimStart (rev t)) as [|v l] eqn:E; simpl.
  - destruct (isWhiteSpace u); reflexivity.
  - rewrite rev_app_distr. simpl.
    destruct (rev l ++ [v]) eqn:E'; [|reflexivity].
    destruct (rev l); discriminate.
Qed.

Lemma trimStart_split (sn : jsstring) :
  exists ws, blank ws /\ sn = ws ++ trimStart sn.
Proof.
  induction sn as [|u t IH]; simpl.
  - exists []. split; [constructor | reflexivity].
  - destruct (isWhiteSpace u) eqn:E.
    + destruct IH as [ws [Hb He]]. exists (u :: ws). split.
      * constructor; assumption.
      * simpl. rewrite <- He. reflexivity.
    + exists []. split; [constructor | reflexivity].
Qed.

Lemma trimEnd_split (sn : jsstring) :
  exists ws, blank ws /\ sn = trimEnd sn ++ ws.
Proof.
  unfold trimEnd. destruct (trimStart_split (rev sn)) as [ws [Hb He]].
  exists (rev ws). split; [apply Forall_rev, Hb|].
  rewrite <- rev_app_distr, <- He, rev_involutive. reflexivity.
Qed.

(** A string is its trimmed form between two runs of whitespace. *)
Lemma trim_split (sn : jsstring) :
  exists ws1 ws2, blank ws1 /\ blank ws2 /\ sn = ws1 ++ trim sn ++ ws2.
Proof.
  destruct (trimStart_split sn) as [ws1 [H1 E1]].
  destruct (trimEnd_split (trimStart sn)) as [ws2 [H2 E2]].
  exists ws1, ws2. repeat split; try assumption.
  unfold trim. rewrite <- E2. exact E1.
Qed.

Lemma trimStart_head (sn : jsstring) :
  match trimStart sn with [] => True | u :: _ => isWhiteSpace u = false end.
Proof.
  induction sn as [|u t IH]; simpl; [exact I|].
  destruct (isWhiteSpace u) eqn:E; [exact IH | exact E].
Qed.

Lemma trimStart_fixed (sn : jsstring) :
  match sn with [] => True | u :: _ => isWhiteSpace u = false end ->
  trimStart sn = sn.
Proof. destruct sn as [|u t]; simpl; [reflexivity|]. intros ->. reflexivity. Qed.

Lemma trimEnd_head (sn : jsstring) :
  match sn with [] => True | u :: _ => isWhiteSpace u = false end ->
  match trimEnd sn with [] => True | u :: _ => isWhiteSpace u = false end.
Proof.
  destruct sn as [|u t]; [intros _; exact I|]. intros Hu.
  rewrite trimEnd_cons. destruct (trimEnd t); [rewrite Hu|]; exact Hu.
Qed.

Lemma trimEnd_idem (sn : jsstring) : trimEnd (trimEnd sn) = trimEnd sn.
Proof.
  unfold trimEnd. rewrite rev_involutive. f_equal.
  apply trimStart_fixed, trimStart_head.
Qed.

(** Trimming twice is trimming once. *)
Lemma trim_idem (sn : jsstring) : trim (trim sn) = trim sn.
Proof.
  unfold trim at 1. rewrite trimStart_fixed.
  - unfold trim. apply trimEnd_idem.
  - unfold trim. apply trimEnd_head, trimStart_head.
Qed.

Lemma blank_ink (ws : jsstring) : blank ws -> inkOf ws = [].
Proof.
  induction 1 as [|u ws Hu _ IH]; simpl; [reflexivity|].
  rewrite Hu. exact IH.
Qed.

Lemma inkOf_app (a b : jsstring) : inkOf (a ++ b) = inkOf a ++ inkOf b.
Proof. apply filter_app. Qed.

(** Trimming removes whitespace only. *)
Lemma trim_ink (sn : jsstring) : inkOf (trim sn) = inkOf sn.
Proof.
  destruct (trim_split sn) as [ws1 [ws2 [H1 [H2 E]]]].
  rewrite E at 2. rewrite !inkOf_app, (blank_ink H1), (blank_ink H2).
  rewrite app_nil_r. reflexivity.
Qed.

Lemma trim_blank (sn : jsstring) : trim sn = [] <-> blank sn.
Proof.
  split.
  - intros E. destruct (trim_split sn) as [ws1 [ws2 [H1 [H2 Es]]]].
    rewrite E in Es. rewrite Es. apply Forall_app. split; assumption.
  - intros Hb. destruct (trim sn) as [|u t] eqn:E; [reflexivity|].
    exfalso.
    assert (Hh := trimEnd_head (trimStart sn) (trimStart_head sn)).
    fold (trim sn) in Hh. rewrite E in Hh.
    destruct (trim_split sn) as [ws1 [ws2 [_ [_ Es]]]].
    rewrite Es, E in Hb. apply Forall_app in Hb. destruct Hb as [_ Hb].
    inversion Hb; subst. congruence.
Qed.

Lemma infix_refl (a : jsstring) : infix a a.
Proof. exists [], []. rewrite app_nil_r. reflexivity. Qed.

Lemma infix_trans (a b c : jsstring) : infix a b -> infix b c -> infix a c.
Proof.
  intros [p1 [q1 ->]] [p2 [q2 ->]]. exists (p2 ++ p1), (q1 ++ q2).
  rewrite <- !app_assoc. reflexivity.
Qed.

Lemma trim_infix (sn : jsstring) : infix (trim sn) sn.
Proof.
  destruct (trim_split sn) as [ws1 [ws2 [_ [_ E]]]]. exists ws1, ws2. exact E.
Qed.

(** ** Where candidates come from *)

Lemma matchLoop_infix (rx : RegExp) (fuel : nat) (x : pos) (m : jsstring) :
  wellFormed (source rx) ->
  In m (matchLoop fuel rx x) ->
  exists pre post, rest x = pre ++ m ++ post.
Proof.
  intros W. revert x; induction fuel as [|fuel IH]; intros x H; simpl in H;
    [contradiction|].
  destruct (execFrom rx (prev x) (rest x)) as [[a e]|] eqn:E; [|contradiction].
  assert (Ha : forward x a) by (destruct x; apply (execFrom_forward _ _ _ E)).
  apply execFrom_matchAt in E. apply matchAt_forward in E; [|exact W].
  destruct Ha as [w1 [R1 _]]. destruct E as [w [R2 P2]].
  assert (Em : matched a e = w) by (apply consumes_matched; split; assumption).
  rewrite Em in H. destruct H as [<- | H].
  - exists w1, (rest e). rewrite R1, R2. reflexivity.
  - destruct w as [|u0 w].
    + destruct (rest e) as [|u t] eqn:Er; [contradiction|].
      apply IH in H. simpl in H. destruct H as [pre [post Ht]].
      exists (w1 ++ u :: pre), post. rewrite R1, R2. simpl.
      rewrite Ht, <- app_assoc. reflexivity.
    + apply IH in H. destruct H as [pre [post Ht]].
      exists (w1 ++ (u0 :: w) ++ pre), post. rewrite R1, R2, Ht.
      rewrite <- !app_assoc. reflexivity.
Qed.

(** Every string reported by a global match is a substring of the
    subject. *)
Lemma matchAll_infix (k : CandidateKind) (sn m : jsstring) :
  In m (matchAll (PATTERNS k) sn) -> infix m sn.
Proof.
  intros H. apply matchLoop_infix in H; [exact H|].
  apply patterns_wellFormed.
Qed.

Lemma splitSentences_trimmed (text sn : jsstring) :
  In sn (splitSentences text) -> trim sn = sn.
Proof.
  unfold splitSentences.
  destruct (filter truthy (map trim (split SENTENCE_BREAK text))) eqn:E.
  - intros [<- | []]. apply trim_idem.
  - rewrite <- E. intros H. apply filter_In in H. destruct H as [H _].
    apply in_map_iff in H. destruct H as [y [<- _]]. apply trim_idem.
Qed.

Lemma uniq_fold_sub (cs : list Candidate) :
  forall (m : Map Candidate) (kv : jsstring * Candidate),
    In kv (fold_left uniqStep cs m) -> In kv m \/ In (snd kv) cs.
Proof.
  induction cs as [|c cs IH]; intros m kv H; simpl in *; [auto|].
  destruct (IH _ _ H) as [H1 | H1]; [|auto].
  unfold uniqStep in H1. destruct (Map_has (candidateKey c) m); [auto|].
  apply Map_set_In in H1. destruct H1 as [E | H1]; auto.
Qed.

Lemma findCandidates_raw (pages : list PageRecord) (c : Candidate) :
  In c (findCandidates pages) -> In c (rawCandidates pages).
Proof.
  unfold findCandidates, Map_values. intros H. apply in_map_iff in H.
  destruct H as [kv [<- H]]. apply uniq_fold_sub in H.
  destruct H as [[] | H]. exact H.
Qed.

Lemma uniq_fold_keys (cs : list Candidate) :
  map fst (fold_left uniqStep cs [])
  = arrayFromSet string_eqb (map candidateKey cs).
Proof.
  induction cs as [|c seen IH] using rev_ind; [reflexivity|].
  rewrite fold_left_app, map_app. cbn [fold_left map].
  rewrite arrayFromSet_snoc.
  set (m := fold_left uniqStep seen []) in *.
  unfold uniqStep, setAdd, Map_has.
  destruct (Map_get (candidateKey c) m) as [c0|] eqn:G.
  - apply Map_get_In in G. apply (in_map fst) in G. simpl in G.
    rewrite IH in G. apply (@mem_In _ string_eqb string_eqb_eq) in G.
    rewrite G. exact IH.
  - rewrite Map_set_fresh by exact G. rewrite map_app. simpl. rewrite IH.
    apply Map_get_None in G. rewrite IH in G.
    destruct (mem string_eqb (candidateKey c)
                (arrayFromSet string_eqb (map candidateKey seen))) eqn:E;
      [|reflexivity].
    apply (@mem_In _ string_eqb string_eqb_eq) in E. contradiction.
Qed.

(** X5. Every candidate reported by [findCandidates] is page-true: it
    carries the number of an input page, and either its sentence is a
    sentence of that page, its match is a (trimmed) match of the pattern
    of its kind in that sentence and occurs in the sentence, and its url
    is the first URL of the sentence; or it is a url candidate with the
    empty sentence whose match and url are a link of that page. *)
Theorem findCandidates_provenance (pages : list PageRecord) (c : Candidate) :
  In c (findCandidates pages) ->
  exists p, In p pages /\ c_page c = p_page p
    /\ ((exists sn m,
           In sn (splitSentences (p_text p)) /\ c_sentence c = sn
           /\ In m (matchAll (PATTERNS (c_kind c)) sn) /\ c_match c = trim m
           /\ infix (c_match c) (c_sentence c)
           /\ c_url c = hd_error (matchAll (PATTERNS url) sn))
        \/ (c_kind c = url /\ c_sentence c = []
            /\ In (c_match c) (p_urls p) /\ c_url c = Some (c_match c))).
Proof.
  intros H. apply findCandidates_raw in H. unfold rawCandidates in H.
  apply in_flat_map in H. destruct H as [p [Hp H]]. exists p.
  split; [exact Hp|]. unfold pageCandidates in H. apply in_app_or in H.
  destruct H as [H | H].
  - apply in_flat_map in H. destruct H as [sn [Hsn H]].
    unfold sentenceCandidates in H. apply in_flat_map in H.
    destruct H as [k [_ H]]. apply in_map_iff in H.
    destruct H as [m [<- Hm]]. cbn [c_page c_sentence c_match c_kind c_url].
    split; [reflexivity|]. left. exists sn, m.
    rewrite (splitSentences_trimmed _ _ Hsn).
    repeat split; try assumption.
    eapply infix_trans; [apply trim_infix | apply (matchAll_infix _ _ _ Hm)].
  - unfold linkCandidates in H. apply in_map_iff in H.
    destruct H as [u [<- Hu]]. cbn [c_page c_sentence c_match c_kind c_url].
    split; [reflexivity|]. right. auto.
Qed.

Lemma findCandidates_provenance_witness :
  In shortCandidate (findCandidates (onePage "See Regulation 9."))
  /\ exists p, In p (onePage "See Regulation 9.")
               /\ c_page shortCandidate = p_page p.
Proof.
  assert (H : In shortCandidate (findCandidates (onePage "See Regulation 9.")))
    by (vm_compute; left; reflexivity).
  split; [exact H|].
  destruct (findCandidates_provenance _ _ H) as [p [Hp [Hn _]]].
  exists p. split; assumption.
Defined.

(** X6. Deduplication of candidates loses no key: the keys of the
    reported candidates are the keys of all candidates pushed, each
    once, in the order of first appearance, and every reported candidate
    is one that was pushed. *)
Theorem findCandidates_keeps_first_of_each_key (pages : list PageRecord) :
  map candidateKey (findCandidates pages)
  = arrayFromSet string_eqb (map candidateKey (rawCandidates pages))
  /\ (forall c, In c (rawCandidates pages) ->
                exists c', In c' (findCandidates pages)
                           /\ candidateKey c' = candidateKey c)
  /\ (forall c, In c (findCandidates pages) -> In c (rawCandidates pages))
  /\ length (findCandidates pages) <= length (rawCandidates pages).
Proof.
  assert (E : map candidateKey (findCandidates pages)
              = arrayFromSet string_eqb (map candidateKey (rawCandidates pages))).
  { rewrite <- uniq_fold_keys. unfold findCandidates, Map_values.
    fold (rawCandidates pages). rewrite map_map.
    assert (K : keyed (fold_left uniqStep (rawCandidates pages) [])).
    { apply uniq_fold_keyed. split; constructor. }
    destruct K as [_ K]. rewrite Forall_forall in K.
    apply map_ext_in. intros kv Hin. symmetry. apply K, Hin. }
  split; [exact E|]. split; [|split].
  - intros c Hc.
    assert (Hk : In (candidateKey c) (map candidateKey (findCandidates pages))).
    { rewrite E. apply (@arrayFromSet_In _ string_eqb string_eqb_eq).
      apply in_map, Hc. }
    apply in_map_iff in Hk. destruct Hk as [c' [Ek Hc']]. exists c'. auto.
  - apply findCandidates_raw.
  - rewrite <- (length_map candidateKey (findCandidates pages)), E.
    rewrite <- (length_map candidateKey (rawCandidates pages)).
    apply arrayFromSet_length.
Qed.

Lemma findCandidates_keeps_first_of_each_key_witness :
  length (rawCandidates (onePage "See Regulation 9. See Regulation 9.")) = 2
  /\ length (findCandidates (onePage "See Regulation 9. See Regulation 9.")) = 1
  /\ map candidateKey
       (findCandidates (onePage "See Regulation 9. See Regulation 9."))
     = arrayFromSet string_eqb
         (map candidateKey
            (rawCandidates (onePage "See Regulation 9. See Regulation 9.")))
  /\ forall c,
       In c (findCandidates (onePage "See Regulation 9. See Regulation 9.")) ->
       In c (rawCandidates (onePage "See Regulation 9. See Regulation 9.")).
Proof.
  split; [vm_compute; reflexivity|]. split; [vm_compute; reflexivity|].
  destruct (findCandidates_keeps_first_of_each_key
              (onePage "See Regulation 9. See Regulation 9."))
    as [E [_ [S _]]].
  split; [exact E | exact S].
Defined.

(** ** The rules-only run *)

Lemma findCandidates_page (pages : list PageRecord) (c : Candidate) :
  In c (findCandidates pages) -> In (c_page c) (map p_page pages).
Proof.
  intros H. apply findCandidates_raw in H. unfold rawCandidates in H.
  apply in_flat_map in H. destruct H as [p [Hp H]].
  apply in_map_iff. exists p. split; [|exact Hp].
  unfold pageCandidates in H. apply in_app_or in H. destruct H as [H | H].
  - apply in_flat_map in H. destruct H as [sn [_ H]].
    unfold sentenceCandidates in H. apply in_flat_map in H.
    destruct H as [k [_ H]]. apply in_map_iff in H.
    destruct H as [m [<- _]]. reflexivity.
  - unfold linkCandidates in H. apply in_map_iff in H.
    destruct H as [u [<- _]]. reflexivity.
Qed.

Lemma anchor_merge_fold (g : list ReferenceItem) (m : ReferenceItem) :
  (forall r, In r g -> r_anchorPageHint r = None) ->
  r_anchorPageHint (fold_left merge g m) = r_anchorPageHint m.
Proof.
  revert m; induction g as [|r g IH]; intros m H; simpl; [reflexivity|].
  rewrite IH by (intros r' Hr'; apply H; right; exact Hr').
  simpl. rewrite (H r (or_introl eq_refl)). simpl.
  rewrite andb_false_r. reflexivity.
Qed.

Lemma NoDup_map_inj (A B : Type) (f : A -> B) (l : list A) (a b : A) :
  NoDup (map f l) -> In a l -> In b l -> f a = f b -> a = b.
Proof.
  induction l as [|x l IH]; simpl; intros Hnd Ha Hb E; [contradiction|].
  inversion Hnd as [|? ? Hn Hnd']; subst.
  destruct Ha as [-> | Ha], Hb as [-> | Hb]; auto.
  - exfalso. apply Hn. rewrite E. apply in_map, Hb.
  - exfalso. apply Hn. rewrite <- E. apply in_map, Ha.
Qed.

(** The records of the merged rules-only output. *)
Lemma rules_only_records
    (lc : jsstring -> jsstring) (pages : list PageRecord) (m : ReferenceItem) :
  In m (dedupe lc (map toItem (findCandidates pages))) ->
  r_title m = None /\ r_anchorPageHint m = None
  /\ r_confidence m = conf04
  /\ r_pages m <> []
  /\ (forall p, In p (r_pages m) -> In p (map p_page pages))
  /\ r_snippets m <> []
  /\ (forall sn, In sn (r_snippets m) ->
                 exists c, In c (findCandidates pages) /\ sn = snippetOf c).
Proof.
  intros Hin. destruct (dedupe_entry _ _ _ Hin) as [r [g [Hg Hm]]].
  assert (Hsub : forall r', In r' (r :: g) ->
                   exists c, In c (findCandidates pages) /\ r' = toItem c).
  { intros r' Hr'. rewrite <- Hg in Hr'. apply group_key in Hr'.
    destruct Hr' as [Hr' _]. apply in_map_iff in Hr'.
    destruct Hr' as [c [<- Hc]]. exists c. auto. }
  destruct (Hsub r (or_introl eq_refl)) as [c0 [Hc0 Er]].
  destruct (fields_merge_fold g (inserted r)) as [_ [Ft _]].
  split; [rewrite Hm, Ft, Er; reflexivity|].
  split.
  { rewrite Hm, anchor_merge_fold; [rewrite Er; reflexivity|].
    intros r' Hr'. destruct (Hsub r' (or_intror Hr')) as [c [_ ->]].
    reflexivity. }
  split.
  { assert (Hi := merge_fold_confidence_In g (inserted r)).
    rewrite <- Hm in Hi.
    change (r_confidence (inserted r) :: map r_confidence g)
      with (map r_confidence (r :: g)) in Hi.
    apply in_map_iff in Hi. destruct Hi as [r' [<- Hr']].
    destruct (Hsub r' Hr') as [c [_ ->]]. reflexivity. }
  assert (Hpages : forall p, In p (r_pages m) <->
                     exists r', In r' (r :: g) /\ In p (r_pages r')).
  { intros p. rewrite Hm, merge_fold_pages_In. simpl.
    rewrite sortAsc_In, (@arrayFromSet_In _ Z.eqb Z.eqb_eq), in_flat_map.
    split.
    - intros [H | [r' [Hr' H]]]; [exists r | exists r']; auto.
    - intros [r' [[<- | Hr'] H]]; [left | right; exists r']; auto. }
  assert (Hsnips : forall sn, In sn (r_snippets m) <->
                     exists r', In r' (r :: g) /\ In sn (r_snippets r')).
  { intros sn. rewrite Hm, merge_fold_snippets_In. simpl.
    rewrite (@arrayFromSet_In _ string_eqb string_eqb_eq), in_flat_map.
    split.
    - intros [H | [r' [Hr' H]]]; [exists r | exists r']; auto.
    - intros [r' [[<- | Hr'] H]]; [left | right; exists r']; auto. }
  split; [|split; [|split]].
  + intros E.
    assert (H : In (c_page c0) (r_pages m)).
    { apply Hpages. exists r. split; [left; reflexivity|].
      rewrite Er. left; reflexivity. }
    rewrite E in H. contradiction.
  + intros p Hp. apply Hpages in Hp. destruct Hp as [r' [Hr' Hp]].
    destruct (Hsub r' Hr') as [c [Hc ->]]. simpl in Hp.
    destruct Hp as [<- | []]. apply findCandidates_page, Hc.
  + intros E.
    assert (H : In (snippetOf c0) (r_snippets m)).
    { apply Hsnips. exists r. split; [left; reflexivity|].
      rewrite Er. left; reflexivity. }
    rewrite E in H. contradiction.
  + intros sn Hs. apply Hsnips in Hs. destruct Hs as [r' [Hr' Hs]].
    destruct (Hsub r' Hr') as [c [Hc ->]]. simpl in Hs.
    destruct Hs as [<- | []]. exists c. auto.
Qed.

(** X7. A rules-only run cannot fail once the pages are extracted: it
    ends with exit code 0 and writes a list in which every record has no
    title and no anchorPageHint, confidence 0.4, a non-empty list of
    pages that are all page numbers of the document, and a non-empty
    list of snippets that are each the sentence (or, failing that, the
    match) of a reported candidate. *)
Theorem rules_only_run
    (toLowerCase : jsstring -> jsstring)
    (normalizeWithLLM : list Candidate -> option (list ReferenceItem))
    (pages : list PageRecord) :
  exists out,
    main toLowerCase normalizeWithLLM true (Some pages)
    = {| exitCode := 0; outJson := Some out |}
    /\ forall m, In m out ->
         r_title m = None /\ r_anchorPageHint m = None
         /\ r_confidence m = conf04
         /\ r_pages m <> []
         /\ (forall p, In p (r_pages m) -> In p (map p_page pages))
         /\ r_snippets m <> []
         /\ (forall sn, In sn (r_snippets m) ->
                        exists c, In c (findCandidates pages)
                                  /\ sn = snippetOf c).
Proof.
  exists (dedupe toLowerCase (map toItem (findCandidates pages))). split.
  - unfold main. destruct (findCandidates pages); reflexivity.
  - apply rules_only_records.
Qed.

Lemma rules_only_run_witness :
  exists out,
    main asciiToLowerCase (fun _ => None) true (Some twoUrlPage)
    = {| exitCode := 0; outJson := Some out |}
    /\ out <> []
    /\ forall m, In m out ->
         r_title m = None /\ r_anchorPageHint m = None
         /\ r_confidence m = conf04.
Proof.
  destruct (rules_only_run asciiToLowerCase (fun _ => None) twoUrlPage)
    as [out [E H]].
  exists out. split; [exact E|]. split.
  - intros ->. vm_compute in E. discriminate E.
  - intros m Hm. destruct (H m Hm) as [A [B [C _]]].
    split; [exact A|]. split; [exact B | exact C].
Defined.

(** X8. In the output of a rules-only run two records of the same type
    that carry no identifier are one and the same record.  Only the
    circularCode and regulation kinds give an identifier, so the output
    holds at most one record of each of the types Master Circular,
    Act Section, Schedule, Chapter, Clause and URL, however many
    different ones the document cites. *)
Theorem rules_only_unidentified_collapse
    (toLowerCase : jsstring -> jsstring) (pages : list PageRecord)
    (m1 m2 : ReferenceItem) :
  In m1 (dedupe toLowerCase (map toItem (findCandidates pages))) ->
  In m2 (dedupe toLowerCase (map toItem (findCandidates pages))) ->
  r_type m1 = r_type m2 ->
  (r_identifier m1 = None /\ r_identifier m2 = None)
  \/ (r_type m1 <> Circular /\ r_type m1 <> Regulation) ->
  m1 = m2.
Proof.
  intros H1 H2 Et Hid.
  assert (F : forall m,
             In m (dedupe toLowerCase (map toItem (findCandidates pages))) ->
             r_title m = None
             /\ (r_type m <> Circular -> r_type m <> Regulation ->
                 r_identifier m = None)).
  { intros m Hin. destruct (dedupe_entry _ _ _ Hin) as [r [g [Hg Hm]]].
    assert (Hr : In r (group toLowerCase (key toLowerCase m)
                          (map toItem (findCandidates pages))))
      by (rewrite Hg; left; reflexivity).
    apply group_key in Hr. destruct Hr as [Hr _]. apply in_map_iff in Hr.
    destruct Hr as [c [Er _]].
    destruct (fields_merge_fold g (inserted r)) as [Fy [Ft Fi]].
    rewrite Hm, Fy, Ft, Fi, <- Er. simpl. split; [reflexivity|].
    destruct (c_kind c); simpl; congruence. }
  destruct (F m1 H1) as [T1 I1]. destruct (F m2 H2) as [T2 I2].
  assert (Hi : r_identifier m1 = None /\ r_identifier m2 = None).
  { destruct Hid as [Hid | [Hc Hr]]; [exact Hid|].
    split; [apply I1 | apply I2]; congruence. }
  destruct Hi as [J1 J2].
  eapply (NoDup_map_inj (key toLowerCase)); try eassumption.
  - rewrite dedupe_keys. apply arrayFromSet_NoDup, string_eqb_eq.
  - unfold key. rewrite Et, T1, T2, J1, J2. reflexivity.
Qed.

Lemma rules_only_unidentified_collapse_witness :
  matchesOfKind url (findCandidates twoUrlPage)
  = [str "http://a.in/x"; str "HTTPS://b.in/y#page=4"]
  /\ map r_url (rulesOnly twoUrlPage) = [Some (str "http://a.in/x")]
  /\ forall m, In m (rulesOnly twoUrlPage) ->
               m = hd recOther (rulesOnly twoUrlPage).
Proof.
  split; [vm_compute; reflexivity|]. split; [vm_compute; reflexivity|].
  intros m Hm.
  apply (@rules_only_unidentified_collapse asciiToLowerCase twoUrlPage).
  - exact Hm.
  - vm_compute. left; reflexivity.
  - destruct Hm as [<- | []]. reflexivity.
  - right. destruct Hm as [<- | []]. split; discriminate.
Defined.

(** ** What segmentation keeps *)

Lemma sentence_break_guarded :
  guarded (fun u => isWhiteSpace u = true) false (source SENTENCE_BREAK).
Proof.
  cbn [SENTENCE_BREAK source rx seq plus s cls guarded].
  repeat split. intros u H. apply space_class, H.
Qed.

(** A match of the split pattern reads whitespace only. *)
Lemma sentence_break_consumes (x e : pos) :
  matchAt SENTENCE_BREAK x = Some e -> exists w, consumes x w e /\ blank w.
Proof.
  intros H. unfold matchAt in H.
  apply compile_sound in H; [|apply patterns_wellFormed].
  destruct H as [y [Hd Hy]]. inversion Hy; subst y.
  apply (den_guarded _ _ _ sentence_break_guarded _ _ Hd).
Qed.

Lemma splitLoop_ink (fuel p : nat) (chunk : jsstring) (x : pos) :
  2 * length (rest x) + (if Nat.eqb (endIndex x) p then 0 else 1) < fuel ->
  concat (map inkOf (splitLoop fuel SENTENCE_BREAK p chunk x))
  = inkOf (rev chunk ++ rest x).
Proof.
  revert p chunk x; induction fuel as [|fuel IH]; intros p chunk x Hf; [lia|].
  simpl. destruct (rest x) as [|u t] eqn:Er.
  - simpl. rewrite !app_nil_r. reflexivity.
  - assert (Hnext : concat (map inkOf
              (splitLoop fuel SENTENCE_BREAK p (u :: chunk)
                         {| prev := u :: prev x; rest := t |}))
            = inkOf (rev chunk ++ u :: t)).
    { rewrite IH.
      - simpl. rewrite <- app_assoc. reflexivity.
      - cbn [length] in Hf. cbn [rest].
        destruct (Nat.eqb (endIndex x) p);
          destruct (Nat.eqb (endIndex {| prev := u :: prev x; rest := t |}) p);
          lia. }
    destruct (matchAt SENTENCE_BREAK x) as [e|] eqn:E; [|exact Hnext].
    destruct (Nat.eqb_spec (endIndex e) p) as [Ep|Ep]; [exact Hnext|].
    apply sentence_break_consumes in E. destruct E as [w [Hc Hb]].
    assert (Hl := consumes_lengths Hc). destruct Hc as [R _].
    rewrite Er in R, Hl. cbn [length] in Hf, Hl.
    simpl. rewrite IH.
    + simpl. rewrite R, !inkOf_app, (blank_ink Hb). reflexivity.
    + rewrite Nat.eqb_refl. destruct (Nat.eqb_spec (endIndex x) p); lia.
Qed.

Lemma split_ink (text : jsstring) :
  concat (map inkOf (split SENTENCE_BREAK text)) = inkOf text.
Proof.
  destruct text as [|u t]; [reflexivity|].
  unfold split. rewrite splitLoop_ink; [reflexivity | simpl; lia].
Qed.

Lemma splitLoop_infix (fuel p : nat) (chunk : jsstring) (x : pos)
    (piece : jsstring) :
  In piece (splitLoop fuel SENTENCE_BREAK p chunk x) ->
  infix piece (rev chunk ++ rest x).
Proof.
  revert p chunk x; induction fuel as [|fuel IH]; intros p chunk x H;
    simpl in H; [contradiction|].
  destruct (rest x) as [|u t] eqn:Er.
  - destruct H as [<- | []]. rewrite app_nil_r. apply infix_refl.
  - assert (Hnext : In piece (splitLoop fuel SENTENCE_BREAK p (u :: chunk)
                                {| prev := u :: prev x; rest := t |}) ->
                    infix piece (rev chunk ++ u :: t)).
    { intros H'. apply IH in H'. simpl in H'. rewrite <- app_assoc in H'.
      exact H'. }
    destruct (matchAt SENTENCE_BREAK x) as [e|] eqn:E; [|auto].
    destruct (Nat.eqb (endIndex e) p); [auto|].
    destruct H as [<- | H].
    + exists [], (u :: t). reflexivity.
    + apply IH in H. simpl in H.
      apply sentence_break_consumes in E. destruct E as [w [[R _] _]].
      rewrite Er in R. rewrite R. destruct H as [pre [post Hr]].
      exists (rev chunk ++ w ++ pre), post. rewrite Hr, <- !app_assoc.
      reflexivity.
Qed.

Lemma split_infix (text piece : jsstring) :
  In piece (split SENTENCE_BREAK text) -> infix piece text.
Proof.
  destruct text as [|u t].
  - simpl. intros [<- | []]. apply infix_refl.
  - unfold split. intros H. apply splitLoop_infix in H. exact H.
Qed.

Lemma concat_ink_filter (l : list jsstring) :
  concat (map inkOf (filter truthy l)) = concat (map inkOf l).
Proof.
  induction l as [|a l IH]; simpl; [reflexivity|].
  destruct a; simpl; [exact IH | rewrite IH; reflexivity].
Qed.

Lemma terminator_not_space (u : N) : isTerminator u = true -> isWhiteSpace u = false.
Proof. unfold isTerminator, isWhiteSpace, between. intros H. ncases. Qed.

Lemma blank_no_split_point (text : jsstring) :
  blank text -> hasSplitPoint text = false.
Proof.
  induction 1 as [|u t Hu _ IH]; simpl; [reflexivity|].
  rewrite IH, orb_false_r. unfold splitPointAt.
  destruct (isTerminator u) eqn:E; [|reflexivity].
  apply terminator_not_space in E. congruence.
Qed.

(** X9. Segmentation loses nothing but whitespace: the non-whitespace
    code units of the sentences, read in order, are exactly those of the
    text. *)
Theorem splitSentences_keeps_ink (text : jsstring) :
  concat (map inkOf (splitSentences text)) = inkOf text.
Proof.
  unfold splitSentences.
  destruct (filter truthy (map trim (split SENTENCE_BREAK text))) eqn:E.
  - simpl. rewrite app_nil_r. apply trim_ink.
  - rewrite <- E, concat_ink_filter, map_map.
    rewrite <- (split_ink text). f_equal. apply map_ext. intros a.
    apply trim_ink.
Qed.

(** X10. Every sentence returned by the segmenter is a substring of the
    text without leading or trailing whitespace.  A sentence is empty
    only when the text is blank (empty or all whitespace), and a blank
    text gives exactly the one empty sentence. *)
Theorem splitSentences_sentences (text : jsstring) :
  (forall sn, In sn (splitSentences text) ->
              trim sn = sn /\ infix sn text /\ (sn = [] -> blank text))
  /\ (blank text -> splitSentences text = [[]]).
Proof.
  split.
  - intros sn H. split; [apply (splitSentences_trimmed _ _ H)|].
    unfold splitSentences in H.
    destruct (filter truthy (map trim (split SENTENCE_BREAK text))) eqn:E.
    + destruct H as [<- | []]. split; [apply trim_infix|]. apply trim_blank.
    + rewrite <- E in H. apply filter_In in H. destruct H as [H Ht].
      apply in_map_iff in H. destruct H as [y [<- Hy]]. split.
      * eapply infix_trans; [apply trim_infix | apply split_infix, Hy].
      * intros E0. rewrite E0 in Ht. discriminate.
  - intros Hb. unfold splitSentences.
    rewrite (split_no_break _ (blank_no_split_point Hb)). simpl.
    apply trim_blank in Hb. rewrite Hb. reflexivity.
Qed.

Lemma splitSentences_sentences_witness :
  In (str "Two;") (splitSentences (str " One. Two; (three)"))
  /\ trim (str "Two;") = str "Two;"
  /\ infix (str "Two;") (str " One. Two; (three)")
  /\ blank (str "  ") /\ splitSentences (str "  ") = [[]].
Proof.
  assert (H : In (str "Two;") (splitSentences (str " One. Two; (three)")))
    by (vm_compute; right; left; reflexivity).
  assert (Hb : blank (str "  ")) by (repeat constructor).
  destruct (splitSentences_sentences (str " One. Two; (three)")) as [H1 _].
  destruct (splitSentences_sentences (str "  ")) as [_ H2].
  destruct (H1 _ H) as [T [I _]].
  split; [exact H|]. split; [exact T|]. split; [exact I|].
  split; [exact Hb | exact (H2 Hb)].
Defined.

(** ** Where the segmenter splits *)

Lemma terminator_class_conv (u : N) :
  isTerminator u = true -> classMatches false terminators u = true.
Proof.
  unfold classMatches, terminators, atomMatches, canonicalize, isTerminator.
  cbn -[N.eqb N.leb]. intros H. ncases.
Qed.

Lemma opener_class_conv (u : N) :
  isOpener u = true -> classMatches false openers u = true.
Proof.
  unfold classMatches, openers, atomMatches, canonicalize, isOpener, between.
  cbn -[N.eqb N.leb]. intros H. ncases.
Qed.

Lemma space_class_conv (u : N) :
  isWhiteSpace u = true ->
  classMatches false {| negated := false; atoms := [Space] |} u = true.
Proof. unfold classMatches. simpl. intros ->. reflexivity. Qed.

(** A greedy quantifier over a character class succeeds when the
    continuation accepts the position after a run of matching
    characters that is long enough. *)
Lemma greedy_class_run (ic : bool) (cc : CharClass) (c : cont) (tail : jsstring) :
  forall (ws : jsstring) (fuel min : nat) (x z : pos),
    rest x = ws ++ tail ->
    Forall (fun u => classMatches ic cc u = true) ws ->
    min <= length ws -> length ws < fuel ->
    c {| prev := rev ws ++ prev x; rest := tail |} = Some z ->
    exists z', RepeatMatcher fuel (compile ic (Class cc)) min None true x c
               = Some z'.
Proof.
  induction ws as [|u ws IH]; intros fuel min x z Hr Hws Hmin Hf Hc;
    (destruct fuel as [|fuel]; [simpl in Hf; lia|]).
  - simpl in Hmin. assert (min = 0) by lia. subst min.
    cbn [RepeatMatcher Nat.eqb negb].
    assert (Ex : {| prev := rev [] ++ prev x; rest := tail |} = x)
      by (destruct x; simpl in *; subst; reflexivity).
    rewrite Ex in Hc. rewrite Hc.
    match goal with |- exists z', orElse ?a _ = _ => destruct a end;
      simpl; eexists; reflexivity.
  - inversion Hws as [|? ? Hu Hws']; subst.
    assert (Hstep : forall d : cont,
              compile ic (Class cc) x d
              = d {| prev := u :: prev x; rest := ws ++ tail |}).
    { intros d. simpl. rewrite Hr. simpl. rewrite Hu. reflexivity. }
    destruct (IH fuel (Nat.pred min) {| prev := u :: prev x; rest := ws ++ tail |} z)
      as [z' Hz']; try assumption; try reflexivity.
    + simpl in Hmin. lia.
    + simpl in Hf. lia.
    + simpl. simpl in Hc. rewrite <- app_assoc in Hc. exact Hc.
    + cbn [RepeatMatcher]. rewrite Hstep.
      assert (En : Nat.eqb (endIndex {| prev := u :: prev x; rest := ws ++ tail |})
                           (endIndex x) = false).
      { unfold endIndex. cbn [prev length]. apply Nat.eqb_neq. lia. }
      rewrite En, andb_false_r. cbn [option_map]. rewrite Hz'.
      exists z'. destruct (negb (Nat.eqb min 0)); reflexivity.
Qed.

(** The split pattern matches at every split point. *)
Lemma sentence_break_complete (x : pos) (a : N) (old : jsstring) :
  prev x = a :: old -> splitPointAt a (rest x) = true ->
  exists e, matchAt SENTENCE_BREAK x = Some e.
Proof.
  intros Hp Hs. unfold splitPointAt in Hs.
  apply andb_true_iff in Hs. destruct Hs as [Ha Hs].
  destruct (rest x) as [|w0 t'] eqn:Er; [discriminate|].
  apply andb_true_iff in Hs. destruct Hs as [Hw0 Hs].
  apply opensAfterSpaces_true in Hs.
  destruct Hs as [ws [v [post [-> [Hws Hv]]]]].
  unfold matchAt.
  cbn [SENTENCE_BREAK source ignoreCase rx seq plus s cls compile].
  rewrite Hp, (terminator_class_conv _ Ha).
  destruct (@greedy_class_run false {| negated := false; atoms := [Space] |}
              (fun y => match compile false (Class openers) y Some with
                        | Some _ => Some y
                        | None => None
                        end)
              (v :: post) (w0 :: ws) (1 + length (rest x) + 1) 1 x
              {| prev := rev (w0 :: ws) ++ prev x; rest := v :: post |})
    as [z' Hz'].
  - exact Er.
  - constructor; [apply space_class_conv, Hw0|].
    eapply Forall_impl; [|exact Hws]. intros u Hu. apply space_class_conv, Hu.
  - simpl. lia.
  - rewrite Er. simpl. rewrite length_app. simpl. lia.
  - cbn [compile rest]. rewrite (opener_class_conv _ Hv). reflexivity.
  - exists z'. exact Hz'.
Qed.

Lemma iter_class_consumes (ic : bool) (cc : CharClass) (n : nat) (x y : pos) :
  iter n (den ic (Class cc)) x y ->
  exists ws, length ws = n
             /\ Forall (fun u => classMatches ic cc u = true) ws
             /\ consumes x ws y.
Proof.
  revert x; induction n as [|n IH]; intros x H; simpl in H.
  - subst y. exists []. repeat split. constructor.
  - destruct H as [m [[u [Hr [Hp Hc]]] H]].
    destruct (IH _ H) as [ws [Hl [Hf [R P]]]].
    exists (u :: ws). simpl. split; [congruence|].
    split; [constructor; assumption|]. split.
    + rewrite Hr, R. reflexivity.
    + rewrite P, Hp. simpl. rewrite <- app_assoc. reflexivity.
Qed.

(** The shape of a match of the split pattern. *)
Lemma sentence_break_shape (x e : pos) :
  matchAt SENTENCE_BREAK x = Some e ->
  exists a old w v t,
    prev x = a :: old /\ isTerminator a = true
    /\ consumes x w e /\ w <> [] /\ blank w
    /\ rest e = v :: t /\ isOpener v = true.
Proof.
  intros H. unfold matchAt in H.
  apply compile_sound in H; [|apply patterns_wellFormed].
  destruct H as [y [H Hy]]. inversion Hy; subst y.
  cbn [SENTENCE_BREAK source ignoreCase rx seq plus s cls den] in H.
  destruct H as [m1 [[-> [a [old [Hp Ht]]]] [m2 [[n [Hn Hi]] [-> [e' Ho]]]]]].
  apply iter_class_consumes in Hi. destruct Hi as [ws [Hl [Hws Hc]]].
  destruct Ho as [v [Hv [_ Hcv]]].
  exists a, old, ws, v, (rest e'). repeat split; try assumption.
  - apply terminator_class, Ht.
  - apply Hc.
  - apply Hc.
  - intros ->. simpl in Hl. lia.
  - eapply Forall_impl; [|exact Hws]. intros u Hu. apply space_class, Hu.
  - apply opener_class, Hcv.
Qed.

(** With a split point ahead, the split loop returns a first piece and
    at least one more, each side holding a non-whitespace character. *)
Lemma splitLoop_two (fuel p : nat) (chunk old : jsstring) (x : pos) :
  2 * length (rest x) + (if Nat.eqb (endIndex x) p then 0 else 1) < fuel ->
  prev x = chunk ++ old -> length old = p ->
  (chunk = [] ->
   match prev x with [] => True | b :: _ => isWhiteSpace b = true end) ->
  hasSplitPoint (firstn 1 (prev x) ++ rest x) = true ->
  exists piece pieces,
    splitLoop fuel SENTENCE_BREAK p chunk x = piece :: pieces
    /\ inkOf piece <> [] /\ concat (map inkOf pieces) <> [].
Proof.
  revert chunk x; induction fuel as [|fuel IH]; intros chunk x Hf Hp Hl Hc Hs;
    [lia|].
  cbn [splitLoop]. destruct (rest x) as [|u t] eqn:Er.
  - exfalso. rewrite app_nil_r in Hs. destruct (prev x) as [|b l]; simpl in Hs;
      [discriminate|].
    unfold splitPointAt in Hs. rewrite andb_false_r in Hs. discriminate.
  - destruct (matchAt SENTENCE_BREAK x) as [e|] eqn:E.
    + destruct (sentence_break_shape _ E)
        as [a [old' [w [v [t2 [Hpa [Ha [Hco [Hw [Hb [Hre Hv]]]]]]]]]]].
      assert (Hlen := consumes_lengths Hco).
      assert (Hx : endIndex x = length chunk + p).
      { unfold endIndex. rewrite Hp, length_app. lia. }
      assert (Hwl : 0 < length w) by (destruct w; [congruence | simpl; lia]).
      destruct (Nat.eqb_spec (endIndex e) p) as [Ee|Ee]; [lia|].
      exists (rev chunk), (splitLoop fuel SENTENCE_BREAK (endIndex e) [] e).
      split; [reflexivity|]. split.
      * destruct chunk as [|c0 chunk'].
        -- specialize (Hc eq_refl). rewrite Hpa in Hc.
           apply terminator_not_space in Ha. congruence.
        -- rewrite Hpa in Hp. simpl in Hp. inversion Hp; subst c0.
           simpl. rewrite inkOf_app. simpl.
           rewrite (terminator_not_space _ Ha). simpl.
           intros E0. apply app_eq_nil in E0. destruct E0; discriminate.
      * rewrite splitLoop_ink.
        -- simpl. rewrite Hre. simpl. rewrite (opener_not_space _ Hv).
           simpl. discriminate.
        -- rewrite Nat.eqb_refl. rewrite Er in Hlen. cbn [length] in Hf, Hlen.
           destruct (Nat.eqb (endIndex x) p); lia.
    + assert (Hs' : hasSplitPoint (u :: t) = true).
      { destruct (prev x) as [|b l] eqn:Epx; simpl in Hs; [exact Hs|].
        apply orb_true_iff in Hs. destruct Hs as [Hs | Hs]; [|exact Hs].
        destruct (@sentence_break_complete x b l Epx) as [e He];
          [rewrite Er; exact Hs | congruence]. }
      destruct (IH (u :: chunk) {| prev := u :: prev x; rest := t |})
        as [piece [pieces [E1 [E2 E3]]]].
      * cbn [length] in Hf. cbn [rest].
        destruct (Nat.eqb (endIndex x) p);
          destruct (Nat.eqb (endIndex {| prev := u :: prev x; rest := t |}) p);
          lia.
      * simpl. rewrite Hp. reflexivity.
      * exact Hl.
      * discriminate.
      * exact Hs'.
      * exists piece, pieces. auto.
Qed.

Lemma ink_not_blank (w : jsstring) : inkOf w <> [] -> trim w <> [].
Proof.
  intros H E. apply trim_blank in E. apply blank_ink in E. contradiction.
Qed.

Lemma filter_trim_nonempty (l : list jsstring) :
  concat (map inkOf l) <> [] -> filter truthy (map trim l) <> [].
Proof.
  induction l as [|a l IH]; simpl; [congruence|].
  intros H. destruct (trim a) as [|u t] eqn:E; simpl; [|discriminate].
  apply IH. intros E0. apply H. rewrite E0, app_nil_r.
  apply trim_blank in E. apply blank_ink, E.
Qed.

Lemma isTerminator_spec (u : N) :
  isTerminator u = true <-> In u [46%N; 63%N; 33%N; 59%N].
Proof.
  unfold isTerminator. cbn [In]. split.
  - intros H. ncases; auto.
  - intros [<- | [<- | [<- | [<- | []]]]]; reflexivity.
Qed.

Lemma isOpener_spec (v : N) :
  isOpener v = true
  <-> (65 <= v <= 90)%N \/ In v [40%N; 8220%N; 34%N; 39%N].
Proof.
  unfold isOpener, between. cbn [In]. split.
  - intros H. ncases; auto 6.
  - intros [H | [<- | [<- | [<- | [<- | []]]]]]; try reflexivity.
    ncases.
Qed.

(** X11. A split point of a text is one of the code units . ? ! ;
    followed by one or more whitespace code units and then by a capital
    letter A to Z, an opening parenthesis, a left double quotation mark
    (U+201C), a double quote or an apostrophe.  The segmenter returns a
    single sentence exactly when the text has no split point; with a
    split point it returns at least two. *)
Theorem splitSentences_single_iff_no_split_point (text : jsstring) :
  (hasSplitPoint text = true
   <-> exists pre u ws v post,
         text = pre ++ u :: ws ++ v :: post
         /\ In u [46%N; 63%N; 33%N; 59%N]
         /\ ws <> [] /\ Forall (fun w => isWhiteSpace w = true) ws
         /\ ((65 <= v <= 90)%N \/ In v [40%N; 8220%N; 34%N; 39%N]))
  /\ (length (splitSentences text) = 1 <-> hasSplitPoint text = false)
  /\ (hasSplitPoint text = true -> 2 <= length (splitSentences text)).
Proof.
  assert (Two : hasSplitPoint text = true -> 2 <= length (splitSentences text)).
  { intros H. destruct text as [|u t]; [discriminate|].
    destruct (@splitLoop_two (2 * length (u :: t) + 2) 0 [] [] (start (u :: t)))
      as [piece [pieces [E [Hi Hr]]]]; try reflexivity.
    - simpl. lia.
    - exact H.
    - unfold splitSentences, split. rewrite E. simpl.
      destruct (trim piece) as [|c0 t0] eqn:Et;
        [exfalso; apply (ink_not_blank _ Hi), Et|].
      simpl. apply filter_trim_nonempty in Hr.
      destruct (filter truthy (map trim pieces)); [congruence | simpl; lia]. }
  split; [|split; [|exact Two]].
  - rewrite hasSplitPoint_spec. split.
    + intros [pre [u [ws [v [post [E [Hu [Hne [Hws Hv]]]]]]]]].
      exists pre, u, ws, v, post. rewrite <- isTerminator_spec, <- isOpener_spec.
      auto.
    + intros [pre [u [ws [v [post [E [Hu [Hne [Hws Hv]]]]]]]]].
      exists pre, u, ws, v, post. rewrite isTerminator_spec, isOpener_spec.
      auto.
  - split.
    + intros H1. destruct (hasSplitPoint text) eqn:E; [|reflexivity].
      specialize (Two eq_refl). lia.
    + intros H. unfold splitSentences. rewrite (split_no_break _ H). simpl.
      destruct (trim text); reflexivity.
Qed.

Lemma splitSentences_single_iff_no_split_point_witness :
  hasSplitPoint (str "note; 'B' follows") = true
  /\ length (splitSentences (str "note; 'B' follows")) = 2
  /\ 2 <= length (splitSentences (str "note; 'B' follows")).
Proof.
  assert (H : hasSplitPoint (str "note; 'B' follows") = true).
  { apply (proj1 (splitSentences_single_iff_no_split_point
                    (str "note; 'B' follows"))).
    exists (str "note"), 59%N, [32%N], 39%N, (str "B' follows").
    split; [reflexivity|]. split; [cbn [In]; auto|].
    split; [discriminate|]. split; [repeat constructor|].
    right. cbn [In]. auto. }
  split; [exact H|]. split; [vm_compute; reflexivity|].
  apply (proj2 (proj2 (splitSentences_single_iff_no_split_point
                         (str "note; 'B' follows")))).
  exact H.
Defined.

(** ** Global replace *)

Section ReplaceFacts.
Variable rx : RegExp.
Variable repl : jsstring.
Hypothesis rx_wf : wellFormed (source rx).

(** A property of all code units of subject and replacement holds for
    all code units of the result. *)
Lemma replaceLoop_Forall (Q : N -> Prop) :
  Forall Q repl ->
  forall fuel x, Forall Q (rest x) -> Forall Q (replaceLoop fuel rx repl x).
Proof.
  intros Hrepl. induction fuel as [|fuel IH]; intros x Hx; [constructor|].
  cbn [replaceLoop].
  assert (Hcopy : Forall Q
            match rest x with
            | [] => []
            | u :: t =>
                u :: replaceLoop fuel rx repl {| prev := u :: prev x; rest := t |}
            end).
  { destruct (rest x) as [|u t]; [constructor|].
    inversion Hx; subst. constructor; [assumption | apply IH; assumption]. }
  destruct (matchAt rx x) as [e|] eqn:E; [|exact Hcopy].
  destruct (Nat.eqb (endIndex e) (endIndex x)).
  - apply Forall_app. split; assumption.
  - apply Forall_app. split; [assumption|]. apply IH.
    apply matchAt_forward in E; [|exact rx_wf]. destruct E as [w [R _]].
    rewrite R in Hx. apply Forall_app in Hx. apply Hx.
Qed.

Lemma filter_all_out (pb : N -> bool) (w : jsstring) :
  Forall (fun u => pb u = true) w -> filter (fun u => negb (pb u)) w = [].
Proof.
  induction 1 as [|u w Hu _ IH]; simpl; [reflexivity|]. rewrite Hu. exact IH.
Qed.

(** When the pattern reads only code units of a kind, and the
    replacement holds only such, all other code units are kept, in
    order. *)
Lemma replaceLoop_filter (pb : N -> bool) :
  guarded (fun u => pb u = true) (ignoreCase rx) (source rx) ->
  Forall (fun u => pb u = true) repl ->
  forall fuel x, length (rest x) < fuel ->
    filter (fun u => negb (pb u)) (replaceLoop fuel rx repl x)
    = filter (fun u => negb (pb u)) (rest x).
Proof.
  intros G Hrepl. induction fuel as [|fuel IH]; intros x Hf; [lia|].
  cbn [replaceLoop].
  assert (Hcopy : filter (fun u => negb (pb u))
            match rest x with
            | [] => []
            | u :: t =>
                u :: replaceLoop fuel rx repl {| prev := u :: prev x; rest := t |}
            end
          = filter (fun u => negb (pb u)) (rest x)).
  { destruct (rest x) as [|u t]; [reflexivity|]. simpl.
    rewrite IH by (simpl in *; lia). reflexivity. }
  destruct (matchAt rx x) as [e|] eqn:E; [|exact Hcopy].
  unfold matchAt in E. apply (compile_sound _ _ rx_wf) in E.
  destruct E as [y [Hd Hy]]. inversion Hy; subst y.
  destruct (den_guarded _ _ _ G _ _ Hd) as [w [Hc Hw]].
  assert (Hl := consumes_lengths Hc). destruct Hc as [R _].
  destruct (Nat.eqb_spec (endIndex e) (endIndex x)) as [Ee|Ee];
    rewrite filter_app, (filter_all_out pb Hrepl); simpl;
    [exact Hcopy|].
  rewrite IH by lia. rewrite R, filter_app, (filter_all_out pb Hw).
  reflexivity.
Qed.

(** When the pattern matches, and reads something, wherever a code unit
    of a kind stands, and the replacement holds none, the result holds
    none. *)
Lemma replaceLoop_no_trigger (T : N -> bool) :
  (forall x u t, rest x = u :: t -> T u = true ->
                 exists e, matchAt rx x = Some e
                           /\ endIndex e <> endIndex x) ->
  Forall (fun u => T u = false) repl ->
  forall fuel x, Forall (fun u => T u = false) (replaceLoop fuel rx repl x).
Proof.
  intros Htrig Hrepl. induction fuel as [|fuel IH]; intros x; [constructor|].
  cbn [replaceLoop].
  destruct (matchAt rx x) as [e|] eqn:E.
  - destruct (Nat.eqb_spec (endIndex e) (endIndex x)) as [Ee|Ee].
    + apply Forall_app. split; [assumption|].
      destruct (rest x) as [|u t] eqn:Er; [constructor|].
      constructor; [|apply IH].
      destruct (T u) eqn:Et; [|reflexivity].
      destruct (Htrig x u t Er Et) as [e' [E' Hne]]. congruence.
    + apply Forall_app. split; [assumption | apply IH].
  - destruct (rest x) as [|u t] eqn:Er; [constructor|].
    constructor; [|apply IH].
    destruct (T u) eqn:Et; [|reflexivity].
    destruct (Htrig x u t Er Et) as [e' [E' _]]. congruence.
Qed.

(** Where the pattern matches nowhere, nothing is replaced. *)
Lemma replaceLoop_id :
  forall fuel x, length (rest x) < fuel ->
    (forall y, forward x y -> matchAt rx y = None) ->
    replaceLoop fuel rx repl x = rest x.
Proof.
  induction fuel as [|fuel IH]; intros x Hf Hno; [lia|].
  cbn [replaceLoop]. rewrite (Hno x (forward_refl x)).
  destruct (rest x) as [|u t] eqn:Er; [reflexivity|].
  rewrite IH; [reflexivity | simpl in *; lia |].
  intros y Hy. apply Hno. eapply forward_trans; [|exact Hy].
  exists [u]. split; [exact Er | reflexivity].
Qed.

End ReplaceFacts.

Lemma repair_patterns_wellFormed :
  wellFormed (source HYPHEN_BREAK) /\ wellFormed (source CARRIAGE_RETURN)
  /\ wellFormed (source NEWLINES) /\ wellFormed (source SPACES).
Proof. repeat split; simpl; unfold boundsOk; tauto. Qed.

Lemma one_class (c u : N) :
  classMatches false {| negated := false; atoms := [One c] |} u = true <-> u = c.
Proof.
  unfold classMatches, atomMatches, canonicalize. cbn -[N.eqb].
  rewrite orb_false_r, N.eqb_eq. split; congruence.
Qed.

(** The four patterns of [dehyphenate] read whitespace and hyphens
    only. *)
Lemma repair_patterns_guarded :
  guarded (fun u => spaceOrHyphen u = true) false (source HYPHEN_BREAK)
  /\ guarded (fun u => spaceOrHyphen u = true) false (source CARRIAGE_RETURN)
  /\ guarded (fun u => spaceOrHyphen u = true) false (source NEWLINES)
  /\ guarded (fun u => spaceOrHyphen u = true) false (source SPACES).
Proof.
  assert (H10 : forall u, classMatches false {| negated := false; atoms := [One 10] |} u = true ->
                          spaceOrHyphen u = true)
    by (intros u H; apply one_class in H; subst; reflexivity).
  assert (Hs : forall u, classMatches false {| negated := false; atoms := [Space] |} u = true ->
                         spaceOrHyphen u = true).
  { intros u H. apply space_class in H. unfold spaceOrHyphen. rewrite H.
    reflexivity. }
  repeat split; try assumption.
  - intros u H. apply one_class in H. subst. reflexivity.
  - intros u H. apply one_class in H. subst. reflexivity.
Qed.

Lemma replace_letters (rx : RegExp) (repl sn : jsstring) :
  wellFormed (source rx) ->
  guarded (fun u => spaceOrHyphen u = true) (ignoreCase rx) (source rx) ->
  Forall (fun u => spaceOrHyphen u = true) repl ->
  lettersOf (replace rx repl sn) = lettersOf sn.
Proof.
  intros W G R. unfold lettersOf, replace.
  rewrite (@replaceLoop_filter rx repl W spaceOrHyphen G R); [reflexivity|].
  simpl. lia.
Qed.

(** X12. [dehyphenate] removes and inserts nothing but whitespace and
    hyphens: the other code units of the input come out unchanged and in
    the same order. *)
Theorem dehyphenate_keeps_letters (input : jsstring) :
  lettersOf (dehyphenate input) = lettersOf input.
Proof.
  destruct repair_patterns_wellFormed as [W1 [W2 [W3 W4]]].
  destruct repair_patterns_guarded as [G1 [G2 [G3 G4]]].
  unfold dehyphenate.
  rewrite (@replace_letters SPACES space _ W4 G4) by (repeat constructor).
  rewrite (@replace_letters NEWLINES space _ W3 G3) by (repeat constructor).
  rewrite (@replace_letters CARRIAGE_RETURN [] _ W2 G2) by constructor.
  apply (@replace_letters HYPHEN_BREAK [] _ W1 G1). constructor.
Qed.

(** ** The patterns of dehyphenate *)

Lemma quant_class_shape (ic : bool) (cc : CharClass) (min : nat) (g : bool)
    (x e : pos) :
  compile ic (Quant (Class cc) min None g) x Some = Some e ->
  exists ws, min <= length ws
             /\ Forall (fun u => classMatches ic cc u = true) ws
             /\ consumes x ws e.
Proof.
  intros H. apply compile_sound in H; [|simpl; unfold boundsOk; tauto].
  destruct H as [y [Hd Hy]]. inversion Hy; subst y.
  destruct Hd as [n [Hn Hi]]. apply iter_class_consumes in Hi.
  destruct Hi as [ws [Hl [Hf Hc]]]. exists ws. repeat split; try apply Hc; auto.
  lia.
Qed.

Lemma repeat_zero_some (m : matcher) (f : nat) (y : pos) :
  exists z, RepeatMatcher (S f) m 0 None true y Some = Some z.
Proof.
  cbn [RepeatMatcher Nat.eqb negb].
  match goal with |- exists z, orElse ?a _ = _ => destruct a end;
    simpl; eexists; reflexivity.
Qed.

(** A greedy quantifier over a character class, followed by nothing,
    stops only where the class no longer matches. *)
Lemma greedy_class_max (ic : bool) (cc : CharClass) :
  forall (fuel min : nat) (x e : pos),
    min + length (rest x) < fuel ->
    RepeatMatcher fuel (compile ic (Class cc)) min None true x Some = Some e ->
    match rest e with
    | [] => True
    | v :: _ => classMatches ic cc v = false
    end.
Proof.
  induction fuel as [|fuel IH]; intros min x e Hf H; [lia|].
  cbn [RepeatMatcher] in H.
  destruct (rest x) as [|u t] eqn:Er.
  - assert (Hm : forall d : cont, compile ic (Class cc) x d = None)
      by (intros d; simpl; rewrite Er; reflexivity).
    rewrite Hm in H. destruct (Nat.eqb min 0); simpl in H; [|discriminate].
    inversion H; subst e. rewrite Er. exact I.
  - destruct (classMatches ic cc u) eqn:Ec.
    + assert (Hm : forall d : cont,
                compile ic (Class cc) x d
                = d {| prev := u :: prev x; rest := t |})
        by (intros d; simpl; rewrite Er, Ec; reflexivity).
      rewrite Hm in H.
      assert (En : Nat.eqb (endIndex {| prev := u :: prev x; rest := t |})
                           (endIndex x) = false).
      { unfold endIndex. cbn [prev length]. apply Nat.eqb_neq. lia. }
      rewrite En, andb_false_r in H. cbn [option_map] in H.
      destruct (Nat.eqb_spec min 0) as [E0|E0]; cbn [negb] in H.
      * subst min. destruct fuel as [|fuel']; [simpl in Hf; lia|].
        destruct (@repeat_zero_some (compile ic (Class cc)) fuel'
                    {| prev := u :: prev x; rest := t |}) as [z Hz].
        change (Nat.pred 0) with 0 in H. rewrite Hz in H. simpl in H.
        inversion H; subst z. apply (IH 0 _ _) in Hz; [exact Hz|].
        simpl in *. lia.
      * apply IH in H; [exact H|]. simpl in *. lia.
    + assert (Hm : forall d : cont, compile ic (Class cc) x d = None)
        by (intros d; simpl; rewrite Er, Ec; reflexivity).
      rewrite Hm in H. destruct (Nat.eqb min 0); simpl in H; [|discriminate].
      inversion H; subst e. rewrite Er. exact Ec.
Qed.

Lemma space_class_false (u : N) :
  classMatches false {| negated := false; atoms := [Space] |} u = false ->
  isWhiteSpace u = false.
Proof. unfold classMatches. simpl. rewrite orb_false_r. auto. Qed.

(** /\r/ matches, and reads one code unit, at every carriage return. *)
Lemma carriage_return_trigger (x : pos) (u : N) (t : jsstring) :
  rest x = u :: t -> N.eqb u 13 = true ->
  exists e, matchAt CARRIAGE_RETURN x = Some e /\ endIndex e <> endIndex x.
Proof.
  intros Hr Hu. apply N.eqb_eq in Hu. subst u.
  exists {| prev := 13%N :: prev x; rest := t |}. split.
  - unfold matchAt. simpl. rewrite Hr. reflexivity.
  - unfold endIndex. simpl. lia.
Qed.

(** /\n+/ matches, and reads something, at every line feed. *)
Lemma newlines_trigger (x : pos) (u : N) (t : jsstring) :
  rest x = u :: t -> N.eqb u 10 = true ->
  exists e, matchAt NEWLINES x = Some e /\ endIndex e <> endIndex x.
Proof.
  intros Hr Hu. apply N.eqb_eq in Hu. subst u.
  destruct (@greedy_class_run false {| negated := false; atoms := [One 10] |}
              Some t [10%N] (1 + length (rest x) + 1) 1 x
              {| prev := rev [10%N] ++ prev x; rest := t |}) as [e He];
    try reflexivity.
  - exact Hr.
  - repeat constructor.
  - simpl. lia.
  - exists e. split; [exact He|].
    apply quant_class_shape in He. destruct He as [ws [Hl [_ Hc]]].
    apply consumes_lengths in Hc. lia.
Qed.

(** The shape of a match of /\s{2,}/. *)
Lemma spaces_shape (x e : pos) :
  matchAt SPACES x = Some e ->
  (exists a b t, rest x = a :: b :: t
                 /\ isWhiteSpace a = true /\ isWhiteSpace b = true)
  /\ endIndex e <> endIndex x
  /\ length (rest e) < length (rest x)
  /\ match rest e with [] => True | v :: _ => isWhiteSpace v = false end.
Proof.
  intros H. unfold matchAt in H.
  cbn [SPACES source ignoreCase rx seq s cls] in H.
  assert (Hmax := H). cbn [compile] in Hmax.
  apply greedy_class_max in Hmax; [|lia].
  apply quant_class_shape in H. destruct H as [ws [Hl [Hws Hc]]].
  assert (Hlen := consumes_lengths Hc). destruct Hc as [R _].
  destruct ws as [|a [|b ws]]; simpl in Hl; try lia.
  inversion Hws as [|? ? Ha Hws']; subst.
  inversion Hws' as [|? ? Hb _]; subst.
  split; [|split; [|split]].
  - exists a, b, (ws ++ rest e). rewrite R.
    repeat split; [apply space_class, Ha | apply space_class, Hb].
  - simpl in Hlen. lia.
  - simpl in Hlen. lia.
  - destruct (rest e); [exact I | apply space_class_false, Hmax].
Qed.

(** /\s{2,}/ matches wherever two whitespace code units stand. *)
Lemma spaces_complete (x : pos) (a b : N) (t : jsstring) :
  rest x = a :: b :: t -> isWhiteSpace a = true -> isWhiteSpace b = true ->
  exists e, matchAt SPACES x = Some e.
Proof.
  intros Hr Ha Hb.
  destruct (@greedy_class_run false {| negated := false; atoms := [Space] |}
              Some t [a; b] (2 + length (rest x) + 1) 2 x
              {| prev := rev [a; b] ++ prev x; rest := t |}) as [e He];
    try reflexivity.
  - exact Hr.
  - repeat constructor; apply space_class_conv; assumption.
  - simpl. lia.
  - exists e. exact He.
Qed.

(** A match of the hyphen-break pattern reads a line feed. *)
Lemma hyphen_break_shape (x e : pos) :
  matchAt HYPHEN_BREAK x = Some e -> In 10%N (rest x).
Proof.
  intros H. unfold matchAt in H.
  apply compile_sound in H; [|apply repair_patterns_wellFormed].
  destruct H as [y [H _]].
  cbn [HYPHEN_BREAK source ignoreCase rx seq star s cls chr den] in H.
  destruct H as [m1 [[u1 [R1 _]] [m2 [[n [_ Hi]] [m3 [[u3 [R3 [_ C3]]] _]]]]]].
  apply iter_class in Hi. destruct Hi as [ws [_ [_ R2]]].
  apply one_class in C3. subst u3.
  rewrite R1, R2, R3. right. apply in_or_app. right. left. reflexivity.
Qed.

Lemma carriage_return_shape (x e : pos) :
  matchAt CARRIAGE_RETURN x = Some e -> exists t, rest x = 13%N :: t.
Proof.
  unfold matchAt. simpl. destruct (rest x) as [|u t]; [discriminate|].
  destruct (classMatches false {| negated := false; atoms := [One 13] |} u)
    eqn:E; [|discriminate].
  apply one_class in E. subst u. intros _. exists t. reflexivity.
Qed.

Lemma newlines_shape (x e : pos) :
  matchAt NEWLINES x = Some e -> exists t, rest x = 10%N :: t.
Proof.
  intros H. unfold matchAt in H.
  cbn [NEWLINES source ignoreCase rx seq plus cls] in H.
  apply quant_class_shape in H. destruct H as [ws [Hl [Hws [R _]]]].
  destruct ws as [|u ws]; [simpl in Hl; lia|].
  inversion Hws as [|? ? Hu _]; subst. apply one_class in Hu. subst u.
  exists (ws ++ rest e). exact R.
Qed.

(** ** What dehyphenate returns *)

(** X13. The text returned by [dehyphenate] holds neither a line feed
    nor a carriage return. *)
Theorem dehyphenate_no_line_break (input : jsstring) :
  Forall (fun u => notLineBreak u = true) (dehyphenate input).
Proof.
  destruct repair_patterns_wellFormed as [_ [_ [W3 W4]]].
  unfold dehyphenate.
  set (s1 := replace HYPHEN_BREAK [] input).
  assert (H2 : Forall (fun u => N.eqb u 13 = false)
                      (replace CARRIAGE_RETURN [] s1)).
  { apply replaceLoop_no_trigger; [apply carriage_return_trigger | constructor]. }
  set (s2 := replace CARRIAGE_RETURN [] s1) in *.
  assert (H3 : Forall (fun u => notLineBreak u = true)
                      (replace NEWLINES space s2)).
  { assert (A : Forall (fun u => N.eqb u 10 = false) (replace NEWLINES space s2)).
    { apply replaceLoop_no_trigger; [apply newlines_trigger|].
      repeat constructor. }
    assert (B : Forall (fun u => N.eqb u 13 = false) (replace NEWLINES space s2)).
    { apply (@replaceLoop_Forall NEWLINES space W3); [repeat constructor|].
      exact H2. }
    rewrite Forall_forall in *. intros u Hu. unfold notLineBreak.
    rewrite (A u Hu), (B u Hu). reflexivity. }
  apply (@replaceLoop_Forall SPACES space W4); [repeat constructor | exact H3].
Qed.

Lemma singleSpaced_ink (u : N) (l : jsstring) :
  isWhiteSpace u = false -> singleSpaced (u :: l) = singleSpaced l.
Proof.
  intros Hu. destruct l as [|b l]; [reflexivity|].
  cbn [singleSpaced]. rewrite Hu. reflexivity.
Qed.

Lemma singleSpaced_space (u : N) (l : jsstring) :
  match l with [] => True | b :: _ => isWhiteSpace b = false end ->
  singleSpaced (u :: l) = singleSpaced l.
Proof.
  destruct l as [|b l]; [reflexivity|]. intros Hb.
  cbn [singleSpaced]. rewrite Hb, andb_false_r. reflexivity.
Qed.

Lemma collapse_single_spaced (fuel : nat) (x : pos) :
  length (rest x) < fuel ->
  singleSpaced (replaceLoop fuel SPACES space x) = true
  /\ match rest x with
     | [] => replaceLoop fuel SPACES space x = []
     | v :: _ => isWhiteSpace v = false ->
                 exists t', replaceLoop fuel SPACES space x = v :: t'
     end.
Proof.
  revert x; induction fuel as [|fuel IH]; intros x Hf; [lia|].
  cbn [replaceLoop].
  destruct (matchAt SPACES x) as [e|] eqn:E.
  - destruct (spaces_shape _ E) as [[a [b [t [Hr [Ha Hb]]]]] [Hne [Hlt Hmax]]].
    apply Nat.eqb_neq in Hne. rewrite Hne.
    destruct (IH e) as [S1 H1]; [lia|].
    split.
    + change (space ++ replaceLoop fuel SPACES space e)
        with (32%N :: replaceLoop fuel SPACES space e).
      rewrite singleSpaced_space; [exact S1|].
      destruct (rest e) as [|v r]; [rewrite H1; exact I|].
      destruct (H1 Hmax) as [t' ->]. exact Hmax.
    + rewrite Hr. intros Hv. congruence.
  - destruct (rest x) as [|u t] eqn:Er; [split; reflexivity|].
    destruct (IH {| prev := u :: prev x; rest := t |}) as [S1 H1];
      [simpl in *; lia|].
    cbn [rest] in H1. split; [|intros _; eexists; reflexivity].
    destruct (isWhiteSpace u) eqn:Eu.
    + rewrite singleSpaced_space; [exact S1|].
      destruct t as [|v r]; [rewrite H1; exact I|].
      destruct (isWhiteSpace v) eqn:Ev.
      * destruct (@spaces_complete x u v r Er Eu Ev) as [e He]. congruence.
      * destruct (H1 eq_refl) as [t' ->]. exact Ev.
    + rewrite singleSpaced_ink; [exact S1 | exact Eu].
Qed.

(** X14. In the text returned by [dehyphenate] no two adjacent code
    units are both whitespace. *)
Theorem dehyphenate_single_spaced (input : jsstring) :
  singleSpaced (dehyphenate input) = true.
Proof.
  unfold dehyphenate, replace at 1. apply collapse_single_spaced. simpl. lia.
Qed.

Lemma singleSpaced_inside (w : jsstring) (a b : N) (t : jsstring) :
  singleSpaced (w ++ a :: b :: t) = true ->
  (isWhiteSpace a && isWhiteSpace b)%bool = false.
Proof.
  induction w as [|c w IH]; intros H.
  - cbn [app singleSpaced] in H. apply andb_true_iff in H.
    destruct H as [H _]. apply negb_true_iff in H. exact H.
  - apply IH. destruct w as [|c' w']; cbn [app singleSpaced] in H |- *;
      apply andb_true_iff in H; destruct H as [_ H]; exact H.
Qed.

Lemma replace_id (rx : RegExp) (repl sn : jsstring) :
  (forall y, forward (start sn) y -> matchAt rx y = None) ->
  replace rx repl sn = sn.
Proof.
  intros H. unfold replace. rewrite replaceLoop_id; [reflexivity | simpl; lia|].
  exact H.
Qed.

Lemma forward_start (sn : jsstring) (y : pos) :
  forward (start sn) y -> exists w, sn = w ++ rest y.
Proof. intros [w [R _]]. exists w. exact R. Qed.

(** A text without line breaks and without doubled whitespace is left
    as it is. *)
Lemma dehyphenate_clean (input : jsstring) :
  Forall (fun u => notLineBreak u = true) input ->
  singleSpaced input = true ->
  dehyphenate input = input.
Proof.
  intros Hlb Hss. rewrite Forall_forall in Hlb.
  unfold dehyphenate.
  assert (E1 : replace HYPHEN_BREAK [] input = input).
  { apply replace_id. intros y Hy. apply forward_start in Hy.
    destruct Hy as [w Hw].
    destruct (matchAt HYPHEN_BREAK y) as [e|] eqn:E; [|reflexivity].
    apply hyphen_break_shape in E.
    assert (Hin : In 10%N input) by (rewrite Hw; apply in_or_app; right; exact E).
    apply Hlb in Hin. discriminate. }
  rewrite E1.
  assert (E2 : replace CARRIAGE_RETURN [] input = input).
  { apply replace_id. intros y Hy. apply forward_start in Hy.
    destruct Hy as [w Hw].
    destruct (matchAt CARRIAGE_RETURN y) as [e|] eqn:E; [|reflexivity].
    apply carriage_return_shape in E. destruct E as [t Ht].
    assert (Hin : In 13%N input)
      by (rewrite Hw, Ht; apply in_or_app; right; left; reflexivity).
    apply Hlb in Hin. discriminate. }
  rewrite E2.
  assert (E3 : replace NEWLINES space input = input).
  { apply replace_id. intros y Hy. apply forward_start in Hy.
    destruct Hy as [w Hw].
    destruct (matchAt NEWLINES y) as [e|] eqn:E; [|reflexivity].
    apply newlines_shape in E. destruct E as [t Ht].
    assert (Hin : In 10%N input)
      by (rewrite Hw, Ht; apply in_or_app; right; left; reflexivity).
    apply Hlb in Hin. discriminate. }
  rewrite E3.
  apply replace_id. intros y Hy. apply forward_start in Hy.
  destruct Hy as [w Hw].
  destruct (matchAt SPACES y) as [e|] eqn:E; [|reflexivity].
  destruct (spaces_shape _ E) as [[a [b [t [Hr [Ha Hb]]]]] _].
  rewrite Hw, Hr in Hss. apply singleSpaced_inside in Hss.
  rewrite Ha, Hb in Hss. discriminate.
Qed.

(** X15. [dehyphenate] leaves a text without line breaks and without
    doubled whitespace as it is, and so it is idempotent: repairing a
    repaired text changes nothing. *)
Theorem dehyphenate_idempotent (input : jsstring) :
  (Forall (fun u => notLineBreak u = true) input ->
   singleSpaced input = true -> dehyphenate input = input)
  /\ dehyphenate (dehyphenate input) = dehyphenate input.
Proof.
  split; [apply dehyphenate_clean|].
  apply dehyphenate_clean.
  - destruct repair_patterns_wellFormed as [_ [_ [W3 W4]]].
    unfold dehyphenate.
    apply (@replaceLoop_Forall SPACES space W4); [repeat constructor|].
    assert (A : Forall (fun u => N.eqb u 10 = false)
                  (replace NEWLINES space
                     (replace CARRIAGE_RETURN [] (replace HYPHEN_BREAK [] input)))).
    { apply replaceLoop_no_trigger; [apply newlines_trigger|].
      repeat constructor. }
    assert (B : Forall (fun u => N.eqb u 13 = false)
                  (replace NEWLINES space
                     (replace CARRIAGE_RETURN [] (replace HYPHEN_BREAK [] input)))).
    { apply (@replaceLoop_Forall NEWLINES space W3); [repeat constructor|].
      apply replaceLoop_no_trigger; [apply carriage_return_trigger | constructor]. }
    rewrite Forall_forall in *. intros u Hu. unfold notLineBreak.
    rewrite (A u Hu), (B u Hu). reflexivity.
  - unfold dehyphenate, replace at 1. apply collapse_single_spaced. simpl. lia.
Qed.

Lemma dehyphenate_idempotent_witness :
  Forall (fun u => notLineBreak u = true) (str "Regulation 9(1) - as amended")
  /\ singleSpaced (str "Regulation 9(1) - as amended") = true
  /\ dehyphenate (str "Regulation 9(1) - as amended")
     = str "Regulation 9(1) - as amended".
Proof.
  assert (H1 : Forall (fun u => notLineBreak u = true)
                      (str "Regulation 9(1) - as amended"))
    by (repeat constructor).
  assert (H2 : singleSpaced (str "Regulation 9(1) - as amended") = true)
    by reflexivity.
  split; [exact H1|]. split; [exact H2|].
  exact (proj1 (dehyphenate_idempotent (str "Regulation 9(1) - as amended"))
               H1 H2).
Defined.

(** The two repairs of the specification's examples: a word broken by a
    hyphen at a line end is rejoined, a bare line break becomes a
    space. *)
Example dehyphenate_examples :
  dehyphenate (str "informa-" ++ [10%N] ++ str "tion") = str "information"
  /\ dehyphenate (str "a" ++ [10%N] ++ str "b") = str "a b".
Proof. split; vm_compute; reflexivity. Qed.

(** ** Page extraction *)

Lemma extractFrom_pages (doc : list RawPage) :
  forall i, map p_page (extractFrom i doc)
            = map (fun k => (i + Z.of_nat k)%Z) (List.seq 0 (length doc)).
Proof.
  induction doc as [|page doc IH]; intros i; simpl; [reflexivity|].
  rewrite Z.add_0_r. f_equal. rewrite IH, <- seq_shift, map_map.
  apply map_ext. intros k. lia.
Qed.

Lemma extractFrom_nth (doc : list RawPage) (page : RawPage) :
  forall k i, nth_error doc k = Some page ->
    nth_error (extractFrom i doc) k
    = Some {| p_page := i + Z.of_nat k;
              p_text := dehyphenate (join space (map orEmpty (textItems page)));
              p_urls := pageUrls (annotations page) |}.
Proof.
  induction doc as [|pg doc IH]; intros k i H; [destruct k; discriminate|].
  destruct k as [|k]; cbn [nth_error extractFrom] in *.
  - inversion H; subst pg. rewrite Z.add_0_r. reflexivity.
  - rewrite (IH k (i + 1)%Z H). do 2 f_equal. lia.
Qed.

(** What the repair does to any text. *)
Lemma dehyphenate_repairs (input : jsstring) :
  lettersOf (dehyphenate input) = lettersOf input
  /\ Forall (fun u => notLineBreak u = true) (dehyphenate input)
  /\ singleSpaced (dehyphenate input) = true.
Proof.
  destruct repair_patterns_wellFormed as [W1 [W2 [W3 W4]]].
  destruct repair_patterns_guarded as [G1 [G2 [G3 G4]]].
  split; [|split].
  - unfold dehyphenate.
    rewrite (@replace_letters SPACES space _ W4 G4) by (repeat constructor).
    rewrite (@replace_letters NEWLINES space _ W3 G3) by (repeat constructor).
    rewrite (@replace_letters CARRIAGE_RETURN [] _ W2 G2) by constructor.
    apply (@replace_letters HYPHEN_BREAK [] _ W1 G1). constructor.
  - unfold dehyphenate.
    set (s2 := replace CARRIAGE_RETURN [] (replace HYPHEN_BREAK [] input)).
    assert (H2 : Forall (fun u => N.eqb u 13 = false) s2)
      by (apply replaceLoop_no_trigger;
          [apply carriage_return_trigger | constructor]).
    assert (A : Forall (fun u => N.eqb u 10 = false) (replace NEWLINES space s2))
      by (apply replaceLoop_no_trigger;
          [apply newlines_trigger | repeat constructor]).
    assert (B : Forall (fun u => N.eqb u 13 = false) (replace NEWLINES space s2))
      by (apply (@replaceLoop_Forall NEWLINES space W3);
          [repeat constructor | exact H2]).
    apply (@replaceLoop_Forall SPACES space W4); [repeat constructor|].
    rewrite Forall_forall in *. intros u Hu. unfold notLineBreak.
    rewrite (A u Hu), (B u Hu). reflexivity.
  - unfold dehyphenate, replace at 1. apply collapse_single_spaced. simpl. lia.
Qed.

(** Joining with a space adds no letter. *)
Lemma lettersOf_join (xs : list jsstring) :
  lettersOf (join space xs) = lettersOf (concat xs).
Proof.
  unfold lettersOf. induction xs as [|a t IH]; [reflexivity|].
  destruct t as [|b t].
  - simpl. rewrite app_nil_r. reflexivity.
  - change (join space (a :: b :: t)) with (a ++ space ++ join space (b :: t)).
    rewrite 2!filter_app, IH.
    change (concat (a :: b :: t)) with (a ++ concat (b :: t)).
    rewrite filter_app. reflexivity.
Qed.

(** The urls kept for a page: those of its Link annotations that are
    not empty, in the order of the annotations. *)
Lemma pageUrls_spec (annots : list Annotation) :
  Forall (fun u => u <> []) (pageUrls annots)
  /\ map Some (pageUrls annots)
     = filter truthyString
         (map a_url
            (filter (fun a => string_eqb (a_subtype a) (str "Link")) annots)).
Proof.
  unfold pageUrls. induction annots as [|a t [IH1 IH2]]; [split; constructor|].
  cbn [filter].
  destruct (string_eqb (a_subtype a) (str "Link")); cbn [andb];
    [|split; assumption].
  cbn [map filter].
  destruct (a_url a) as [[|c v]|] eqn:Eu; cbn [truthyString truthy];
    try (split; assumption).
  cbn [map]. rewrite Eu. cbn [orEmpty].
  split; [constructor; [discriminate | exact IH1]|].
  rewrite IH2. reflexivity.
Qed.

(** X16. [extractPages] yields one record per page of the document, the
    k-th record for the k-th page, numbered 1, 2, ... .  The text of the
    record has the letters of the text items of that very page (all
    code units but whitespace and hyphens, in order), no line break and
    no doubled whitespace; its urls are the non-empty urls of the Link
    annotations of that very page, in their order. *)
Theorem extractPages_records (doc : list RawPage) :
  length (extractPages doc) = length doc
  /\ forall k page, nth_error doc k = Some page ->
       exists p, nth_error (extractPages doc) k = Some p
         /\ p_page p = Z.of_nat (S k)
         /\ lettersOf (p_text p)
            = lettersOf (concat (map orEmpty (textItems page)))
         /\ Forall (fun u => notLineBreak u = true) (p_text p)
         /\ singleSpaced (p_text p) = true
         /\ Forall (fun u => u <> []) (p_urls p)
         /\ map Some (p_urls p)
            = filter truthyString
                (map a_url
                   (filter (fun a => string_eqb (a_subtype a) (str "Link"))
                           (annotations page))).
Proof.
  split.
  - rewrite <- (length_map p_page). unfold extractPages.
    rewrite extractFrom_pages, length_map, length_seq. reflexivity.
  - intros k page Hk. unfold extractPages.
    rewrite (@extractFrom_nth doc page k 1%Z Hk).
    eexists. split; [reflexivity|]. cbn [p_page p_text p_urls].
    destruct (dehyphenate_repairs (join space (map orEmpty (textItems page))))
      as [L [B S]].
    destruct (pageUrls_spec (annotations page)) as [N E].
    split; [lia|]. split; [rewrite L; apply lettersOf_join|].
    split; [exact B|]. split; [exact S|]. split; [exact N | exact E].
Qed.

Lemma extractPages_records_witness :
  nth_error sampleDoc 0
  = Some {| textItems := [Some (str "Refer to Regula-"); Some [10%N];
                          Some (str "tion 9(1)."); None];
            annotations := [{| a_subtype := str "Link";
                               a_url := Some (str "https://sebi.gov.in/a.pdf") |};
                            {| a_subtype := str "Text"; a_url := None |}] |}
  /\ exists p, nth_error (extractPages sampleDoc) 0 = Some p
       /\ p_page p = 1%Z
       /\ p_text p = str "Refer to Regulation 9(1). "
       /\ lettersOf (p_text p) = str "RefertoRegulation9(1)."
       /\ map Some (p_urls p) = [Some (str "https://sebi.gov.in/a.pdf")].
Proof.
  split; [reflexivity|].
  destruct (proj2 (extractPages_records sampleDoc) 0 _ eq_refl)
    as [p [Hp [Hn [Hl [_ [_ [_ Hu]]]]]]].
  exists p. split; [exact Hp|]. split; [exact Hn|].
  split; [vm_compute in Hp; inversion Hp; reflexivity|].
  split; [rewrite Hl; vm_compute; reflexivity|].
  rewrite Hu. vm_compute. reflexivity.
Defined.

(** X17. A rules-only run on an extracted document is page-true: every
    page listed in a record of its output is a page number of the
    document, between 1 and the number of pages. *)
Theorem rules_only_pages_in_document
    (toLowerCase : jsstring -> jsstring)
    (normalizeWithLLM : list Candidate -> option (list ReferenceItem))
    (doc : list RawPage) :
  exists out,
    main toLowerCase normalizeWithLLM true (Some (extractPages doc))
    = {| exitCode := 0; outJson := Some out |}
    /\ forall m p, In m out -> In p (r_pages m) ->
                   (1 <= p <= Z.of_nat (length doc))%Z.
Proof.
  exists (dedupe toLowerCase (map toItem (findCandidates (extractPages doc)))).
  split.
  - unfold main. destruct (findCandidates (extractPages doc)); reflexivity.
  - intros m p Hm Hp.
    destruct (rules_only_records _ _ _ Hm) as [_ [_ [_ [_ [Hin _]]]]].
    apply Hin in Hp. unfold extractPages in Hp.
    rewrite extractFrom_pages in Hp. apply in_map_iff in Hp.
    destruct Hp as [k [<- Hk]]. apply in_seq in Hk. lia.
Qed.

Lemma rules_only_pages_in_document_witness :
  exists out,
    main asciiToLowerCase (fun _ => None) true (Some (extractPages sampleDoc))
    = {| exitCode := 0; outJson := Some out |}
    /\ out <> []
    /\ forall m p, In m out -> In p (r_pages m) ->
                   (1 <= p <= Z.of_nat (length sampleDoc))%Z.
Proof.
  destruct (rules_only_pages_in_document asciiToLowerCase (fun _ => None)
              sampleDoc) as [out [E H]].
  exists out. split; [exact E|]. split.
  - intros ->. vm_compute in E. discriminate E.
  - exact H.
Defined.

(** ** Command line *)

Lemma indexOf_spec (argv : list jsstring) (flag : jsstring) :
  (indexOf argv flag = (-1)%Z /\ ~ In flag argv)
  \/ (exists pre post, argv = pre ++ flag :: post /\ ~ In flag pre
                       /\ indexOf argv flag = Z.of_nat (length pre)).
Proof.
  induction argv as [|a t IH]; simpl.
  - left. auto.
  - destruct (string_eqb a flag) eqn:E.
    + apply string_eqb_eq in E. subst a. right. exists [], t. auto.
    + apply string_eqb_neq in E.
      destruct IH as [[Hi Hn] | [pre [post [-> [Hn Hi]]]]].
      * left. rewrite Hi. simpl. split; [reflexivity|]. intros [H|H]; auto.
      * right. exists (a :: pre), post. split; [reflexivity|]. split.
        -- intros [H|H]; auto.
        -- rewrite Hi. destruct (Z.ltb_spec (Z.of_nat (length pre)) 0); [lia|].
           simpl length. lia.
Qed.

(** X18. [getFlagValue] returns the argument that follows the first
    occurrence of the flag, whatever that argument is, and nothing when
    the flag is absent or stands last; the output path then falls back
    to its default, as it does for an empty value. *)
Theorem getFlagValue_spec (argv : list jsstring) (flag v : jsstring) :
  (getFlagValue argv flag = Some v
   <-> exists pre post, argv = pre ++ flag :: v :: post /\ ~ In flag pre)
  /\ (~ In flag argv -> getFlagValue argv flag = None)
  /\ (forall pre, ~ In flag pre -> getFlagValue (pre ++ [flag]) flag = None)
  /\ (getFlagValue argv (str "--out") = None
      \/ getFlagValue argv (str "--out") = Some [] ->
      outJsonPath argv = str "refs.hybrid.json").
Proof.
  assert (Hat : forall pre post : list jsstring,
            elementAt (pre ++ flag :: post) (Z.of_nat (length pre) + 1)
            = hd_error post).
  { intros pre post. unfold elementAt.
    destruct (Z.ltb_spec (Z.of_nat (length pre) + 1) 0); [lia|].
    replace (Z.to_nat (Z.of_nat (length pre) + 1)) with (length pre + 1) by lia.
    rewrite nth_error_app2 by lia.
    replace (length pre + 1 - length pre) with 1 by lia.
    destruct post; reflexivity. }
  assert (Hfound : forall pre post, ~ In flag pre ->
            getFlagValue (pre ++ flag :: post) flag = hd_error post).
  { intros pre post Hn. unfold getFlagValue.
    destruct (indexOf_spec (pre ++ flag :: post) flag)
      as [[_ Hno] | [pre' [post' [E [Hn' Hi]]]]].
    - exfalso. apply Hno, in_or_app. right; left; reflexivity.
    - assert (pre' = pre /\ post' = post) as [-> ->].
      { clear Hi Hat. revert pre' E Hn'.
        induction pre as [|a pre IH]; intros [|a' pre'] E Hn'; simpl in *.
        - inversion E. auto.
        - inversion E; subst. exfalso. apply Hn'. auto.
        - inversion E; subst. exfalso. apply Hn. auto.
        - inversion E; subst. destruct (IH (fun H => Hn (or_intror H)) pre' H1
                                           (fun H => Hn' (or_intror H))) as [-> ->].
          auto. }
      rewrite Hi. destruct (Z.leb_spec 0 (Z.of_nat (length pre))); [|lia].
      apply Hat. }
  assert (Habsent : ~ In flag argv -> getFlagValue argv flag = None).
  { intros Hn. unfold getFlagValue.
    destruct (indexOf_spec argv flag) as [[-> _] | [pre [post [E _]]]];
      [reflexivity|].
    exfalso. apply Hn. rewrite E. apply in_or_app. right; left; reflexivity. }
  split; [|split; [exact Habsent | split]].
  - split.
    + intros H. destruct (indexOf_spec argv flag)
        as [[_ Hno] | [pre [post [E [Hn _]]]]].
      * rewrite (Habsent Hno) in H. discriminate.
      * subst argv. rewrite (Hfound pre post Hn) in H.
        destruct post as [|v' post]; [discriminate|]. inversion H; subst v'.
        exists pre, post. auto.
    + intros [pre [post [-> Hn]]]. apply (Hfound pre (v :: post) Hn).
  - intros pre Hn. apply (Hfound pre [] Hn).
  - unfold outJsonPath. intros [-> | ->]; reflexivity.
Qed.

Lemma getFlagValue_spec_witness :
  getFlagValue [str "in.pdf"; str "--out"; str "--csv"; str "x.csv"]
               (str "--out") = Some (str "--csv")
  /\ getFlagValue [str "in.pdf"; str "--no-llm"; str "--out"] (str "--out")
     = None
  /\ outJsonPath [str "in.pdf"; str "--no-llm"; str "--out"]
     = str "refs.hybrid.json".
Proof.
  destruct (getFlagValue_spec
              [str "in.pdf"; str "--out"; str "--csv"; str "x.csv"]
              (str "--out") (str "--csv")) as [H1 _].
  destruct (getFlagValue_spec
              [str "in.pdf"; str "--no-llm"; str "--out"]
              (str "--out") []) as [_ [_ [H3 H4]]].
  split.
  - apply H1. exists [str "in.pdf"], [str "x.csv"]. split; [reflexivity|].
    intros [H | []]. discriminate H.
  - assert (E : getFlagValue [str "in.pdf"; str "--no-llm"; str "--out"]
                  (str "--out") = None).
    { apply (H3 [str "in.pdf"; str "--no-llm"]).
      intros [H | [H | []]]; discriminate H. }
    split; [exact E|]. apply H4. left. exact E.
Defined.

(** ** Batched normalization *)

Lemma firstn_skipn_add (A : Type) (n c : nat) (l : list A) :
  firstn n l ++ firstn c (skipn n l) = firstn (n + c) l.
Proof.
  revert l; induction n as [|n IH]; intros l; [reflexivity|].
  destruct l as [|a l]; simpl; [destruct c; reflexivity|].
  rewrite IH. reflexivity.
Qed.

(** A batch taken inside the list with a positive size. *)
Lemma slice_batch (A : Type) (xs : list A) (i b : Z) :
  (0 <= i < Z.of_nat (length xs))%Z -> (1 <= b)%Z ->
  slice xs i (i + b)
  = firstn (Z.to_nat (Z.min (i + b) (Z.of_nat (length xs)) - i))
           (skipn (Z.to_nat i) xs)
  /\ slice xs i (i + b) <> []
  /\ (Z.of_nat (length (slice xs i (i + b))) <= b)%Z.
Proof.
  intros Hi Hb. unfold slice, clampIndex.
  destruct (Z.ltb_spec i 0); [lia|].
  destruct (Z.ltb_spec (i + b) 0); [lia|].
  replace (Z.min i (Z.of_nat (length xs))) with i by lia.
  split; [reflexivity|].
  set (cnt := Z.to_nat (Z.min (i + b) (Z.of_nat (length xs)) - i)).
  assert (Hc : 1 <= cnt) by (unfold cnt; lia).
  assert (Hl : length (firstn cnt (skipn (Z.to_nat i) xs))
               = Nat.min cnt (length xs - Z.to_nat i)).
  { rewrite length_firstn, length_skipn. reflexivity. }
  split.
  - intros E. rewrite E in Hl. simpl in Hl. lia.
  - rewrite Hl. unfold cnt. lia.
Qed.

Lemma nth_error_removelast (A : Type) (l : list A) (k : nat) (x : A) :
  nth_error (removelast l) k = Some x -> nth_error l k = Some x.
Proof.
  destruct l as [|a l]; [destruct k; discriminate|].
  intros H.
  rewrite (@app_removelast_last _ (a :: l) a) by discriminate.
  rewrite nth_error_app1; [exact H|].
  apply nth_error_Some. rewrite H. discriminate.
Qed.

Section NormalizeFacts.
Variable respond : nat -> list Candidate -> option (list ReferenceItem).
Variable all : list Candidate.

Lemma answersFrom_snoc (k : nat) (sent : list (list Candidate))
    (sl : list Candidate) :
  answersFrom respond k (sent ++ [sl])
  = answersFrom respond k sent
    ++ match respond (k + length sent) sl with Some refs => refs | None => [] end.
Proof.
  revert k; induction sent as [|a sent IH]; intros k; simpl.
  - rewrite Nat.add_0_r, app_nil_r. reflexivity.
  - rewrite IH, <- app_assoc. replace (S k + length sent) with (k + S (length sent)) by lia.
    reflexivity.
Qed.

Lemma batchLoop_spec (b : Z) :
  (1 <= b)%Z ->
  forall fuel i0 sent out,
    (0 <= i0)%Z ->
    Z.to_nat (Z.of_nat (length all) - i0) < fuel ->
    concat sent = firstn (Z.to_nat i0) all ->
    Forall (fun sl => sl <> [] /\ (Z.of_nat (length sl) <= b)%Z) sent ->
    Forall (fun sl => Z.of_nat (length sl) = b) (removelast sent) ->
    ((i0 <= Z.of_nat (length all))%Z ->
     Forall (fun sl => Z.of_nat (length sl) = b) sent) ->
    (forall k sl, nth_error sent k = Some sl -> respond k sl <> None) ->
    out = answersFrom respond 0 sent ->
    let r := batchLoop respond fuel all (Some b) (Some i0) sent out in
    snd r <> Running
    /\ (exists rest, all = concat (fst r) ++ rest)
    /\ Forall (fun sl => sl <> [] /\ (Z.of_nat (length sl) <= b)%Z) (fst r)
    /\ Forall (fun sl => Z.of_nat (length sl) = b) (removelast (fst r))
    /\ (forall k sl, nth_error (removelast (fst r)) k = Some sl ->
                     respond k sl <> None)
    /\ (forall o, snd r = Returned o ->
                  concat (fst r) = all
                  /\ (forall k sl, nth_error (fst r) k = Some sl ->
                                   respond k sl <> None)
                  /\ o = answersFrom respond 0 (fst r))
    /\ (snd r = Threw ->
        exists pre sl, fst r = pre ++ [sl] /\ respond (length pre) sl = None).
Proof.
  intros Hb. induction fuel as [|fuel IH];
    intros i0 sent out Hi Hf Hc Hok Hfull Hall Hans Ho; [lia|].
  cbn [batchLoop]. destruct (Z.ltb_spec i0 (Z.of_nat (length all))) as [Hlt|Hge].
  - cbn [plus_ toInteger].
    destruct (@slice_batch _ all i0 b) as [Es [Hne Hle]]; [lia | exact Hb|].
    set (sl := slice all i0 (i0 + b)) in *.
    assert (Hc' : concat (sent ++ [sl]) = firstn (Z.to_nat (i0 + b)) all).
    { rewrite concat_app. simpl. rewrite app_nil_r, Hc, Es, firstn_skipn_add.
      destruct (Z.le_ge_cases (i0 + b) (Z.of_nat (length all))) as [H|H].
      - f_equal. lia.
      - rewrite !firstn_all2 by lia. reflexivity. }
    assert (Hok' : Forall (fun sl => sl <> [] /\ (Z.of_nat (length sl) <= b)%Z)
                          (sent ++ [sl])).
    { apply Forall_app. split; [exact Hok|]. repeat constructor; assumption. }
    assert (Hfull' : Forall (fun sl => Z.of_nat (length sl) = b)
                            (removelast (sent ++ [sl]))).
    { rewrite removelast_last. apply Hall. lia. }
    destruct (respond (length sent) sl) as [refs|] eqn:Er.
    + apply IH; try assumption; try lia.
      * intros Hin. apply Forall_app. split; [apply Hall; lia|].
        constructor; [|constructor]. rewrite Es.
        rewrite length_firstn, length_skipn. lia.
      * intros k s0 Hk. destruct (Nat.lt_ge_cases k (length sent)) as [Hlk|Hlk].
        -- rewrite nth_error_app1 in Hk by exact Hlk. apply (Hans _ _ Hk).
        -- rewrite nth_error_app2 in Hk by exact Hlk.
           destruct (k - length sent) as [|d] eqn:Ed;
             [|destruct d; discriminate].
           inversion Hk; subst s0.
           replace k with (length sent) by lia. rewrite Er. discriminate.
      * rewrite answersFrom_snoc. simpl. rewrite Er, Ho. reflexivity.
    + cbn [fst snd]. split; [discriminate|]. split.
      * exists (skipn (Z.to_nat (i0 + b)) all). rewrite Hc'.
        symmetry. apply firstn_skipn.
      * split; [exact Hok'|]. split; [exact Hfull'|].
        split; [rewrite removelast_last; exact Hans|].
        split; [discriminate|].
        intros _. exists sent, sl. auto.
  - cbn [fst snd]. split; [discriminate|].
    assert (Ea : concat sent = all) by (rewrite Hc; apply firstn_all2; lia).
    split; [exists []; rewrite Ea, app_nil_r; reflexivity|].
    split; [exact Hok|]. split; [exact Hfull|].
    split; [intros k sl Hk; apply (Hans k sl), nth_error_removelast, Hk|].
    split; [|discriminate].
    intros o E. inversion E; subst o. auto.
Qed.

Lemma batchLoop_forever (b : Z) :
  (b <= 0)%Z -> all <> [] -> (forall k sl, respond k sl <> None) ->
  forall fuel i0 sent out,
    (i0 <= 0)%Z ->
    snd (batchLoop respond fuel all (Some b) (Some i0) sent out) = Running
    /\ length (fst (batchLoop respond fuel all (Some b) (Some i0) sent out))
       = length sent + fuel.
Proof.
  intros Hb Hne Hr. induction fuel as [|fuel IH]; intros i0 sent out Hi.
  - simpl. split; [reflexivity | lia].
  - cbn [batchLoop].
    destruct (Z.ltb_spec i0 (Z.of_nat (length all))) as [Hlt|Hge].
    + cbn [plus_ toInteger].
      destruct (respond (length sent) (slice all i0 (i0 + b))) as [refs|] eqn:Er;
        [|exfalso; apply (Hr _ _ Er)].
      destruct (IH (i0 + b)%Z (sent ++ [slice all i0 (i0 + b)]) (out ++ refs))
        as [H1 H2]; [lia|].
      split; [exact H1|]. rewrite H2, length_app. simpl. lia.
    + destruct all; [congruence | simpl in Hge; lia].
Qed.

End NormalizeFacts.

(** X19. With a batch size of at least 1, [normalizeWithLLM] ends.  It
    sends the candidates in consecutive batches, in order and without
    gap or overlap: every batch but the last is exactly of that size,
    the last is non-empty and no larger.  Every request before the last
    one sent was answered.  It returns only when no request failed, all
    candidates were sent, and the result is the answers joined in the
    order of the requests; it throws exactly when the last request sent
    failed, so the first failing request is the last one sent. *)
Theorem normalizeWithLLM_batches
    (respond : nat -> list Candidate -> option (list ReferenceItem))
    (fuel : nat) (allCandidates : list Candidate) (b : Z) :
  (1 <= b)%Z -> length allCandidates < fuel ->
  let r := normalizeWithLLM respond true fuel allCandidates (Some b) in
  snd r <> Running
  /\ (exists rest, allCandidates = concat (fst r) ++ rest)
  /\ Forall (fun sl => sl <> [] /\ (Z.of_nat (length sl) <= b)%Z) (fst r)
  /\ Forall (fun sl => Z.of_nat (length sl) = b) (removelast (fst r))
  /\ (forall k sl, nth_error (removelast (fst r)) k = Some sl ->
                   respond k sl <> None)
  /\ (forall out, snd r = Returned out ->
                  concat (fst r) = allCandidates
                  /\ (forall k sl, nth_error (fst r) k = Some sl ->
                                   respond k sl <> None)
                  /\ out = answersFrom respond 0 (fst r))
  /\ (snd r = Threw
      <-> exists pre sl, fst r = pre ++ [sl] /\ respond (length pre) sl = None).
Proof.
  intros Hb Hf. unfold normalizeWithLLM. cbn [negb].
  destruct (@batchLoop_spec respond allCandidates b Hb fuel 0%Z [] [])
    as [H1 [H2 [H3 [H4 [H5 [H6 H7]]]]]];
    [lia | lia | reflexivity | constructor | constructor
     | intros _; constructor | intros k sl Hk; destruct k; discriminate
     | reflexivity |].
  cbv zeta.
  set (r := batchLoop respond fuel allCandidates (Some b) (Some 0%Z) [] []) in *.
  split; [exact H1|]. split; [exact H2|]. split; [exact H3|].
  split; [exact H4|]. split; [exact H5|]. split; [exact H6|].
  split; [exact H7|].
  intros [pre [sl [E N]]].
  destruct (snd r) as [o| |] eqn:Er; [|reflexivity|congruence].
  exfalso. destruct (H6 o eq_refl) as [_ [A _]].
  apply (A (length pre) sl); [|exact N].
  rewrite E, nth_error_app2, Nat.sub_diag by lia. reflexivity.
Qed.

Lemma normalizeWithLLM_batches_witness :
  normalizeWithLLM echo true 6 fiveCandidates (Some 2%Z)
  = ([firstn 2 fiveCandidates; firstn 2 (skipn 2 fiveCandidates);
      skipn 4 fiveCandidates],
     Returned (map toItem fiveCandidates))
  /\ concat (fst (normalizeWithLLM echo true 6 fiveCandidates (Some 2%Z)))
     = fiveCandidates
  /\ fst (normalizeWithLLM failSecond true 6 fiveCandidates (Some 2%Z))
     = [firstn 2 fiveCandidates; firstn 2 (skipn 2 fiveCandidates)]
  /\ snd (normalizeWithLLM failSecond true 6 fiveCandidates (Some 2%Z)) = Threw.
Proof.
  split; [reflexivity|]. split.
  - destruct (@normalizeWithLLM_batches echo 6 fiveCandidates 2)
      as [_ [_ [_ [_ [_ [H _]]]]]]; [lia | simpl; lia |].
    apply (H (map toItem fiveCandidates)). reflexivity.
  - split; [reflexivity|].
    destruct (@normalizeWithLLM_batches failSecond 6 fiveCandidates 2)
      as [_ [_ [_ [_ [_ [_ H]]]]]]; [lia | simpl; lia |].
    apply H.
    exists [firstn 2 fiveCandidates], (firstn 2 (skipn 2 fiveCandidates)).
    split; reflexivity.
Defined.

(** X20. With a batch size of 0 or less, and a model that answers every
    request, [normalizeWithLLM] never returns on a non-empty candidate
    list: the loop index never passes the end of the list, and every
    turn of the loop sends one more request. *)
Theorem normalizeWithLLM_nonpositive_batch_never_returns
    (respond : nat -> list Candidate -> option (list ReferenceItem))
    (allCandidates : list Candidate) (b : Z) (fuel : nat) :
  (b <= 0)%Z -> allCandidates <> [] ->
  (forall k sl, respond k sl <> None) ->
  snd (normalizeWithLLM respond true fuel allCandidates (Some b)) = Running
  /\ length (fst (normalizeWithLLM respond true fuel allCandidates (Some b)))
     = fuel.
Proof.
  intros Hb Hne Hr. unfold normalizeWithLLM. cbn [negb].
  destruct (@batchLoop_forever respond allCandidates b Hb Hne Hr fuel 0%Z [] [])
    as [H1 H2]; [lia|].
  split; [exact H1 | rewrite H2; reflexivity].
Qed.

Lemma normalizeWithLLM_nonpositive_batch_never_returns_witness :
  snd (normalizeWithLLM echo true 1000 fiveCandidates (Some 0%Z)) = Running
  /\ length (fst (normalizeWithLLM echo true 1000 fiveCandidates (Some 0%Z)))
     = 1000.
Proof.
  apply normalizeWithLLM_nonpositive_batch_never_returns.
  - lia.
  - discriminate.
  - intros k sl. discriminate.
Defined.

(** X21. With a batch size that is not a number, [normalizeWithLLM]
    sends a single request that holds no candidate and returns its
    answer alone: no candidate of the list reaches the model.  Without
    an API key it throws before any request. *)
Theorem normalizeWithLLM_nan_batch
    (respond : nat -> list Candidate -> option (list ReferenceItem))
    (allCandidates : list Candidate) (fuel : nat) :
  (allCandidates <> [] -> 2 <= fuel ->
   normalizeWithLLM respond true fuel allCandidates None
   = ([[]], match respond 0 [] with
            | Some refs => Returned refs
            | None => Threw
            end))
  /\ (forall batch,
        normalizeWithLLM respond false fuel allCandidates batch = ([], Threw)).
Proof.
  split; [|reflexivity].
  intros Hne Hf. destruct fuel as [|[|fuel]]; try lia.
  unfold normalizeWithLLM. cbn [negb batchLoop plus_ toInteger].
  destruct (Z.ltb_spec 0 (Z.of_nat (length allCandidates))) as [H|H];
    [|destruct allCandidates; [congruence | simpl in H; lia]].
  assert (Es : slice allCandidates 0 0 = []).
  { unfold slice, clampIndex. simpl.
    replace (Z.min 0 (Z.of_nat (length allCandidates))) with 0%Z by lia.
    reflexivity. }
  rewrite Es. simpl. destruct (respond 0 []); reflexivity.
Qed.

Lemma normalizeWithLLM_nan_batch_witness :
  normalizeWithLLM echo true 5 fiveCandidates None = ([[]], Returned []).
Proof.
  apply (proj1 (normalizeWithLLM_nan_batch echo fiveCandidates 5)).
  - discriminate.
  - lia.
Defined.

(** ** Tabular output *)

Lemma needsQuoting_class (u : N) :
  classMatches false {| negated := false; atoms := [One 34; One 44; One 10] |} u
  = needsQuoting u.
Proof.
  unfold classMatches, atomMatches, canonicalize, needsQuoting.
  cbn -[N.eqb]. ncases.
Qed.

Lemma test_needs_quoting (v : jsstring) :
  test NEEDS_QUOTING v = existsb needsQuoting v.
Proof.
  unfold test.
  assert (H : forall p, match execFrom NEEDS_QUOTING p v with
                        | Some _ => true
                        | None => false
                        end = existsb needsQuoting v).
  { induction v as [|u t IH]; intros p; [reflexivity|].
    cbn [execFrom existsb]. unfold matchAt at 1.
    cbn [NEEDS_QUOTING source ignoreCase rx seq cls compile rest].
    rewrite needsQuoting_class. destruct (needsQuoting u); [reflexivity|].
    apply IH. }
  apply H.
Qed.

Lemma double_quotes (fuel : nat) (x : pos) :
  length (rest x) < fuel ->
  replaceLoop fuel DOUBLE_QUOTE (quote ++ quote) x = doubled (rest x).
Proof.
  revert x; induction fuel as [|fuel IH]; intros x Hf; [lia|].
  cbn [replaceLoop]. unfold matchAt.
  cbn [DOUBLE_QUOTE source ignoreCase rx seq cls compile].
  destruct (rest x) as [|u t] eqn:Er; [reflexivity|].
  destruct (classMatches false {| negated := false; atoms := [One 34] |} u)
    eqn:Ec.
  - apply one_class in Ec. subst u.
    assert (En : Nat.eqb (endIndex {| prev := 34%N :: prev x; rest := t |})
                         (endIndex x) = false).
    { unfold endIndex. cbn [prev length]. apply Nat.eqb_neq. lia. }
    rewrite En, IH by (simpl in *; lia). reflexivity.
  - assert (Hu : N.eqb u 34 = false).
    { destruct (N.eqb_spec u 34) as [->|]; [|reflexivity].
      rewrite (proj2 (one_class 34 34) eq_refl) in Ec. discriminate. }
    rewrite IH by (simpl in *; lia). simpl. rewrite Hu. reflexivity.
Qed.

Lemma esc_unfold (v : jsstring) :
  esc v = if existsb needsQuoting v then quote ++ doubled v ++ quote else v.
Proof.
  unfold esc. rewrite test_needs_quoting.
  destruct (existsb needsQuoting v); [|reflexivity].
  unfold replace. rewrite double_quotes by (simpl; lia). reflexivity.
Qed.

Lemma doubled_length (v : jsstring) :
  length (doubled v) = length v + length (filter (N.eqb 34) v).
Proof.
  induction v as [|u t IH]; [reflexivity|].
  unfold doubled in *. cbn [flat_map filter].
  rewrite length_app, IH, (N.eqb_sym 34 u).
  destruct (N.eqb u 34); cbn [length]; lia.
Qed.

(** X22. [esc] returns a value that holds no double quote, comma or
    line feed as it is; any other value comes back between two double
    quotes with each of its own double quotes doubled, so it is longer
    by two plus the number of its quotes. *)
Theorem esc_quotes_what_needs_quoting (v : jsstring) :
  (Forall (fun u => needsQuoting u = false) v -> esc v = v)
  /\ (Exists (fun u => needsQuoting u = true) v ->
      esc v = quote ++ doubled v ++ quote
      /\ length (esc v) = length v + length (filter (N.eqb 34) v) + 2).
Proof.
  rewrite esc_unfold. split.
  - intros H. destruct (existsb needsQuoting v) eqn:E; [|reflexivity].
    apply existsb_exists in E. destruct E as [u [Hu E]].
    rewrite Forall_forall in H. rewrite (H u Hu) in E. discriminate.
  - intros H. apply Exists_exists in H. destruct H as [u [Hu E]].
    assert (Ex : existsb needsQuoting v = true)
      by (apply existsb_exists; exists u; auto).
    rewrite Ex. split; [reflexivity|].
    unfold quote. simpl. rewrite length_app, doubled_length. simpl. lia.
Qed.

Lemma esc_quotes_what_needs_quoting_witness :
  esc (str "Regulation 9(1)") = str "Regulation 9(1)"
  /\ esc (str "a,b") = quote ++ str "a,b" ++ quote
  /\ length (esc (str "a,b")) = 5.
Proof.
  destruct (esc_quotes_what_needs_quoting (str "Regulation 9(1)")) as [H1 _].
  destruct (esc_quotes_what_needs_quoting (str "a,b")) as [_ H2].
  split; [apply H1; repeat constructor|].
  destruct H2 as [E L]; [right; left; reflexivity|].
  split; [exact E | exact L].
Defined.

Lemma readQuoted_doubled (v rest : jsstring) :
  match rest with [] => True | u :: _ => N.eqb u 34 = false end ->
  readQuoted (doubled v ++ 34%N :: rest) = Some (v, rest).
Proof.
  intros Hr. induction v as [|u t IH].
  - simpl. destruct rest as [|w r]; [reflexivity|]. rewrite Hr. reflexivity.
  - unfold doubled in *. cbn [flat_map].
    destruct (N.eqb u 34) eqn:Eu.
    + apply N.eqb_eq in Eu. subst u. cbn [app readQuoted N.eqb Pos.eqb].
      rewrite IH. reflexivity.
    + cbn [app readQuoted]. rewrite Eu, IH. reflexivity.
Qed.

Lemma readBare_plain (v rest : jsstring) :
  Forall (fun u => needsQuoting u = false) v ->
  match rest with
  | [] => True
  | u :: _ => (N.eqb u 44 || N.eqb u 10)%bool = true
  end ->
  readBare (v ++ rest) = (v, rest).
Proof.
  intros Hv Hr. induction Hv as [|u t Hu _ IH]; simpl.
  - destruct rest as [|w r]; [reflexivity|]. simpl. rewrite Hr. reflexivity.
  - unfold needsQuoting in Hu. apply orb_false_iff in Hu.
    destruct Hu as [Hu H10]. apply orb_false_iff in Hu. destruct Hu as [_ H44].
    rewrite H44, H10, IH. reflexivity.
Qed.

Lemma readField_esc (v rest : jsstring) :
  match rest with
  | [] => True
  | u :: _ => (N.eqb u 44 || N.eqb u 10)%bool = true
  end ->
  readField (esc v ++ rest) = Some (v, rest).
Proof.
  intros Hr.
  assert (Hq : match rest with [] => True | u :: _ => N.eqb u 34 = false end).
  { destruct rest as [|u r]; [exact I|].
    apply orb_true_iff in Hr. destruct Hr as [H|H]; apply N.eqb_eq in H;
      subst u; reflexivity. }
  rewrite esc_unfold. destruct (existsb needsQuoting v) eqn:E.
  - unfold quote. cbn [app readField N.eqb Pos.eqb].
    rewrite <- app_assoc. cbn [app]. apply readQuoted_doubled, Hq.
  - assert (Hv : Forall (fun u => needsQuoting u = false) v).
    { apply Forall_forall. intros u Hu.
      destruct (needsQuoting u) eqn:En; [|reflexivity].
      assert (existsb needsQuoting v = true)
        by (apply existsb_exists; exists u; auto).
      congruence. }
    unfold readField. destruct (v ++ rest) as [|u t] eqn:Ea.
    + apply app_eq_nil in Ea. destruct Ea as [-> ->]. reflexivity.
    + assert (Hu : N.eqb u 34 = false).
      { destruct v as [|u' v']; simpl in Ea.
        - subst rest. exact Hq.
        - inversion Ea; subst. inversion Hv as [|? ? Hn _]; subst.
          unfold needsQuoting in Hn. apply orb_false_iff in Hn.
          destruct Hn as [Hn _]. apply orb_false_iff in Hn. apply Hn. }
      rewrite Hu, <- Ea. f_equal. apply readBare_plain; assumption.
Qed.

(** X23. Fields written by [esc] decode in one way only.  The field
    reader of this development ends a bare field at a comma or a line
    feed and nowhere else (a carriage return, which [esc] does not
    quote, is ordinary content of a field) and a quoted field at its
    closing double quote, a doubled quote standing for one.  Before a
    comma, a line feed or the end of the text it reads an escaped value
    back as the value and leaves the rest; so two values whose escaped
    forms, each followed by such a rest, give the same text are the same
    value followed by the same rest. *)
Theorem esc_round_trip (v rest : jsstring) :
  rest = [] \/ (exists r, rest = 44%N :: r) \/ (exists r, rest = 10%N :: r) ->
  readField (esc v ++ rest) = Some (v, rest)
  /\ forall v' rest',
       rest' = [] \/ (exists r, rest' = 44%N :: r)
       \/ (exists r, rest' = 10%N :: r) ->
       esc v' ++ rest' = esc v ++ rest -> v' = v /\ rest' = rest.
Proof.
  assert (R : forall w r,
             r = [] \/ (exists r0, r = 44%N :: r0) \/ (exists r0, r = 10%N :: r0) ->
             readField (esc w ++ r) = Some (w, r)).
  { intros w r H. apply readField_esc.
    destruct H as [-> | [[r0 ->] | [r0 ->]]];
      [exact I | reflexivity | reflexivity]. }
  intros H. split; [apply R, H|].
  intros v' rest' H' E.
  assert (E' : Some (v', rest') = Some (v, rest)).
  { rewrite <- (R v' rest' H'), E. apply R, H. }
  inversion E'. auto.
Qed.

Lemma esc_round_trip_witness :
  readField (esc (str "9(1), " ++ quote ++ str "as amended" ++ quote)
             ++ str ",next")
  = Some (str "9(1), " ++ quote ++ str "as amended" ++ quote, str ",next")
  /\ esc (str "a" ++ [13%N]) = str "a" ++ [13%N]
  /\ readField (esc (str "a" ++ [13%N]) ++ [10%N])
     = Some (str "a" ++ [13%N], [10%N]).
Proof.
  split; [|split; [reflexivity|]].
  - apply esc_round_trip. right. left. exists (str "next"). reflexivity.
  - apply esc_round_trip. right. right. exists []. reflexivity.
Defined.

Lemma join_cons (sep a : jsstring) (t : list jsstring) :
  join sep (a :: t)
  = a ++ match t with [] => [] | _ :: _ => sep ++ join sep t end.
Proof.
  destruct t; simpl; [rewrite app_nil_r|]; reflexivity.
Qed.

Lemma csv_line_cons (f f2 : jsstring) (fs : list jsstring)
    (rest : list jsstring) :
  join [10%N] (join (str ",") (map esc (f :: f2 :: fs)) :: rest)
  = esc f ++ 44%N :: join [10%N] (join (str ",") (map esc (f2 :: fs)) :: rest).
Proof.
  rewrite !(join_cons [10%N]). cbn [map].
  rewrite (join_cons (str ",") (esc f)). rewrite <- !app_assoc. reflexivity.
Qed.

Lemma csv_line_last (f : jsstring) (rest : list jsstring) :
  join [10%N] (join (str ",") (map esc [f]) :: rest)
  = esc f ++ match rest with [] => [] | _ :: _ => 10%N :: join [10%N] rest end.
Proof.
  rewrite join_cons. destruct rest; reflexivity.
Qed.

Lemma readCsv_lines (tbl : list (list jsstring)) :
  Forall (fun r => r <> []) tbl ->
  forall fs f row rows fuel,
    length (join [10%N]
              (map (fun r => join (str ",") (map esc r)) ((f :: fs) :: tbl)))
    < fuel ->
    readCsv fuel
      (join [10%N]
         (map (fun r => join (str ",") (map esc r)) ((f :: fs) :: tbl)))
      row rows
    = Some (rev rows ++ (rev row ++ f :: fs) :: tbl).
Proof.
  induction tbl as [|r tbl IHt]; intros Hne.
  - induction fs as [|f2 fs IHf]; intros f row rows fuel Hf;
      (destruct fuel as [|fuel]; [lia|]); rewrite map_cons in Hf |- *.
    + rewrite csv_line_last in Hf |- *. cbn [map] in Hf |- *.
      cbn [readCsv]. rewrite readField_esc by exact I.
      cbn [rev app]. rewrite <- ?app_assoc. reflexivity.
    + rewrite csv_line_cons in Hf |- *.
      cbn [readCsv]. rewrite readField_esc by reflexivity.
      cbn [N.eqb Pos.eqb].
      specialize (IHf f2 (f :: row) rows fuel). rewrite map_cons in IHf.
      rewrite IHf.
      * cbn [rev app]. rewrite <- ?app_assoc. reflexivity.
      * rewrite length_app in Hf. cbn [length] in Hf. lia.
  - inversion Hne as [|? ? Hr Hne']; subst.
    destruct r as [|g gs]; [congruence|].
    specialize (IHt Hne').
    induction fs as [|f2 fs IHf]; intros f row rows fuel Hf;
      (destruct fuel as [|fuel]; [lia|]); rewrite map_cons in Hf |- *.
    + rewrite csv_line_last in Hf |- *. rewrite map_cons in Hf |- *.
      cbn [readCsv]. rewrite readField_esc by reflexivity.
      cbn [N.eqb Pos.eqb].
      specialize (IHt gs g [] (rev (f :: row) :: rows) fuel).
      rewrite map_cons in IHt. rewrite IHt.
      * cbn [rev app]. rewrite <- ?app_assoc. reflexivity.
      * rewrite length_app in Hf. cbn [length] in Hf. lia.
    + rewrite csv_line_cons in Hf |- *.
      cbn [readCsv]. rewrite readField_esc by reflexivity.
      cbn [N.eqb Pos.eqb].
      specialize (IHf f2 (f :: row) rows fuel). rewrite map_cons in IHf.
      rewrite IHf.
      * cbn [rev app]. rewrite <- ?app_assoc. reflexivity.
      * rewrite length_app in Hf. cbn [length] in Hf. lia.
Qed.

Lemma parseCsv_lines (f : jsstring) (fs : list jsstring)
    (tbl : list (list jsstring)) :
  Forall (fun r => r <> []) tbl ->
  parseCsv (join [10%N]
              (map (fun r => join (str ",") (map esc r)) ((f :: fs) :: tbl)))
  = Some ((f :: fs) :: tbl).
Proof.
  intros Hne. unfold parseCsv.
  rewrite (@readCsv_lines tbl Hne fs f [] []) by lia. reflexivity.
Qed.

(** X24. The text that [toCsv] writes reads back, field by field, as
    the header line followed by the nine values of each record in order,
    whatever commas, double quotes and line feeds the values hold. *)
Theorem toCsv_round_trip (showNumber : Q -> jsstring)
    (rows : list ReferenceItem) :
  parseCsv (toCsv showNumber rows)
  = Some (header :: map (rowValues showNumber) rows).
Proof.
  assert (E : toCsv showNumber rows
              = join [10%N]
                  (map (fun r => join (str ",") (map esc r))
                     ((hd [] header :: tl header)
                      :: map (rowValues showNumber) rows))).
  { unfold toCsv. rewrite map_cons, map_map. reflexivity. }
  rewrite E. apply parseCsv_lines.
  apply Forall_forall. intros r Hr. apply in_map_iff in Hr.
  destruct Hr as [x [<- _]]. discriminate.
Qed.


Lemma min_of_ascending (p : Z) (t : list Z) :
  Forall (Z.le p) t -> fold_left Z.min t p = p.
Proof.
  induction 1 as [|a t Ha _ IH]; [reflexivity|].
  cbn [fold_left]. rewrite Z.min_l by exact Ha. exact IH.
Qed.

(** X25. For a record that [dedupe] returns, the first_page value that
    [toCsv] writes, the least of the record's pages, is the first entry
    of its page list, and every later entry is greater: merged page
    lists are ascending. *)
Theorem toCsv_first_page_of_merged
    (showNumber : Q -> jsstring) (toLowerCase : jsstring -> jsstring)
    (items : list ReferenceItem) (m : ReferenceItem) (p : Z) (t : list Z) :
  In m (dedupe toLowerCase items) ->
  r_pages m = p :: t ->
  nth 6 (rowValues showNumber m) [] = numberToString p
  /\ Forall (Z.lt p) t.
Proof.
  intros Hin Hp. destruct (dedupe_entry _ _ _ Hin) as [r [g [_ Hm]]].
  assert (Hs : StronglySorted Z.lt (r_pages m)).
  { rewrite Hm. apply merge_fold_pages_sorted. simpl.
    apply sortAsc_sorted, arrayFromSet_NoDup, Z.eqb_eq. }
  rewrite Hp in Hs. inversion Hs as [|? ? _ Hlt]; subst.
  split; [|exact Hlt].
  cbn [rowValues nth]. rewrite Hp. cbn [firstPage].
  rewrite min_of_ascending; [reflexivity|].
  eapply Forall_impl; [|exact Hlt]. intros a Ha. apply Z.lt_le_incl, Ha.
Qed.

Lemma toCsv_first_page_of_merged_witness :
  In (merge (inserted recCircular) recCircularAgain)
     (dedupe asciiToLowerCase sampleItems)
  /\ r_pages (merge (inserted recCircular) recCircularAgain) = [1%Z; 2%Z; 3%Z]
  /\ nth 6 (rowValues showSample
              (merge (inserted recCircular) recCircularAgain)) []
     = str "1".
Proof.
  assert (H : In (merge (inserted recCircular) recCircularAgain)
                 (dedupe asciiToLowerCase sampleItems))
    by (left; reflexivity).
  split; [exact H|]. split; [reflexivity|].
  exact (proj1 (@toCsv_first_page_of_merged showSample asciiToLowerCase
                  sampleItems _ 1%Z [2%Z; 3%Z] H eq_refl)).
Defined.
